(** * Dispersive susceptibilities of Meep (src/susceptibility.cpp)

    A shallow embedding of the polarization updates of
    [susceptibility.cpp]: the base class' [needs_P], the Lorentzian
    recurrence with its isotropic / 2x2 / 3x3 branches, the noisy
    Lorentzian, the gyrotropic two-pass update with its closed-form 3x3
    inverse, [subtract_P], the ghost-value queries and [dump_params].

    Numbers.  [double] and [realnum] are read as real numbers: every
    statement below is a statement of exact real arithmetic, and says
    nothing about rounding, NaN or infinities.

    Memory.  A [realnum *] is either NULL or a buffer that the code
    indexes with [ptrdiff_t] offsets and never bounds-checks; a buffer
    is a total map from offsets to values.  The buffers of different
    table entries are disjoint ([init_internal_data] lays them out one
    after the other), so a table maps an entry to the contents of its
    buffer, and a store through a local pointer is written back to the
    table when the loop that owns the pointer ends.  Dereferencing NULL,
    indexing a 3x3 array outside 0..2 and [abort] are faults. *)

From Stdlib Require Import Reals Lra Lia List ZArith Bool.
Import ListNotations.
Open Scope R_scope.

(* ================================================================== *)
(** ** Faults *)

Inductive fault : Type :=
| NullDeref      (* a NULL pointer is dereferenced *)
| OutOfBounds    (* a [double [3][3]] is indexed outside 0..2 *)
| Aborted        (* [abort("...")] *)
| NotANumber.    (* a NaN or an infinity would be stored in a realnum *)

Inductive result (A : Type) : Type :=
| Ok (a : A)
| Fault (f : fault).

Arguments Ok {A} a.
Arguments Fault {A} f.

Definition bind {A B : Type} (m : result A) (k : A -> result B) : result B :=
  match m with
  | Ok a => k a
  | Fault f => Fault f
  end.

Notation "x <- m ;; k" := (bind m (fun x => k))
  (at level 61, m at next level, right associativity).

(** A [for] loop over the elements of [l], threading the state [s]. *)
Fixpoint fold_res {A S : Type} (body : S -> A -> result S) (l : list A) (s : S)
  : result S :=
  match l with
  | [] => Ok s
  | a :: l' => s' <- body s a ;; fold_res body l' s'
  end.

(* ================================================================== *)
(** ** Buffers and pointers *)

(** [typedef double realnum] *)
Abbreviation realnum := R (only parsing).

Definition array : Type := Z -> realnum.

(** [None] is NULL. *)
Definition ptr : Type := option array.

Definition deref {A : Type} (p : option A) : result A :=
  match p with
  | Some a => Ok a
  | None => Fault NullDeref
  end.

Definition non_null {A : Type} (p : option A) : bool :=
  match p with
  | Some _ => true
  | None => false
  end.

(** [a[i] = v] *)
Definition upd (a : array) (i : Z) (v : realnum) : array :=
  fun j => if Z.eqb j i then v else a j.

(** [a[i] += v] *)
Definition add_at (a : array) (i : Z) (v : realnum) : array :=
  upd a i (a i + v).

(** [a[i] -= v] *)
Definition sub_at (a : array) (i : Z) (v : realnum) : array :=
  upd a i (a i - v).

(** Two pointers with equal contents. *)
Definition ptr_eq (a b : ptr) : Prop :=
  match a, b with
  | Some f, Some g => forall i : Z, f i = g i
  | None, None => True
  | _, _ => False
  end.

Fixpoint nodupb {A : Type} (eq_dec : forall a b : A, {a = b} + {a <> b})
  (l : list A) : bool :=
  match l with
  | [] => true
  | a :: l' => negb (if in_dec eq_dec a l' then true else false) && nodupb eq_dec l'
  end.

(** A [double m[3][3]], indexed by the integer values of [X], [Y], [Z]. *)
Definition mat3 : Type := Z -> Z -> R.

Definition mat3_zero : mat3 := fun _ _ => 0.

(** [m[i][j] = v] *)
Definition mat3_set (m : mat3) (i j : Z) (v : R) : mat3 :=
  fun i' j' => if (Z.eqb i' i && Z.eqb j' j)%bool then v else m i' j'.

Definition in_range3 (i : Z) : bool := (Z.leb 0 i && Z.ltb i 3)%bool.

(** [m[i][j]] read with run-time indices. *)
Definition mat3_get (m : mat3) (i j : Z) : result R :=
  if (in_range3 i && in_range3 j)%bool then Ok (m i j) else Fault OutOfBounds.

(* ================================================================== *)
(** ** What susceptibility.cpp takes from meep.hpp and vec.hpp

    The enumerations [component], [direction], [ndim], [field_type],
    their helper functions, the loop macros, the constant [pi] and the
    random source are declared in headers that are not among the
    sources at hand.  They are the fields of this interface, and every
    theorem holds for each of its instances.  The few laws are what the
    code relies on: a loop macro visits each component once, and [X],
    [Y], [Z] index a 3x3 array. *)

Class MeepHeader : Type := {
  component : Type;
  direction : Type;
  ndim : Type;
  field_type : Type;
  rng_state : Type;
  component_eq_dec : forall a b : component, {a = b} + {a <> b};
  field_type_eq_dec : forall a b : field_type, {a = b} + {a <> b};
  (* the integer value of an enumerator of [direction] *)
  direction_value : direction -> Z;
  dir_X : direction;
  dir_Y : direction;
  dir_Z : direction;
  E_stuff : field_type;
  D_stuff : field_type;
  B_stuff : field_type;
  is_electric : component -> bool;
  is_magnetic : component -> bool;
  component_direction : component -> direction;
  direction_component : component -> direction -> component;
  cycle_direction : ndim -> direction -> Z -> direction;
  field_type_component : field_type -> component -> component;
  (* the components visited by FOR_COMPONENTS(c), in order *)
  FOR_COMPONENTS : list component;
  (* the directions visited by FOR_DIRECTIONS(d), in order *)
  FOR_DIRECTIONS : list direction;
  (* the components visited by FOR_FT_COMPONENTS(ft, c), in order *)
  FOR_FT_COMPONENTS : field_type -> list component;
  pi : R;
  (* one standard normal deviate of the generator, and its next state *)
  standard_normal : rng_state -> R * rng_state;
  FOR_COMPONENTS_once : nodupb component_eq_dec FOR_COMPONENTS = true;
  X_value : direction_value dir_X = 0%Z;
  Y_value : direction_value dir_Y = 1%Z;
  Z_value : direction_value dir_Z = 2%Z
}.

(** DOCMP2: [for (int cmp = 0; cmp < 2; ++cmp)] *)
Definition DOCMP2 : list nat := [0%nat; 1%nat].

Section Susceptibility.

Context {H : MeepHeader}.

(** [realnum *W[NUM_FIELD_COMPONENTS][2]] *)
Definition field_table : Type := component -> nat -> ptr.

(** [t[c][cmp] = a] *)
Definition set_entry (t : field_table) (c : component) (cmp : nat) (a : ptr)
  : field_table :=
  fun c' cmp' =>
    if component_eq_dec c' c
    then (if Nat.eqb cmp' cmp then a else t c' cmp')
    else t c' cmp'.

(** The part of [grid_volume] that the updates read: [gv.dim],
    [gv.stride(d)], [gv.ntot()], and the indices [i] that
    LOOP_OVER_VOL_OWNED(gv, c, i) visits, in order. *)
Record grid_volume : Type := {
  dim : ndim;
  stride : direction -> Z;
  gv_ntot : nat;
  owned : component -> list Z
}.

(** The members of [class susceptibility] (the chain link [next] is not
    read by any function here). *)
Record susceptibility : Type := {
  get_id : Z;
  sigma : component -> direction -> ptr;
  trivial_sigma : component -> direction -> bool
}.

(** [susceptibility::needs_P]; the early [return true] ends the loop. *)
Fixpoint needs_P_loop (sus : susceptibility) (c : component) (cmp : nat)
  (W : field_table) (ds : list direction) : bool :=
  match ds with
  | [] => false
  | d :: ds' =>
      if (negb (trivial_sigma sus c d)
          && non_null (W (direction_component c d) cmp))%bool
      then true
      else needs_P_loop sus c cmp W ds'
  end.

Definition needs_P (sus : susceptibility) (c : component) (cmp : nat)
  (W : field_table) : bool :=
  if (negb (is_electric c) && negb (is_magnetic c))%bool then false
  else needs_P_loop sus c cmp W FOR_DIRECTIONS.

(** [susceptibility::needs_W_notowned]; [d != component_direction(c)]
    compares the enumerators' values. *)
Fixpoint needs_W_notowned_loop (sus : susceptibility) (c : component)
  (W : field_table) (ds : list direction) : bool :=
  match ds with
  | [] => false
  | d :: ds' =>
      if negb (Z.eqb (direction_value d)
                     (direction_value (component_direction c)))
      then
        let cP := direction_component c d in
        if (needs_P sus cP 0%nat W
            && negb (trivial_sigma sus cP (component_direction c)))%bool
        then true
        else needs_W_notowned_loop sus c W ds'
      else needs_W_notowned_loop sus c W ds'
  end.

Definition needs_W_notowned (sus : susceptibility) (c : component)
  (W : field_table) : bool :=
  needs_W_notowned_loop sus c W FOR_DIRECTIONS.

(* ================================================================== *)
(** ** Lorentzian susceptibility *)

(** [lorentzian_data]: [P] and [P_prev] point into the blob's [data];
    [sz_data], the byte size of the blob, is left out. *)
Record lorentzian_data : Type := {
  ntot : nat;
  P : field_table;
  P_prev : field_table
}.

Record lorentzian_susceptibility : Type := {
  lorentzian_base :> susceptibility;
  omega_0 : R;
  gamma : R;
  no_omega_0_denominator : bool
}.

Definition zeros : array := fun _ => 0.

(** [new_internal_data] followed by [init_internal_data]: the blob is
    zeroed, and each needed entry gets its two buffers. *)
Definition init_internal_data (sus : susceptibility) (W : field_table)
  (gv : grid_volume) : lorentzian_data :=
  fold_left
    (fun d c =>
       fold_left
         (fun d cmp =>
            if needs_P sus c cmp W
            then {| ntot := ntot d;
                    P := set_entry (P d) c cmp (Some zeros);
                    P_prev := set_entry (P_prev d) c cmp (Some zeros) |}
            else d)
         DOCMP2 d)
    FOR_COMPONENTS
    {| ntot := gv_ntot gv; P := fun _ _ => None; P_prev := fun _ _ => None |}.

(** [#define OFFDIAG(u, g, sx, s)], at the loop index [i]. *)
Definition OFFDIAG (u g : array) (sx s : Z) (i : Z) : R :=
  0.25 * ((g i + g (i - sx)%Z) * u i
          + (g (i + s)%Z + g ((i + s) - sx)%Z) * u (i + s)%Z).

(** One candidate off-diagonal direction of [update_P]: its stride
    [is1], its field [w1] and its sigma [s1]. *)
Record offdiag : Type := {
  od_stride : Z;
  od_w : ptr;
  od_s : ptr
}.

(** FOR_COMPONENTS(c) DOCMP2 { body } *)
Definition for_components_docmp2 {S : Type}
  (body : component -> nat -> S -> result S) (s : S) : result S :=
  fold_res (fun s c => fold_res (fun s cmp => body c cmp s) DOCMP2 s)
           FOR_COMPONENTS s.

Section LorentzianUpdate.

Variable sus : lorentzian_susceptibility.
Variable dt : R.

Definition omega2pi : R := 2 * pi * omega_0 sus.
Definition g2pi : R := gamma sus * 2 * pi.
Definition omega0dtsqr : R := omega2pi * omega2pi * dt * dt.
Definition gamma1inv : R := 1 / (1 + g2pi * dt / 2).
Definition gamma1 : R := 1 - g2pi * dt / 2.
Definition omega0dtsqr_denom : R :=
  if no_omega_0_denominator sus then 0 else omega0dtsqr.

(** The loops run on the local pointers [p] (non-NULL, it was tested)
    and [pp]; [is_] stands for the stride [is]. *)
Definition loop_state : Type := (array * ptr)%type.

(** Body of the 3x3 anisotropic loop. *)
Definition body_3x3 (s w : array) (is_ : Z) (s1 : array) (w1 : ptr) (is1 : Z)
  (s2 : array) (w2 : ptr) (is2 : Z) (st : loop_state) (i : Z)
  : result loop_state :=
  let (p, pp) := st in
  if Req_dec_T (s i) 0 then Ok (p, pp)
  else
    ppa <- deref pp ;;
    w1a <- deref w1 ;;
    w2a <- deref w2 ;;
    let pcur := p i in
    let p' := upd p i
      (gamma1inv * (pcur * (2 - omega0dtsqr_denom) - gamma1 * ppa i
                    + omega0dtsqr * (s i * w i + OFFDIAG s1 w1a is1 is_ i
                                     + OFFDIAG s2 w2a is2 is_ i))) in
    Ok (p', Some (upd ppa i pcur)).

(** Body of the 2x2 anisotropic loop. *)
Definition body_2x2 (s w : array) (is_ : Z) (s1 : array) (w1 : ptr) (is1 : Z)
  (st : loop_state) (i : Z) : result loop_state :=
  let (p, pp) := st in
  if Req_dec_T (s i) 0 then Ok (p, pp)
  else
    ppa <- deref pp ;;
    w1a <- deref w1 ;;
    let pcur := p i in
    let p' := upd p i
      (gamma1inv * (pcur * (2 - omega0dtsqr_denom) - gamma1 * ppa i
                    + omega0dtsqr * (s i * w i + OFFDIAG s1 w1a is1 is_ i))) in
    Ok (p', Some (upd ppa i pcur)).

(** Body of the isotropic loop. *)
Definition body_iso (s w : array) (st : loop_state) (i : Z)
  : result loop_state :=
  let (p, pp) := st in
  ppa <- deref pp ;;
  let pcur := p i in
  let p' := upd p i
    (gamma1inv * (pcur * (2 - omega0dtsqr_denom) - gamma1 * ppa i
                  + omega0dtsqr * (s i * w i))) in
  Ok (p', Some (upd ppa i pcur)).

(** The SWAP that makes [s1] the non-NULL one if possible, and the
    choice of the loop; [k1], [k2] are the two candidate directions and
    [l] the indices of LOOP_OVER_VOL_OWNED. *)
Definition lorentzian_branches (s w : array) (is_ : Z) (k1 k2 : offdiag)
  (l : list Z) (st : loop_state) : result loop_state :=
  let (k1, k2) :=
    if (non_null (od_s k2) && negb (non_null (od_s k1)))%bool
    then (k2, k1) else (k1, k2) in
  match od_s k1, od_s k2 with
  | Some s1, Some s2 =>
      fold_res (body_3x3 s w is_ s1 (od_w k1) (od_stride k1)
                         s2 (od_w k2) (od_stride k2)) l st
  | Some s1, None =>
      fold_res (body_2x2 s w is_ s1 (od_w k1) (od_stride k1)) l st
  | None, _ =>
      fold_res (body_iso s w) l st
  end.

(** The candidate direction [cycle_direction(gv.dim, d, shift)] of the
    component [c]: [s1 = w1 ? sigma[c][d1] : NULL]. *)
Definition candidate (W : field_table) (gv : grid_volume) (c : component)
  (cmp : nat) (shift : Z) : offdiag :=
  let d := component_direction c in
  let d1 := cycle_direction (dim gv) d shift in
  let c1 := direction_component c d1 in
  let is1 := (stride gv d1 * (if is_magnetic c then -1 else 1))%Z in
  let w1 := W c1 cmp in
  let s1 := if non_null w1 then sigma sus c d1 else None in
  {| od_stride := is1; od_w := w1; od_s := s1 |}.

(** The body of FOR_COMPONENTS(c) DOCMP2 in [update_P]. *)
Definition lorentzian_update_component (W : field_table) (gv : grid_volume)
  (c : component) (cmp : nat) (d : lorentzian_data) : result lorentzian_data :=
  match P d c cmp with
  | None => Ok d
  | Some p =>
      match W c cmp, sigma sus c (component_direction c) with
      | Some w, Some s =>
          let pp := P_prev d c cmp in
          let d0 := component_direction c in
          let is_ := (stride gv d0 * (if is_magnetic c then -1 else 1))%Z in
          st <- lorentzian_branches s w is_
                  (candidate W gv c cmp 1) (candidate W gv c cmp 2)
                  (owned gv c) (p, pp) ;;
          Ok {| ntot := ntot d;
                P := set_entry (P d) c cmp (Some (fst st));
                P_prev := set_entry (P_prev d) c cmp (snd st) |}
      | _, _ => Ok d
      end
  end.

(** [lorentzian_susceptibility::update_P]; [W_prev] is unused. *)
Definition lorentzian_update_P (W W_prev : field_table) (gv : grid_volume)
  (P_internal_data : option lorentzian_data) : result lorentzian_data :=
  d <- deref P_internal_data ;;
  for_components_docmp2 (lorentzian_update_component W gv) d.

End LorentzianUpdate.

(** [lorentzian_susceptibility::subtract_P] *)
Definition subtract_P (ft : field_type) (f_minus_p : field_table)
  (P_internal_data : option lorentzian_data) : result field_table :=
  d <- deref P_internal_data ;;
  let ft2 := if field_type_eq_dec ft E_stuff then D_stuff else B_stuff in
  let ntot := ntot d in
  fold_res
    (fun fmp ec =>
       fold_res
         (fun fmp cmp =>
            match P d ec cmp with
            | None => Ok fmp
            | Some p =>
                let dc := field_type_component ft2 ec in
                match fmp dc cmp with
                | None => Ok fmp
                | Some a =>
                    Ok (set_entry fmp dc cmp
                          (Some (fold_left (fun a i => sub_at a i (p i))
                                           (map Z.of_nat (seq 0 ntot)) a)))
                end
            end)
         DOCMP2 fmp)
    (FOR_FT_COMPONENTS ft) f_minus_p.

(** [lorentzian_susceptibility::num_cinternal_notowned_needed] *)
Definition num_cinternal_notowned_needed (c : component)
  (P_internal_data : option lorentzian_data) : result Z :=
  d <- deref P_internal_data ;;
  Ok (if non_null (P d c 0%nat) then 1%Z else 0%Z).

(** [lorentzian_susceptibility::cinternal_notowned_ptr]; the pointer
    [d->P[c][cmp] + n] is the buffer seen from offset [n]. *)
Definition cinternal_notowned_ptr (inotowned : Z) (c : component) (cmp : nat)
  (n : Z) (P_internal_data : option lorentzian_data) : ptr :=
  match P_internal_data with
  | None => None
  | Some d =>
      match P d c cmp with
      | None => None
      | Some a => Some (fun j => a (n + j)%Z)
      end
  end.

(** Modelled from the spec: [h5file::write_chunk(1, start, dims, data)]
    is defined with the checkpoint files, which are not among the
    sources.  The spec has the records "written sequentially into a
    chunked numeric-array stream": a file is the list of the chunks
    written so far, each with its start offset. *)
Definition h5file : Type := list (Z * list R).

Definition write_chunk (h5f : h5file) (start : Z) (dims : nat) (data : list R)
  : h5file :=
  h5f ++ [(start, firstn dims data)].

Definition double_of_bool (b : bool) : R := if b then 1 else 0.

(** [lorentzian_susceptibility::dump_params]; returns the file and
    [*start]. *)
Definition lorentzian_dump_params (sus : lorentzian_susceptibility)
  (h5f : h5file) (start : Z) : h5file * Z :=
  let num_params := 5%nat in
  let params_data :=
    [4; IZR (get_id sus); omega_0 sus; gamma sus;
     double_of_bool (no_omega_0_denominator sus)] in
  (write_chunk h5f start num_params params_data,
   (start + Z.of_nat num_params)%Z).

(* ================================================================== *)
(** ** Noisy Lorentzian susceptibility *)

Record noisy_lorentzian_susceptibility : Type := {
  noisy_base :> lorentzian_susceptibility;
  noise_amp : R
}.

(** Modelled from the spec: [gaussian_random(mean, stddev)] is defined
    with the random source, which is not among the sources.  The spec
    has "a normally-distributed random increment with mean 0 and
    standard deviation amplitude * sqrt(sigma)", drawn from an external
    generator: a deviate of mean [m] and standard deviation [s] is
    [m + s * z] for a standard normal deviate [z]. *)
Definition gaussian_random (mean stddev : R) (g : rng_state)
  : R * rng_state :=
  let (z, g') := standard_normal g in
  (mean + stddev * z, g').

Section NoisyUpdate.

Variable sus : noisy_lorentzian_susceptibility.
Variable dt : R.

Definition w2pi : R := omega_0 sus * 2 * pi.

(** [amp].  The buffers hold real numbers: where the double is not
    one, for a negative [g2pi] (the root) or a zero denominator, there
    is no value. *)
Definition noisy_amp : option R :=
  if Rle_dec 0 (g2pi sus) then
    if Req_dec_T (1 + g2pi sus * dt / 2) 0 then None
    else Some (w2pi * noise_amp sus * sqrt (g2pi sus) * dt * dt
               / (1 + g2pi sus * dt / 2))
  else None.

(** [p[i] += gaussian_random(0, amp * sqrt(s[i]))]; the standard
    deviation is not a number when [amp] is not or [s[i]] is negative,
    and then what is stored is not one either. *)
Definition noise_body (s : array) (st : array * rng_state) (i : Z)
  : result (array * rng_state) :=
  let (p, g) := st in
  match noisy_amp with
  | Some amp =>
      if Rle_dec 0 (s i) then
        let (z, g') := gaussian_random 0 (amp * sqrt (s i)) g in
        Ok (add_at p i z, g')
      else Fault NotANumber
  | None => Fault NotANumber
  end.

(** The body of the second FOR_COMPONENTS(c) DOCMP2 of the noisy
    [update_P]. *)
Definition noisy_component (gv : grid_volume) (c : component) (cmp : nat)
  (st : lorentzian_data * rng_state) : result (lorentzian_data * rng_state) :=
  let (d, g) := st in
  match P d c cmp with
  | None => Ok (d, g)
  | Some p =>
      match sigma sus c (component_direction c) with
      | None => Ok (d, g)
      | Some s =>
          st' <- fold_res (noise_body s) (owned gv c) (p, g) ;;
          Ok ({| ntot := ntot d;
                 P := set_entry (P d) c cmp (Some (fst st'));
                 P_prev := P_prev d |}, snd st')
      end
  end.

(** [noisy_lorentzian_susceptibility::update_P]; the generator's state
    goes in and comes out. *)
Definition noisy_update_P (W W_prev : field_table) (gv : grid_volume)
  (P_internal_data : option lorentzian_data) (g : rng_state)
  : result (lorentzian_data * rng_state) :=
  d <- lorentzian_update_P sus dt W W_prev gv P_internal_data ;;
  for_components_docmp2 (noisy_component gv) (d, g).

End NoisyUpdate.

(** [noisy_lorentzian_susceptibility::dump_params] *)
Definition noisy_dump_params (sus : noisy_lorentzian_susceptibility)
  (h5f : h5file) (start : Z) : h5file * Z :=
  let num_params := 6%nat in
  let params_data :=
    [5; IZR (get_id sus); noise_amp sus; omega_0 sus; gamma sus;
     double_of_bool (no_omega_0_denominator sus)] in
  (write_chunk h5f start num_params params_data,
   (start + Z.of_nat num_params)%Z).

(* ================================================================== *)
(** ** Gyrotropic susceptibility *)

(** Modelled from the spec: [vec], [abs(vec)] and [vec / double] are
    declared in vec.hpp, which is not among the sources.  The spec calls
    the tensor entries "unit-bias-component", so [bias / |bias|] is the
    Euclidean normalisation of a vector of three coordinates. *)
Record vec : Type := {
  vec_x : R;
  vec_y : R;
  vec_z : R
}.

Definition vec_abs (v : vec) : R :=
  sqrt (vec_x v * vec_x v + vec_y v * vec_y v + vec_z v * vec_z v).

Definition vec_div (v : vec) (s : R) : vec :=
  {| vec_x := vec_x v / s; vec_y := vec_y v / s; vec_z := vec_z v / s |}.

Record gyrotropic_susceptibility : Type := {
  gyro_base :> lorentzian_susceptibility;
  gyro_tensor : mat3;
  alpha : R
}.

Definition iX : Z := direction_value dir_X.
Definition iY : Z := direction_value dir_Y.
Definition iZ : Z := direction_value dir_Z.

(** The [memset] and the six assignments of the constructor, for the
    normalised bias [bn]. *)
Definition skew_tensor (bn : vec) : mat3 :=
  let t := mat3_zero in
  let t := mat3_set t iX iY (vec_z bn) in
  let t := mat3_set t iY iX (- vec_z bn) in
  let t := mat3_set t iY iZ (vec_x bn) in
  let t := mat3_set t iZ iY (- vec_x bn) in
  let t := mat3_set t iZ iX (vec_y bn) in
  let t := mat3_set t iX iZ (- vec_y bn) in
  t.

(** [gyrotropic_susceptibility::gyrotropic_susceptibility]; the base
    class' constructor (identifier, empty sigma) is in the header, its
    result is the argument [base]. *)
Definition gyrotropic_ctor (base : susceptibility) (bias : vec)
  (alpha omega_0 gamma : R) : gyrotropic_susceptibility :=
  let bn := vec_div bias (Rmax (vec_abs bias) 1e-10) in
  {| gyro_base := {| lorentzian_base := base;
                     omega_0 := omega_0;
                     gamma := gamma;
                     no_omega_0_denominator := false |};
     gyro_tensor := skew_tensor bn;
     alpha := alpha |}.

(** The 3x3 inversion of [update_P], "exploiting skew symmetry". *)
Definition gyro_inverse (ub vb : R) (gyro_tensor : mat3) : mat3 :=
  let gx := vb * gyro_tensor iY iZ in
  let gy := vb * gyro_tensor iZ iX in
  let gz := vb * gyro_tensor iX iY in
  let invdet := 1 / ub / (ub * ub + gx * gx + gy * gy + gz * gz) in
  let inv := mat3_zero in
  let inv := mat3_set inv iX iX (invdet * (ub * ub + gx * gx)) in
  let inv := mat3_set inv iY iY (invdet * (ub * ub + gy * gy)) in
  let inv := mat3_set inv iZ iZ (invdet * (ub * ub + gz * gz)) in
  let inv := mat3_set inv iX iY (invdet * (gx * gy - ub * gz)) in
  let inv := mat3_set inv iY iX (invdet * (gy * gx + ub * gz)) in
  let inv := mat3_set inv iZ iX (invdet * (gz * gx - ub * gy)) in
  let inv := mat3_set inv iX iZ (invdet * (gx * gz + ub * gy)) in
  let inv := mat3_set inv iY iZ (invdet * (gy * gz - ub * gx)) in
  let inv := mat3_set inv iZ iY (invdet * (gz * gy + ub * gx)) in
  inv.

(** [d0 != X && d0 != Y && d0 != Z], on the enumerators' values. *)
Definition not_cartesian (d0 : direction) : bool :=
  (negb (Z.eqb (direction_value d0) iX)
   && negb (Z.eqb (direction_value d0) iY)
   && negb (Z.eqb (direction_value d0) iZ))%bool.

Section GyrotropicUpdate.

Variable sus : gyrotropic_susceptibility.
Variable dt : R.

Definition alpha2pi : R := 2 * pi * alpha sus.
Definition ua : R := 1 - 0.5 * g2pi sus * dt.
Definition va : R := alpha2pi - 0.5 * omega2pi sus * dt.
Definition ub : R := 1 + 0.5 * g2pi sus * dt.
Definition vb : R := alpha2pi + 0.5 * omega2pi sus * dt.

(** Body of the loop of the first pass, on the local pointer [pp]. *)
Definition gyro_body1 (p : array) (p1 p2 w1 w2 s1 s2 : ptr)
  (vab1 vab2 ndt1 ndt2 : R) (pp : ptr) (i : Z) : result ptr :=
  ppa <- deref pp ;;
  let ppa := upd ppa i (ua * p i) in
  let ppa := match p1 with
             | Some p1a => add_at ppa i (vab1 * p1a i)
             | None => ppa
             end in
  let ppa := match p2 with
             | Some p2a => add_at ppa i (vab2 * p2a i)
             | None => ppa
             end in
  ppa <- match w1 with
         | Some w1a => s1a <- deref s1 ;; Ok (add_at ppa i (ndt1 * s1a i * w1a i))
         | None => Ok ppa
         end ;;
  ppa <- match w2 with
         | Some w2a => s2a <- deref s2 ;; Ok (add_at ppa i (ndt2 * s2a i * w2a i))
         | None => Ok ppa
         end ;;
  Ok (Some ppa).

(** The body of the first FOR_COMPONENTS(c) DOCMP2. *)
Definition gyro_pass1_component (W : field_table) (gv : grid_volume)
  (c : component) (cmp : nat) (d : lorentzian_data) : result lorentzian_data :=
  match P d c cmp with
  | None => Ok d
  | Some p =>
      let d0 := component_direction c in
      match W c cmp with
      | None => Ok d
      | Some w =>
          if not_cartesian d0 then Fault Aborted
          else
            let pp := P_prev d c cmp in
            let d1 := cycle_direction (dim gv) d0 1 in
            let d2 := cycle_direction (dim gv) d0 2 in
            let c1 := direction_component c d1 in
            let c2 := direction_component c d2 in
            let w1 := W c1 cmp in
            let w2 := W c2 cmp in
            let s1 := if non_null w1 then sigma sus c1 d1 else None in
            let s2 := if non_null w2 then sigma sus c2 d2 else None in
            let p1 := P d c1 cmp in
            let p2 := P d c2 cmp in
            t1 <- mat3_get (gyro_tensor sus)
                    (direction_value d0) (direction_value d1) ;;
            t2 <- mat3_get (gyro_tensor sus)
                    (direction_value d0) (direction_value d2) ;;
            let vab1 := va * t1 in
            let vab2 := va * t2 in
            let ndt1 := 2 * pi * dt * t1 in
            let ndt2 := 2 * pi * dt * t2 in
            pp' <- fold_res (gyro_body1 p p1 p2 w1 w2 s1 s2 vab1 vab2 ndt1 ndt2)
                     (owned gv c) pp ;;
            Ok {| ntot := ntot d;
                  P := P d;
                  P_prev := set_entry (P_prev d) c cmp pp' |}
      end
  end.

(** Body of the loop of the second pass, on the local pointer [p]. *)
Definition gyro_body2 (inv : mat3) (d0 d1 d2 : direction) (pp pp1 pp2 : ptr)
  (p : array) (i : Z) : result array :=
  ppa <- deref pp ;;
  a0 <- mat3_get inv (direction_value d0) (direction_value d0) ;;
  let p := upd p i (a0 * ppa i) in
  p <- match pp1 with
       | Some pp1a =>
           a1 <- mat3_get inv (direction_value d0) (direction_value d1) ;;
           Ok (add_at p i (a1 * pp1a i))
       | None => Ok p
       end ;;
  p <- match pp2 with
       | Some pp2a =>
           a2 <- mat3_get inv (direction_value d0) (direction_value d2) ;;
           Ok (add_at p i (a2 * pp2a i))
       | None => Ok p
       end ;;
  Ok p.

(** The body of the second FOR_COMPONENTS(c) DOCMP2. *)
Definition gyro_pass2_component (W : field_table) (gv : grid_volume)
  (c : component) (cmp : nat) (d : lorentzian_data) : result lorentzian_data :=
  match P d c cmp with
  | None => Ok d
  | Some p =>
      let d0 := component_direction c in
      if (non_null (W c cmp) && non_null (sigma sus c d0))%bool then
        let pp := P_prev d c cmp in
        let d1 := cycle_direction (dim gv) d0 1 in
        let d2 := cycle_direction (dim gv) d0 2 in
        let c1 := direction_component c d1 in
        let c2 := direction_component c d2 in
        let pp1 := if non_null (W c1 cmp) then P_prev d c1 cmp else None in
        let pp2 := if non_null (W c2 cmp) then P_prev d c2 cmp else None in
        p' <- fold_res
                (gyro_body2 (gyro_inverse ub vb (gyro_tensor sus))
                            d0 d1 d2 pp pp1 pp2)
                (owned gv c) p ;;
        Ok {| ntot := ntot d;
              P := set_entry (P d) c cmp (Some p');
              P_prev := P_prev d |}
      else Ok d
  end.

(** [gyrotropic_susceptibility::update_P]; [W_prev] is unused. *)
Definition gyrotropic_update_P (W W_prev : field_table) (gv : grid_volume)
  (P_internal_data : option lorentzian_data) : result lorentzian_data :=
  d <- deref P_internal_data ;;
  d <- for_components_docmp2 (gyro_pass1_component W gv) d ;;
  for_components_docmp2 (gyro_pass2_component W gv) d.

End GyrotropicUpdate.

(** [gyrotropic_susceptibility::dump_params]; the local array [bias] is
    indexed with [X], [Y], [Z]. *)
Definition gyrotropic_dump_params (sus : gyrotropic_susceptibility)
  (h5f : h5file) (start : Z) : h5file * Z :=
  let num_params := 9%nat in
  let bias := [gyro_tensor sus iY iZ; gyro_tensor sus iZ iX;
               gyro_tensor sus iX iY] in
  let at_ (d : Z) := nth (Z.to_nat d) bias 0 in
  let params_data :=
    [8; IZR (get_id sus); at_ iX; at_ iY; at_ iZ;
     alpha sus; omega_0 sus; gamma sus;
     double_of_bool (no_omega_0_denominator sus)] in
  (write_chunk h5f start num_params params_data,
   (start + Z.of_nat num_params)%Z).

(* ================================================================== *)
(** ** The stability test *)

(** The locals [b] and [c] of [lorentzian_unstable]. *)
Definition unstable_b (omega_0 gamma dt : R) : R :=
  let w := 2 * pi * omega_0 in
  let g := 2 * pi * gamma in
  let g2 := g * dt / 2 in
  let w2 := (w * dt) * (w * dt) in
  (1 - w2 / 2) / (1 + g2).

Definition unstable_c (gamma dt : R) : R :=
  let g := 2 * pi * gamma in
  let g2 := g * dt / 2 in
  (1 - g2) / (1 + g2).

(** [lorentzian_unstable]; the [&&] does not evaluate the square root
    when [b * b > c] is false. *)
Definition lorentzian_unstable (omega_0 gamma dt : R) : bool :=
  let b := unstable_b omega_0 gamma dt in
  let c := unstable_c gamma dt in
  if Rlt_dec c (b * b)
  then (if Rlt_dec 1 (2 * b * b - c + 2 * Rabs b * sqrt (b * b - c))
        then true else false)
  else false.

(* ================================================================== *)
(** ** The blob of the Lorentzian data as it is laid out

    [new_internal_data] sizes one block for the header and [num]
    realnums of [data]; [init_internal_data] and [copy_internal_data]
    point [P[c][cmp]] and [P_prev[c][cmp]] into [data].  Here a pointer
    into [data] is the address of its block and an offset counted in
    realnums, and [sz_data] is counted in realnums of [data]:
    [sz = sizeof(lorentzian_data) + sizeof(realnum) * (num - 1)] is the
    header and [num] realnums. *)

Definition data_ptr : Type := option (Z * Z).

Definition pointer_table : Type := component -> nat -> data_ptr.

(** [t[c][cmp] = a] *)
Definition set_pointer (t : pointer_table) (c : component) (cmp : nat)
  (a : data_ptr) : pointer_table :=
  fun c' cmp' =>
    if component_eq_dec c' c
    then (if Nat.eqb cmp' cmp then a else t c' cmp')
    else t c' cmp'.

Record blob : Type := {
  blob_sz_data : Z;
  blob_ntot : nat;
  blob_P : pointer_table;
  blob_P_prev : pointer_table;
  blob_data : array
}.

(** The value that an [int] takes from a wider integer (two's
    complement, 32 bits). *)
Definition to_int (z : Z) : Z := ((z + 2 ^ 31) mod 2 ^ 32 - 2 ^ 31)%Z.

(** [lorentzian_susceptibility::new_internal_data]: the count [num] of
    the realnums that the block is allocated for; [num] is an [int]
    and [2 * gv.ntot()] a [size_t]. *)
Definition new_internal_data (sus : susceptibility) (W : field_table)
  (gv : grid_volume) : Z :=
  fold_left
    (fun num c =>
       fold_left
         (fun num cmp =>
            if needs_P sus c cmp W
            then to_int (num + 2 * Z.of_nat (gv_ntot gv))
            else num)
         DOCMP2 num)
    FOR_COMPONENTS 0%Z.

(** The loop that [init_internal_data] and [copy_internal_data] share:
    the running pointers [P] and [P_prev] start at [data] and
    [data + ntot], and each entry that is wanted takes them and moves
    both by [2 * ntot]. *)
Definition lay_out_step (block : Z) (ntot : nat)
  (wanted : component -> nat -> bool) (c : component) (cmp : nat)
  (st : pointer_table * pointer_table * Z * Z)
  : pointer_table * pointer_table * Z * Z :=
  let '(tP, tPP, P, P_prev) := st in
  if wanted c cmp
  then (set_pointer tP c cmp (Some (block, P)),
        set_pointer tPP c cmp (Some (block, P_prev)),
        (P + 2 * Z.of_nat ntot)%Z, (P_prev + 2 * Z.of_nat ntot)%Z)
  else st.

Definition lay_out (block : Z) (ntot : nat)
  (wanted : component -> nat -> bool) (tP tPP : pointer_table)
  : pointer_table * pointer_table * Z * Z :=
  fold_left
    (fun st c =>
       fold_left (fun st cmp => lay_out_step block ntot wanted c cmp st)
                 DOCMP2 st)
    FOR_COMPONENTS (tP, tPP, 0%Z, Z.of_nat ntot).

(** [lorentzian_susceptibility::init_internal_data] on the block at
    [block] whose [sz_data] is [sz]: the [memset] clears the tables and
    the data, then the wanted entries are pointed into [data]. *)
Definition init_internal_data_blob (sus : susceptibility) (W : field_table)
  (gv : grid_volume) (block : Z) (sz : Z) : blob :=
  let st := lay_out block (gv_ntot gv) (fun c cmp => needs_P sus c cmp W)
              (fun _ _ => None) (fun _ _ => None) in
  {| blob_sz_data := sz;
     blob_ntot := gv_ntot gv;
     blob_P := fst (fst (fst st));
     blob_P_prev := snd (fst (fst st));
     blob_data := zeros |}.

(** [lorentzian_susceptibility::copy_internal_data] into a new block at
    [dnew]: the [memcpy] brings the header, the tables and the
    [sz_data] realnums of data; then every entry whose [P] is there in
    the source is pointed into the new [data]. *)
Definition copy_internal_data (dnew : Z) (data : option blob) : option blob :=
  match data with
  | None => None
  | Some d =>
      let st := lay_out dnew (blob_ntot d)
                  (fun c cmp => non_null (blob_P d c cmp))
                  (blob_P d) (blob_P_prev d) in
      Some {| blob_sz_data := blob_sz_data d;
              blob_ntot := blob_ntot d;
              blob_P := fst (fst (fst st));
              blob_P_prev := snd (fst (fst st));
              blob_data := fun j =>
                if (Z.leb 0 j && Z.ltb j (blob_sz_data d))%bool
                then blob_data d j else 0 |}
  end.

End Susceptibility.

(* ================================================================== *)
(** ** The enumerations of Meep, as an instance of the interface

    Modelled from the spec: the headers meep.hpp and vec.hpp are not
    among the sources.  The spec's data model has electric and magnetic
    fields with their flux/displacement partners, "up to three Cartesian
    directions" and cylindrical grids; the instance below is Meep's
    usual enumeration of them, and is used to run the code on concrete
    inputs. *)

Module Meep.

Inductive component : Type :=
| Ex | Ey | Er | Ep | Ez
| Hx | Hy | Hr | Hp | Hz
| Dx | Dy | Dr | Dp | Dz
| Bx | By | Br | Bp | Bz
| Dielectric | Permeability.

Inductive direction : Type :=
| dX | dY | dZ | dR | dP | NO_DIRECTION.

Inductive ndim : Type :=
| D1 | D2 | D3 | Dcyl.

Inductive field_type : Type :=
| E_stuff | H_stuff | D_stuff | B_stuff.

Definition component_eq_dec (a b : component) : {a = b} + {a <> b}.
Proof. decide equality. Defined.

Definition field_type_eq_dec (a b : field_type) : {a = b} + {a <> b}.
Proof. decide equality. Defined.

Definition direction_value (d : direction) : Z :=
  match d with
  | dX => 0 | dY => 1 | dZ => 2 | dR => 3 | dP => 4 | NO_DIRECTION => 5
  end%Z.

Definition direction_of_value (n : Z) : direction :=
  match n with
  | 0 => dX | 1 => dY | 2 => dZ | 3 => dR | 4 => dP | _ => NO_DIRECTION
  end%Z.

Definition type (c : component) : field_type :=
  match c with
  | Ex | Ey | Er | Ep | Ez | Dielectric => E_stuff
  | Hx | Hy | Hr | Hp | Hz | Permeability => H_stuff
  | Dx | Dy | Dr | Dp | Dz => D_stuff
  | Bx | By | Br | Bp | Bz => B_stuff
  end.

Definition is_electric (c : component) : bool :=
  match c with
  | Ex | Ey | Er | Ep | Ez => true
  | _ => false
  end.

Definition is_magnetic (c : component) : bool :=
  match c with
  | Hx | Hy | Hr | Hp | Hz => true
  | _ => false
  end.

Definition component_direction (c : component) : direction :=
  match c with
  | Ex | Hx | Dx | Bx => dX
  | Ey | Hy | Dy | By => dY
  | Ez | Hz | Dz | Bz => dZ
  | Er | Hr | Dr | Br => dR
  | Ep | Hp | Dp | Bp => dP
  | Dielectric | Permeability => NO_DIRECTION
  end.

Definition field_component (ft : field_type) (d : direction) : component :=
  match ft, d with
  | E_stuff, dX => Ex | E_stuff, dY => Ey | E_stuff, dZ => Ez
  | E_stuff, dR => Er | E_stuff, dP => Ep
  | H_stuff, dX => Hx | H_stuff, dY => Hy | H_stuff, dZ => Hz
  | H_stuff, dR => Hr | H_stuff, dP => Hp
  | D_stuff, dX => Dx | D_stuff, dY => Dy | D_stuff, dZ => Dz
  | D_stuff, dR => Dr | D_stuff, dP => Dp
  | B_stuff, dX => Bx | B_stuff, dY => By | B_stuff, dZ => Bz
  | B_stuff, dR => Br | B_stuff, dP => Bp
  | E_stuff, NO_DIRECTION => Dielectric
  | _, NO_DIRECTION => Permeability
  end.

(** The component of the field of [c] along [d]; Meep aborts on the two
    scalar components, which no function here passes. *)
Definition direction_component (c : component) (d : direction) : component :=
  match c with
  | Dielectric | Permeability => c
  | _ => field_component (type c) d
  end.

Definition field_type_component (ft : field_type) (c : component) : component :=
  field_component ft (component_direction c).

(** [(d - start + shift) % 3 + start], with C's remainder. *)
Definition cycle_direction (dim : ndim) (d : direction) (shift : Z) : direction :=
  let start := match dim with Dcyl => 2 | _ => 0 end%Z in
  direction_of_value (Z.rem (direction_value d - start + shift) 3 + start)%Z.

Definition all_field_components : list component :=
  [Ex; Ey; Er; Ep; Ez; Hx; Hy; Hr; Hp; Hz;
   Dx; Dy; Dr; Dp; Dz; Bx; By; Br; Bp; Bz].

Definition all_directions : list direction := [dX; dY; dZ; dR; dP].

Definition components_of (ft : field_type) : list component :=
  filter (fun c => if field_type_eq_dec (type c) ft then true else false)
         all_field_components.

(** The generator, as the stream of the standard normal deviates it
    will deliver. *)
Definition rng_state : Type := nat -> R.

Definition standard_normal (g : rng_state) : R * rng_state :=
  (g 0%nat, fun n => g (S n)).

#[export] Instance header : MeepHeader :=
  Build_MeepHeader
    component direction ndim field_type rng_state
    component_eq_dec field_type_eq_dec
    direction_value dX dY dZ
    E_stuff D_stuff B_stuff
    is_electric is_magnetic
    component_direction direction_component cycle_direction
    field_type_component
    all_field_components all_directions components_of
    PI standard_normal
    eq_refl eq_refl eq_refl eq_refl.

End Meep.

(* ================================================================== *)
(** ** Vocabulary of the statements *)

Section Vocabulary.

Context {H : MeepHeader}.

(** Every allocated [P] has its [P_prev], as [init_internal_data] and
    [copy_internal_data] lay the blob out. *)
Definition wf_data (d : lorentzian_data) : Prop :=
  forall c cmp, P d c cmp <> None -> P_prev d c cmp <> None.

(** The two buffers of an entry of the blob. *)
Definition entry (d : lorentzian_data) (c : component) (cmp : nat)
  : ptr * ptr :=
  (P d c cmp, P_prev d c cmp).

(** Two blobs with equal contents. *)
Definition data_eq (d d' : lorentzian_data) : Prop :=
  ntot d = ntot d'
  /\ forall c cmp, ptr_eq (P d c cmp) (P d' c cmp)
                   /\ ptr_eq (P_prev d c cmp) (P_prev d' c cmp).

(** The right-hand side of the three loops of the Lorentzian
    [update_P], for the current value [pcur], the previous value
    [pprev] and the bracket [f] that multiplies [omega0dtsqr]. *)
Definition lorentzian_step (sus : lorentzian_susceptibility) (dt : R)
  (pcur pprev f : R) : R :=
  gamma1inv sus dt
  * (pcur * (2 - omega0dtsqr_denom sus dt) - gamma1 sus dt * pprev
     + omega0dtsqr sus dt * f).

(** The spec's words, section 4.2 as claim C1 reads it:
    [P_new = (1/g) (P_cur (2 - w0^2 dt^2 k) - g' P_prev + w0^2 dt^2 sigma W)]
    with [g = 1 + gamma pi dt], [g' = 1 - gamma pi dt],
    [w0 = 2 pi omega_0]. *)
Definition leapfrog_closed_form (omega_0 gamma dt kappa : R)
  (P_cur P_prv sigma_W : R) : R :=
  let g := 1 + gamma * pi * dt in
  let g' := 1 - gamma * pi * dt in
  let w0 := 2 * pi * omega_0 in
  (1 / g) * (P_cur * (2 - w0 * w0 * (dt * dt) * kappa) - g' * P_prv
             + w0 * w0 * (dt * dt) * sigma_W).

(** The averaged contribution of a candidate direction, zero when the
    direction does not couple. *)
Definition offdiag_term (k : offdiag) (is_ i : Z) : R :=
  match od_s k, od_w k with
  | Some s1, Some w1 => OFFDIAG s1 w1 (od_stride k) is_ i
  | _, _ => 0
  end.

(** The bracket of the recurrence at the point [i]. *)
Definition forcing (s w : array) (is_ : Z) (k1 k2 : offdiag) (i : Z) : R :=
  s i * w i + offdiag_term k1 is_ i + offdiag_term k2 is_ i.

(** What a loop of the Lorentzian [update_P] does to [(p[i], pp[i])]:
    a guarded loop skips a point of zero sigma. *)
Definition point_rel (sus : lorentzian_susceptibility) (dt : R)
  (guarded : bool) (s : array) (f : Z -> R) (i : Z) (v v' : R * R) : Prop :=
  (guarded = true -> s i = 0 -> v' = v)
  /\ (guarded = false \/ s i <> 0 ->
      v' = (lorentzian_step sus dt (fst v) (snd v) (f i), fst v)).

(** What the local pointers of a loop hold at the point [j]. *)
Definition get_point (st : array * ptr) (j : Z) : R * R :=
  (fst st j, match snd st with Some a => a j | None => 0 end).

(** A candidate direction as [update_P] builds it: no sigma without a
    field. *)
Definition masked (k : offdiag) : Prop := od_s k <> None -> od_w k <> None.

(** The stride [is] of a component. *)
Definition comp_stride (gv : grid_volume) (c : component) : Z :=
  (stride gv (component_direction c) * (if is_magnetic c then -1 else 1))%Z.

(** One of the two candidate directions of [c] couples: [update_P]
    leaves the isotropic loop. *)
Definition anisotropic (sus : lorentzian_susceptibility) (W : field_table)
  (gv : grid_volume) (c : component) (cmp : nat) : bool :=
  (non_null (od_s (candidate sus W gv c cmp 1))
   || non_null (od_s (candidate sus W gv c cmp 2)))%bool.

(** The bracket of the recurrence for the component [c]: [sigma * W] at
    the point plus the averaged off-diagonal terms. *)
Definition W_eff (sus : lorentzian_susceptibility) (W : field_table)
  (gv : grid_volume) (c : component) (cmp : nat) (s w : array) (i : Z) : R :=
  forcing s w (comp_stride gv c)
    (candidate sus W gv c cmp 1) (candidate sus W gv c cmp 2) i.

(** What a pointer holds at the point [j]. *)
Definition ptr_at (a : ptr) (j : Z) : R :=
  match a with
  | Some f => f j
  | None => 0
  end.

Definition zero_bias : vec := {| vec_x := 0; vec_y := 0; vec_z := 0 |}.

(** What the gyrotropic [update_P] needs in order not to fault on the
    component [c]: its direction is Cartesian, the two cycled
    directions are other directions that index the 3x3 tensor, and each
    transverse field that is there has the sigma that the first pass
    reads. *)
Definition gyro_ready (sus : susceptibility) (W : field_table)
  (gv : grid_volume) (c : component) (cmp : nat) : Prop :=
  let d0 := component_direction c in
  let d1 := cycle_direction (dim gv) d0 1 in
  let d2 := cycle_direction (dim gv) d0 2 in
  not_cartesian d0 = false
  /\ in_range3 (direction_value d1) = true
  /\ in_range3 (direction_value d2) = true
  /\ direction_value d1 <> direction_value d0
  /\ direction_value d2 <> direction_value d0
  /\ (W (direction_component c d1) cmp <> None ->
      sigma sus (direction_component c d1) d1 <> None)
  /\ (W (direction_component c d2) cmp <> None ->
      sigma sus (direction_component c d2) d2 <> None).

(** 3x3 matrices over the indices 0, 1, 2. *)
Definition mat3_mul (a b : mat3) : mat3 :=
  fun i j => a i 0%Z * b 0%Z j + a i 1%Z * b 1%Z j + a i 2%Z * b 2%Z j.

Definition mat3_id : mat3 := fun i j => if Z.eqb i j then 1 else 0.

(** The spec's words, section 4.4: the system matrix
    [I (1 + gamma pi dt) - tensor (alpha + omega pi dt)], that is
    [ub I - G] for [G = vb * gyro_tensor]. *)
Definition spec_system_matrix (ub vb : R) (gyro_tensor : mat3) : mat3 :=
  fun i j => ub * mat3_id i j - vb * gyro_tensor i j.

(** The matrix that the two passes of the code solve with:
    [ub I + G] for [G = vb * gyro_tensor]. *)
Definition code_system_matrix (ub vb : R) (gyro_tensor : mat3) : mat3 :=
  fun i j => ub * mat3_id i j + vb * gyro_tensor i j.

(** The quadratic equation for a pole [z] of the discretised Lorentzian
    filter, as written in the comment above [lorentzian_unstable], with
    [w = 2*pi*omega_0] and [g = 2*pi*gamma]. *)
Definition pole_equation (omega_0 gamma dt z : R) : Prop :=
  let w := 2 * pi * omega_0 in
  let g := 2 * pi * gamma in
  (z + 1 / z - 2) / (dt * dt) + g * (z - 1 / z) / (2 * dt) + w * w = 0.

(** A complex number [x + i y] is a root of [z^2 - 2 b z + c], with [b]
    and [c] the locals of [lorentzian_unstable]. *)
Definition complex_pole (omega_0 gamma dt x y : R) : Prop :=
  let b := unstable_b omega_0 gamma dt in
  let c := unstable_c gamma dt in
  x * x - y * y - 2 * b * x + c = 0 /\ 2 * x * y - 2 * b * y = 0.

(** The inner loop of [subtract_P]: [for (i = 0; i < ntot; ++i)
    fmp[i] -= p[i]]. *)
Definition subtract_loop (n : nat) (p a : array) : array :=
  fold_left (fun a i => sub_at a i (p i)) (map Z.of_nat (seq 0 n)) a.

(** [ft2] of [subtract_P]. *)
Definition subtract_target (ft : field_type) : field_type :=
  if field_type_eq_dec ft E_stuff then D_stuff else B_stuff.

(** The bias that [dump_params] reads back from a tensor:
    [{ gyro_tensor[Y][Z], gyro_tensor[Z][X], gyro_tensor[X][Y] }]. *)
Definition tensor_bias (t : mat3) : vec :=
  {| vec_x := t iY iZ; vec_y := t iZ iX; vec_z := t iX iY |}.

(** What the first pass of the gyrotropic [update_P] stores in
    [P_prev[c][cmp]] at an owned point [i], read off a blob [d]: a NULL
    [P] or [W] of a transverse component contributes nothing. *)
Definition gyro_drive (sus : gyrotropic_susceptibility) (dt : R)
  (W : field_table) (gv : grid_volume) (d : lorentzian_data)
  (c : component) (k : nat) (i : Z) : R :=
  let d0 := component_direction c in
  let d1 := cycle_direction (dim gv) d0 1 in
  let d2 := cycle_direction (dim gv) d0 2 in
  let c1 := direction_component c d1 in
  let c2 := direction_component c d2 in
  let t1 := gyro_tensor sus (direction_value d0) (direction_value d1) in
  let t2 := gyro_tensor sus (direction_value d0) (direction_value d2) in
  ua sus dt * ptr_at (P d c k) i
  + va sus dt * t1 * ptr_at (P d c1 k) i
  + va sus dt * t2 * ptr_at (P d c2 k) i
  + 2 * pi * dt * t1 * ptr_at (sigma sus c1 d1) i * ptr_at (W c1 k) i
  + 2 * pi * dt * t2 * ptr_at (sigma sus c2 d2) i * ptr_at (W c2 k) i.

(** What the second pass stores in [P[c][cmp]] at an owned point [i],
    read off the blob [d1] that the first pass left. *)
Definition gyro_solve (sus : gyrotropic_susceptibility) (dt : R)
  (W : field_table) (gv : grid_volume) (d1 : lorentzian_data)
  (c : component) (k : nat) (i : Z) : R :=
  let d0 := component_direction c in
  let e1 := cycle_direction (dim gv) d0 1 in
  let e2 := cycle_direction (dim gv) d0 2 in
  let c1 := direction_component c e1 in
  let c2 := direction_component c e2 in
  let inv := gyro_inverse (ub sus dt) (vb sus dt) (gyro_tensor sus) in
  inv (direction_value d0) (direction_value d0) * ptr_at (P_prev d1 c k) i
  + inv (direction_value d0) (direction_value e1)
    * ptr_at (if non_null (W c1 k) then P_prev d1 c1 k else None) i
  + inv (direction_value d0) (direction_value e2)
    * ptr_at (if non_null (W c2 k) then P_prev d1 c2 k else None) i.

(** Three components along three Cartesian directions that
    [cycle_direction] and [direction_component] permute cyclically, as
    Ex, Ey, Ez in three dimensions. *)
Definition cartesian_triple (gv : grid_volume) (c0 c1 c2 : component) : Prop :=
  let d0 := component_direction c0 in
  let d1 := component_direction c1 in
  let d2 := component_direction c2 in
  (cycle_direction (dim gv) d0 1 = d1 /\ cycle_direction (dim gv) d0 2 = d2
   /\ cycle_direction (dim gv) d1 1 = d2 /\ cycle_direction (dim gv) d1 2 = d0
   /\ cycle_direction (dim gv) d2 1 = d0 /\ cycle_direction (dim gv) d2 2 = d1)
  /\ (direction_component c0 d1 = c1 /\ direction_component c0 d2 = c2
      /\ direction_component c1 d2 = c2 /\ direction_component c1 d0 = c0
      /\ direction_component c2 d0 = c0 /\ direction_component c2 d1 = c1)
  /\ (in_range3 (direction_value d0) = true
      /\ in_range3 (direction_value d1) = true
      /\ in_range3 (direction_value d2) = true)
  /\ (direction_value d0 <> direction_value d1
      /\ direction_value d1 <> direction_value d2
      /\ direction_value d0 <> direction_value d2).

(** Reading the realnum [p[j]] through a pointer into the data of a
    blob; nothing is read outside the block. *)
Definition blob_read (b : blob) (p : data_ptr) (j : Z) : option R :=
  match p with
  | Some (_, off) =>
      if (Z.leb 0 (off + j)%Z && Z.ltb (off + j)%Z (blob_sz_data b))%bool
      then Some (blob_data b (off + j)%Z) else None
  | None => None
  end.

(** The entries that the layout loop visits, in order. *)
Definition entries : list (component * nat) :=
  flat_map (fun c => map (pair c) DOCMP2) FOR_COMPONENTS.

(** A blob that [init_internal_data] laid out in the block at [block],
    whatever its data have become since. *)
Definition laid_out (sus : susceptibility) (W : field_table)
  (gv : grid_volume) (block : Z) (b : blob) : Prop :=
  blob_sz_data b = new_internal_data sus W gv
  /\ blob_ntot b = gv_ntot gv
  /\ forall c cmp,
     blob_P b c cmp
     = blob_P (init_internal_data_blob sus W gv block
                 (new_internal_data sus W gv)) c cmp
     /\ blob_P_prev b c cmp
        = blob_P_prev (init_internal_data_blob sus W gv block
                         (new_internal_data sus W gv)) c cmp.

(** The number of entries that [needs_P] asks for. *)
Definition needed_entries (sus : susceptibility) (W : field_table) : nat :=
  length (filter (fun ck => needs_P sus (fst ck) (snd ck) W) entries).

(** One iteration of the layout loop on an entry, and the number of
    wanted entries of a list. *)
Definition entry_step (block : Z) (n : nat)
  (wanted : component -> nat -> bool)
  (st : pointer_table * pointer_table * Z * Z) (ck : component * nat)
  : pointer_table * pointer_table * Z * Z :=
  lay_out_step block n wanted (fst ck) (snd ck) st.

Definition wanted_count (wanted : component -> nat -> bool)
  (l : list (component * nat)) : Z :=
  Z.of_nat (length (filter (fun ck => wanted (fst ck) (snd ck)) l)).

(** The generator after [n] deviates have been drawn from it. *)
Fixpoint advance (n : nat) (g : rng_state) : rng_state :=
  match n with
  | O => g
  | S n' => advance n' (snd (standard_normal g))
  end.

(** The entries to which the noisy [update_P] adds noise: [P] and the
    diagonal sigma are there. *)
Definition noise_active (sus : susceptibility) (d : lorentzian_data)
  (c : component) (k : nat) : bool :=
  (non_null (P d c k)
   && non_null (sigma sus c (component_direction c)))%bool.

(** The number of deviates drawn before the loop over the entries [l]
    reaches the entry [(c, k)]: one for each owned point of each active
    entry that comes first. *)
Fixpoint draws_before (active : component -> nat -> bool) (gv : grid_volume)
  (l : list (component * nat)) (c : component) (k : nat) : nat :=
  match l with
  | [] => 0%nat
  | (c0, k0) :: l' =>
      if component_eq_dec c0 c then
        if Nat.eqb k0 k then 0%nat
        else ((if active c0 k0 then length (owned gv c0) else 0)
              + draws_before active gv l' c k)%nat
      else ((if active c0 k0 then length (owned gv c0) else 0)
            + draws_before active gv l' c k)%nat
  end.

End Vocabulary.

(* ================================================================== *)
(** ** Concrete inputs

    A grid chunk of one owned point, a medium whose sigma is set on
    chosen (component, direction) pairs, fields and blobs that are
    constant in space. *)

Module Inputs.

#[local] Existing Instance Meep.header.

Definition const (v : R) : array := fun _ => v.

Definition one_point : grid_volume :=
  {| dim := Meep.D3;
     stride := fun _ => 1%Z;
     gv_ntot := 1%nat;
     owned := fun _ => [0%Z] |}.

(** Sigma [v] on (Ex, X) only. *)
Definition sigma_xx (v : R) : susceptibility :=
  {| get_id := 0%Z;
     sigma := fun c d =>
       match c, d with
       | Meep.Ex, Meep.dX => Some (const v)
       | _, _ => None
       end;
     trivial_sigma := fun c d =>
       match c, d with
       | Meep.Ex, Meep.dX => false
       | _, _ => true
       end |}.

(** Sigma [v] on (Ex, Y) only: an off-diagonal coupling of Ex to Ey. *)
Definition sigma_xy (v : R) : susceptibility :=
  {| get_id := 0%Z;
     sigma := fun c d =>
       match c, d with
       | Meep.Ex, Meep.dY => Some (const v)
       | _, _ => None
       end;
     trivial_sigma := fun c d =>
       match c, d with
       | Meep.Ex, Meep.dY => false
       | _, _ => true
       end |}.

(** The field [v] on Ex, copy 0 and 1; no other component. *)
Definition W_x (v : R) : field_table :=
  fun c _ =>
    match c with
    | Meep.Ex => Some (const v)
    | _ => None
    end.

(** The field [v] on Ey only. *)
Definition W_y (v : R) : field_table :=
  fun c _ =>
    match c with
    | Meep.Ey => Some (const v)
    | _ => None
    end.

(** A blob with [P = p] and [P_prev = pp] on (Ex, 0) only. *)
Definition data_x (p pp : R) : lorentzian_data :=
  {| ntot := 1%nat;
     P := fun c cmp =>
       match c, cmp with
       | Meep.Ex, 0%nat => Some (const p)
       | _, _ => None
       end;
     P_prev := fun c cmp =>
       match c, cmp with
       | Meep.Ex, 0%nat => Some (const pp)
       | _, _ => None
       end |}.

(** A bias along z of length one, and a bias along x of length two. *)
Definition bias_z : vec := {| vec_x := 0; vec_y := 0; vec_z := 1 |}.

Definition bias_2x : vec := {| vec_x := 2; vec_y := 0; vec_z := 0 |}.

Definition lorentzian (base : susceptibility) (omega_0 gamma : R)
  : lorentzian_susceptibility :=
  {| lorentzian_base := base;
     omega_0 := omega_0;
     gamma := gamma;
     no_omega_0_denominator := false |}.

(** Sigma [v] on the whole row of Ex: (Ex, X), (Ex, Y) and (Ex, Z). *)
Definition sigma_x_row (v : R) : susceptibility :=
  {| get_id := 0%Z;
     sigma := fun c d =>
       match c, d with
       | Meep.Ex, Meep.dX | Meep.Ex, Meep.dY | Meep.Ex, Meep.dZ =>
           Some (const v)
       | _, _ => None
       end;
     trivial_sigma := fun c d =>
       match c, d with
       | Meep.Ex, Meep.dX | Meep.Ex, Meep.dY | Meep.Ex, Meep.dZ => false
       | _, _ => true
       end |}.

(** The field [v] on Ex and Ey, and on Ex, Ey and Ez. *)
Definition W_xy (v : R) : field_table :=
  fun c _ =>
    match c with
    | Meep.Ex | Meep.Ey => Some (const v)
    | _ => None
    end.

Definition W_xyz (v : R) : field_table :=
  fun c _ =>
    match c with
    | Meep.Ex | Meep.Ey | Meep.Ez => Some (const v)
    | _ => None
    end.

(** The table [f_minus_p] with the value [v] on Dx only. *)
Definition F_Dx (v : R) : field_table :=
  fun c _ =>
    match c with
    | Meep.Dx => Some (const v)
    | _ => None
    end.

(** The field [v] on the cylindrical component Er, and a blob with
    [P = p] and [P_prev = pp] on (Er, 0) only. *)
Definition W_r (v : R) : field_table :=
  fun c _ =>
    match c with
    | Meep.Er => Some (const v)
    | _ => None
    end.

Definition data_r (p pp : R) : lorentzian_data :=
  {| ntot := 1%nat;
     P := fun c cmp =>
       match c, cmp with
       | Meep.Er, 0%nat => Some (const p)
       | _, _ => None
       end;
     P_prev := fun c cmp =>
       match c, cmp with
       | Meep.Er, 0%nat => Some (const pp)
       | _, _ => None
       end |}.

(** Sigma [v] on the diagonal of the electric field: (Ex, X), (Ey, Y)
    and (Ez, Z). *)
Definition sigma_diag (v : R) : susceptibility :=
  {| get_id := 0%Z;
     sigma := fun c d =>
       match c, d with
       | Meep.Ex, Meep.dX | Meep.Ey, Meep.dY | Meep.Ez, Meep.dZ =>
           Some (const v)
       | _, _ => None
       end;
     trivial_sigma := fun c d =>
       match c, d with
       | Meep.Ex, Meep.dX | Meep.Ey, Meep.dY | Meep.Ez, Meep.dZ => false
       | _, _ => true
       end |}.

(** A blob with [P = p] and [P_prev = pp] on (Ex, 0), (Ey, 0), (Ez, 0). *)
Definition data_xyz (p pp : R) : lorentzian_data :=
  {| ntot := 1%nat;
     P := fun c cmp =>
       match c, cmp with
       | Meep.Ex, 0%nat | Meep.Ey, 0%nat | Meep.Ez, 0%nat => Some (const p)
       | _, _ => None
       end;
     P_prev := fun c cmp =>
       match c, cmp with
       | Meep.Ex, 0%nat | Meep.Ey, 0%nat | Meep.Ez, 0%nat => Some (const pp)
       | _, _ => None
       end |}.

(** A grid of two points, of which the first is owned and the second
    is not; and a blob for it with [P = p] and [P_prev = pp] on
    (Ex, 0). *)
Definition two_points : grid_volume :=
  {| dim := Meep.D3;
     stride := fun _ => 1%Z;
     gv_ntot := 2%nat;
     owned := fun _ => [0%Z] |}.

Definition data_x2 (p pp : R) : lorentzian_data :=
  {| ntot := 2%nat;
     P := fun c cmp =>
       match c, cmp with
       | Meep.Ex, 0%nat => Some (const p)
       | _, _ => None
       end;
     P_prev := fun c cmp =>
       match c, cmp with
       | Meep.Ex, 0%nat => Some (const pp)
       | _, _ => None
       end |}.

End Inputs.

(* ================================================================== *)
(** * Properties *)

(** ** Buffers, tables and loops *)

Lemma upd_same (a : array) (i : Z) (v : R) : upd a i v i = v.
Proof. unfold upd. now rewrite Z.eqb_refl. Qed.

Lemma upd_other (a : array) (i j : Z) (v : R) : j <> i -> upd a i v j = a j.
Proof.
  intros Hji. unfold upd.
  destruct (Z.eqb_spec j i) as [E | _]; [contradiction | reflexivity].
Qed.

Lemma add_at_same (a : array) (i : Z) (v : R) : add_at a i v i = a i + v.
Proof. apply upd_same. Qed.

Lemma add_at_other (a : array) (i j : Z) (v : R) :
  j <> i -> add_at a i v j = a j.
Proof. apply upd_other. Qed.

Lemma nodupb_NoDup {A : Type} (eq_dec : forall a b : A, {a = b} + {a <> b})
  (l : list A) : nodupb eq_dec l = true -> NoDup l.
Proof.
  induction l as [| a l IH]; simpl; intros E.
  - constructor.
  - apply andb_prop in E. destruct E as [E1 E2].
    destruct (in_dec eq_dec a l) as [i | n]; [discriminate |].
    constructor; auto.
Qed.

Lemma bind_Ok {A B : Type} (m : result A) (k : A -> result B) (b : B) :
  (x <- m ;; k x) = Ok b -> exists a, m = Ok a /\ k a = Ok b.
Proof. destruct m as [a | f]; simpl; [eauto | discriminate]. Qed.

Lemma fold_res_cons {A S : Type} (body : S -> A -> result S) (a : A)
  (l : list A) (s : S) :
  fold_res body (a :: l) s = (s' <- body s a ;; fold_res body l s').
Proof. reflexivity. Qed.

Lemma fold_res_pure {A S : Type} (f : S -> A -> S) (l : list A) (s : S) :
  fold_res (fun s a => Ok (f s a)) l s = Ok (fold_left f l s).
Proof.
  revert s. induction l as [| a l IH]; intros s; simpl; [reflexivity | apply IH].
Qed.

(** A loop whose body keeps an invariant and never faults under it
    returns, and the invariant holds at the end. *)
Lemma fold_res_invariant {A S : Type} (body : S -> A -> result S)
  (Inv : S -> Prop) (l : list A) :
  (forall s a, In a l -> Inv s -> exists s', body s a = Ok s' /\ Inv s') ->
  forall s, Inv s -> exists s', fold_res body l s = Ok s' /\ Inv s'.
Proof.
  induction l as [| a l IH]; intros Hb s Hs; simpl.
  - eauto.
  - destruct (Hb s a (or_introl eq_refl) Hs) as [s1 [E1 I1]].
    rewrite E1. simpl. apply IH; auto.
    intros s0 a0 Hin. apply Hb. now right.
Qed.

(** Loops that touch one grid point per iteration.  [get s j] is what
    the state holds at the point [j]; an iteration at [i] changes the
    point [i] as [Rel i] says and no other point. *)
Section PointwiseLoop.

Variables (S V : Type).
Variable get : S -> Z -> V.
Variable ok : S -> Prop.
Variable body : S -> Z -> result S.
Variable Rel : Z -> V -> V -> Prop.

Hypothesis body_pointwise : forall s i, ok s ->
  exists s', body s i = Ok s' /\ ok s'
             /\ (forall j, j <> i -> get s' j = get s j)
             /\ Rel i (get s i) (get s' i).

Lemma pointwise_loop (l : list Z) :
  NoDup l ->
  forall s, ok s ->
  exists s', fold_res body l s = Ok s' /\ ok s'
             /\ (forall j, ~ In j l -> get s' j = get s j)
             /\ (forall j, In j l -> Rel j (get s j) (get s' j)).
Proof.
  induction 1 as [| a l Hna Hnd IH]; intros s Hs; simpl.
  - exists s. repeat split; auto. intros j [].
  - destruct (body_pointwise s a Hs) as [s1 [E1 [O1 [F1 R1]]]].
    rewrite E1. simpl.
    destruct (IH s1 O1) as [s2 [E2 [O2 [F2 R2]]]].
    exists s2. repeat split; auto.
    + intros j Hj. rewrite F2 by tauto. apply F1. intros ->. tauto.
    + intros j [<- | Hj].
      * rewrite (F2 a Hna). exact R1.
      * assert (j <> a) by (intros ->; contradiction).
        rewrite <- (F1 j) by assumption. now apply R2.
Qed.

Lemma pointwise_loop_total (l : list Z) :
  forall s, ok s ->
  exists s', fold_res body l s = Ok s' /\ ok s'.
Proof.
  intros s Hs. apply fold_res_invariant; auto.
  intros s0 a _ H0. destruct (body_pointwise s0 a H0) as [s' [E [O _]]]. eauto.
Qed.

End PointwiseLoop.

Section Properties.

Context {H : MeepHeader}.

Lemma FOR_COMPONENTS_NoDup : NoDup FOR_COMPONENTS.
Proof. apply (nodupb_NoDup component_eq_dec), FOR_COMPONENTS_once. Qed.

Lemma set_entry_same (t : field_table) (c : component) (cmp : nat) (a : ptr) :
  set_entry t c cmp a c cmp = a.
Proof.
  unfold set_entry. destruct (component_eq_dec c c) as [_ | n]; [| contradiction].
  now rewrite Nat.eqb_refl.
Qed.

Lemma set_entry_other (t : field_table) (c c' : component) (cmp cmp' : nat)
  (a : ptr) : c' <> c \/ cmp' <> cmp -> set_entry t c cmp a c' cmp' = t c' cmp'.
Proof.
  intros Hd. unfold set_entry.
  destruct (component_eq_dec c' c) as [E | n]; [| reflexivity].
  destruct (Nat.eqb_spec cmp' cmp) as [E' | n']; [| reflexivity].
  tauto.
Qed.

(** ** needs_P *)

Lemma needs_P_loop_true (sus : susceptibility) (c : component) (cmp : nat)
  (W : field_table) (ds : list direction) :
  needs_P_loop sus c cmp W ds = true <->
  exists d, In d ds /\ trivial_sigma sus c d = false
            /\ W (direction_component c d) cmp <> None.
Proof.
  induction ds as [| d ds IH]; simpl.
  - split; [discriminate | intros [d [[] _]]].
  - destruct (trivial_sigma sus c d) eqn:Et; simpl.
    + rewrite IH. split.
      * intros [d' [Hin Hd']]. exists d'. tauto.
      * intros [d' [[<- | Hin] [Ht Hw]]]; [congruence |]. exists d'. tauto.
    + destruct (W (direction_component c d) cmp) eqn:Ew; simpl.
      * split; [intros _ | reflexivity].
        exists d. rewrite Ew. repeat split; auto. discriminate.
      * rewrite IH. split.
        -- intros [d' [Hin Hd']]. exists d'. tauto.
        -- intros [d' [[<- | Hin] [Ht Hw]]]; [congruence |]. exists d'. tauto.
Qed.

(** C5. [needs_P(c, cmp, W)] is true exactly when [c] is electric or
    magnetic and some direction [d] of FOR_DIRECTIONS has a non-trivial
    [sigma[c][d]] together with a non-NULL
    [W[direction_component(c, d)][cmp]]; hence it is false for every
    component that is neither electric nor magnetic, whatever sigma and
    [W] are. *)
Theorem needs_P_spec (sus : susceptibility) (c : component) (cmp : nat)
  (W : field_table) :
  (needs_P sus c cmp W = true <->
   (is_electric c = true \/ is_magnetic c = true)
   /\ exists d, In d FOR_DIRECTIONS
                /\ trivial_sigma sus c d = false
                /\ W (direction_component c d) cmp <> None)
  /\ ((is_electric c || is_magnetic c)%bool = false ->
      needs_P sus c cmp W = false).
Proof.
  unfold needs_P.
  destruct (is_electric c) eqn:Ee, (is_magnetic c) eqn:Em; simpl;
    rewrite ?needs_P_loop_true; split; try tauto; try discriminate.
  split; [discriminate |]. intros [[E | E] _]; discriminate.
Qed.

(** X3. [needs_W_notowned(c, W)] is true exactly when some direction
    [d] of FOR_DIRECTIONS other than the direction of [c] gives a
    component [cP = direction_component(c, d)] that needs its [P] (copy
    0) and whose sigma towards the direction of [c] is non-trivial. *)
Theorem needs_W_notowned_spec (sus : susceptibility) (c : component)
  (W : field_table) :
  needs_W_notowned sus c W = true <->
  exists d, In d FOR_DIRECTIONS
    /\ direction_value d <> direction_value (component_direction c)
    /\ needs_P sus (direction_component c d) 0%nat W = true
    /\ trivial_sigma sus (direction_component c d) (component_direction c)
       = false.
Proof.
  unfold needs_W_notowned.
  induction FOR_DIRECTIONS as [| d ds IH]; simpl.
  - split; [discriminate | intros [d [[] _]]].
  - destruct (Z.eqb_spec (direction_value d)
                (direction_value (component_direction c))) as [E | N]; simpl.
    + rewrite IH. split.
      * intros [d' [Hin Hd']]. exists d'. tauto.
      * intros [d' [[<- | Hin] [Hv Hd']]]; [contradiction |].
        exists d'. tauto.
    + destruct (needs_P sus (direction_component c d) 0%nat W) eqn:En; simpl.
      * destruct (trivial_sigma sus (direction_component c d)
                    (component_direction c)) eqn:Et; simpl.
        -- rewrite IH. split.
           ++ intros [d' [Hin Hd']]. exists d'. tauto.
           ++ intros [d' [[<- | Hin] [Hv [Hn Ht]]]]; [congruence |].
              exists d'. tauto.
        -- split; [intros _ | reflexivity]. exists d. tauto.
      * rewrite IH. split.
        -- intros [d' [Hin Hd']]. exists d'. tauto.
        -- intros [d' [[<- | Hin] [Hv [Hn Ht]]]]; [congruence |].
           exists d'. tauto.
Qed.

(** ** FOR_COMPONENTS(c) DOCMP2

    A body that keeps an invariant and changes no entry but its own is
    run once on every entry of the loop, from a state in which that
    entry still has its initial value. *)
Section ForComponents.

Variables (S E : Type).
Variable ent : S -> component -> nat -> E.
Variable step : component -> nat -> S -> result S.
Variable Inv : S -> Prop.

Hypothesis step_total : forall c k s,
  In c FOR_COMPONENTS -> In k DOCMP2 -> Inv s ->
  exists s', step c k s = Ok s' /\ Inv s'.
Hypothesis step_frame : forall c k s s', Inv s -> step c k s = Ok s' ->
  forall c' k', c' <> c \/ k' <> k -> ent s' c' k' = ent s c' k'.

Lemma docmp2_spec (c : component) (s : S) :
  In c FOR_COMPONENTS -> Inv s ->
  exists s', fold_res (fun s cmp => step c cmp s) DOCMP2 s = Ok s' /\ Inv s'
    /\ (forall c' k', c' <> c \/ ~ In k' DOCMP2 -> ent s' c' k' = ent s c' k')
    /\ (forall k, In k DOCMP2 ->
        exists s1 s2, Inv s1 /\ ent s1 c k = ent s c k
                      /\ step c k s1 = Ok s2 /\ ent s' c k = ent s2 c k).
Proof.
  intros Hc Hs. unfold DOCMP2. simpl.
  destruct (step_total c 0%nat s Hc (or_introl eq_refl) Hs) as [sa [Ea Ia]].
  rewrite Ea. simpl.
  destruct (step_total c 1%nat sa Hc (or_intror (or_introl eq_refl)) Ia)
    as [sb [Eb Ib]].
  rewrite Eb. simpl.
  exists sb. repeat split; auto.
  - intros c' k' Hd.
    rewrite (step_frame _ _ _ _ Ia Eb), (step_frame _ _ _ _ Hs Ea); auto.
    + destruct Hd as [Hn | Hk]; [now left | right; intros ->; apply Hk; now left].
    + destruct Hd as [Hn | Hk];
        [now left | right; intros ->; apply Hk; right; now left].
  - intros k [<- | [<- | []]].
    + exists s, sa. repeat split; auto.
      apply (step_frame _ _ _ _ Ia Eb). right. discriminate.
    + exists sa, sb. repeat split; auto.
      apply (step_frame _ _ _ _ Hs Ea). right. discriminate.
Qed.

Lemma for_components_list (l : list component) :
  incl l FOR_COMPONENTS -> NoDup l ->
  forall s, Inv s ->
  exists s',
    fold_res (fun s c => fold_res (fun s cmp => step c cmp s) DOCMP2 s) l s
      = Ok s'
    /\ Inv s'
    /\ (forall c k, ~ (In c l /\ In k DOCMP2) -> ent s' c k = ent s c k)
    /\ (forall c k, In c l -> In k DOCMP2 ->
        exists s1 s2, Inv s1 /\ ent s1 c k = ent s c k
                      /\ step c k s1 = Ok s2 /\ ent s' c k = ent s2 c k).
Proof.
  intros Hincl Hnd. induction Hnd as [| a l Hna Hnd IH]; intros s Hs.
  - exists s. repeat split; auto. intros c k [].
  - rewrite fold_res_cons.
    destruct (docmp2_spec a s (Hincl a (or_introl eq_refl)) Hs)
      as [sa [Ea [Ia [Fa Va]]]].
    rewrite Ea. unfold bind.
    destruct (IH (fun c Hc => Hincl c (or_intror Hc)) sa Ia)
      as [s' [E' [I' [F' V']]]].
    exists s'. repeat split; auto.
    + intros c k Hn. rewrite F'.
      * apply Fa.
        destruct (component_eq_dec c a) as [-> | n]; [| now left].
        right. intros Hk. apply Hn. split; [now left | exact Hk].
      * intros [Hc Hk]. apply Hn. split; [now right | exact Hk].
    + intros c k [<- | Hc] Hk.
      * destruct (Va k Hk) as [s1 [s2 [I1 [E1 [St E2]]]]].
        exists s1, s2. repeat split; auto.
        rewrite F'; [exact E2 | intros [Hc _]; contradiction].
      * destruct (V' c k Hc Hk) as [s1 [s2 [I1 [E1 [St E2]]]]].
        exists s1, s2. repeat split; auto.
        rewrite E1. apply Fa. left. intros ->. contradiction.
Qed.

Lemma for_components_spec (s : S) :
  Inv s ->
  exists s',
    for_components_docmp2 step s = Ok s'
    /\ Inv s'
    /\ (forall c k, ~ (In c FOR_COMPONENTS /\ In k DOCMP2) ->
        ent s' c k = ent s c k)
    /\ (forall c k, In c FOR_COMPONENTS -> In k DOCMP2 ->
        exists s1 s2, Inv s1 /\ ent s1 c k = ent s c k
                      /\ step c k s1 = Ok s2 /\ ent s' c k = ent s2 c k).
Proof.
  apply for_components_list; [apply incl_refl | apply FOR_COMPONENTS_NoDup].
Qed.

End ForComponents.

(** ** The loops of the Lorentzian update *)
Section LorentzianLoops.

Variable sus : lorentzian_susceptibility.
Variable dt : R.

Lemma get_point_upd (p ppa : array) (i j : Z) (v v' : R) :
  j <> i ->
  get_point (upd p i v, Some (upd ppa i v')) j = get_point (p, Some ppa) j.
Proof. intros Hj. unfold get_point. simpl. now rewrite !upd_other. Qed.

Lemma body_iso_pointwise (s w : array) (f : Z -> R) :
  (forall i, f i = s i * w i) ->
  forall st i, snd st <> None ->
  exists st', body_iso sus dt s w st i = Ok st' /\ snd st' <> None
    /\ (forall j, j <> i -> get_point st' j = get_point st j)
    /\ point_rel sus dt false s f i (get_point st i) (get_point st' i).
Proof.
  intros Hf [p [ppa |]] i Hpp; [| now elim Hpp]. simpl.
  eexists. split; [reflexivity |]. split; [discriminate |]. split.
  - intros j Hj. now apply get_point_upd.
  - split; [discriminate |]. intros _.
    unfold get_point, lorentzian_step. simpl. now rewrite !upd_same, Hf.
Qed.

Lemma body_2x2_pointwise (s w : array) (is_ : Z) (s1 w1a : array) (is1 : Z)
  (f : Z -> R) :
  (forall i, f i = s i * w i + OFFDIAG s1 w1a is1 is_ i) ->
  forall st i, snd st <> None ->
  exists st', body_2x2 sus dt s w is_ s1 (Some w1a) is1 st i = Ok st'
    /\ snd st' <> None
    /\ (forall j, j <> i -> get_point st' j = get_point st j)
    /\ point_rel sus dt true s f i (get_point st i) (get_point st' i).
Proof.
  intros Hf [p [ppa |]] i Hpp; [| now elim Hpp]. unfold body_2x2.
  destruct (Req_dec_T (s i) 0) as [Ez | Enz].
  - eexists. split; [reflexivity |]. split; [discriminate |].
    split; [reflexivity |]. split; [reflexivity |].
    intros [Hg | Hs]; [discriminate | contradiction].
  - simpl. eexists. split; [reflexivity |]. split; [discriminate |]. split.
    + intros j Hj. now apply get_point_upd.
    + split; [intros _ Hz; contradiction |]. intros _.
      unfold get_point, lorentzian_step. simpl. now rewrite !upd_same, Hf.
Qed.

Lemma body_3x3_pointwise (s w : array) (is_ : Z) (s1 w1a : array) (is1 : Z)
  (s2 w2a : array) (is2 : Z) (f : Z -> R) :
  (forall i, f i = s i * w i + OFFDIAG s1 w1a is1 is_ i
                   + OFFDIAG s2 w2a is2 is_ i) ->
  forall st i, snd st <> None ->
  exists st',
    body_3x3 sus dt s w is_ s1 (Some w1a) is1 s2 (Some w2a) is2 st i = Ok st'
    /\ snd st' <> None
    /\ (forall j, j <> i -> get_point st' j = get_point st j)
    /\ point_rel sus dt true s f i (get_point st i) (get_point st' i).
Proof.
  intros Hf [p [ppa |]] i Hpp; [| now elim Hpp]. unfold body_3x3.
  destruct (Req_dec_T (s i) 0) as [Ez | Enz].
  - eexists. split; [reflexivity |]. split; [discriminate |].
    split; [reflexivity |]. split; [reflexivity |].
    intros [Hg | Hs]; [discriminate | contradiction].
  - simpl. eexists. split; [reflexivity |]. split; [discriminate |]. split.
    + intros j Hj. now apply get_point_upd.
    + split; [intros _ Hz; contradiction |]. intros _.
      unfold get_point, lorentzian_step. simpl. now rewrite !upd_same, Hf.
Qed.

(** The loop that [update_P] selects, described point by point: the
    guard is there as soon as one candidate direction couples, and the
    bracket is [forcing]. *)
Lemma lorentzian_branches_body (s w : array) (is_ : Z) (k1 k2 : offdiag) :
  masked k1 -> masked k2 ->
  exists body,
    (forall l st, lorentzian_branches sus dt s w is_ k1 k2 l st
                  = fold_res body l st)
    /\ forall st i, snd st <> None ->
       exists st', body st i = Ok st' /\ snd st' <> None
         /\ (forall j, j <> i -> get_point st' j = get_point st j)
         /\ point_rel sus dt (non_null (od_s k1) || non_null (od_s k2)) s
              (forcing s w is_ k1 k2) i (get_point st i) (get_point st' i).
Proof.
  intros M1 M2. unfold lorentzian_branches, forcing, offdiag_term, masked in *.
  destruct (od_s k1) as [s1 |] eqn:E1, (od_s k2) as [s2 |] eqn:E2; simpl.
  - destruct (od_w k1) as [w1a |] eqn:W1; [| now elim M1].
    destruct (od_w k2) as [w2a |] eqn:W2; [| now elim M2].
    eexists. split.
    + intros l st. rewrite ?E1, ?E2, ?W1, ?W2. reflexivity.
    + apply body_3x3_pointwise. reflexivity.
  - destruct (od_w k1) as [w1a |] eqn:W1; [| now elim M1].
    eexists. split.
    + intros l st. rewrite ?E1, ?E2, ?W1. reflexivity.
    + apply body_2x2_pointwise. intros i. lra.
  - destruct (od_w k2) as [w2a |] eqn:W2; [| now elim M2].
    eexists. split.
    + intros l st. rewrite ?E1, ?E2, ?W2. reflexivity.
    + apply body_2x2_pointwise. intros i. lra.
  - eexists. split.
    + intros l st. rewrite ?E1, ?E2. reflexivity.
    + apply body_iso_pointwise. intros i. lra.
Qed.

Lemma lorentzian_branches_total (s w : array) (is_ : Z) (k1 k2 : offdiag)
  (l : list Z) (st : array * ptr) :
  masked k1 -> masked k2 -> snd st <> None ->
  exists st', lorentzian_branches sus dt s w is_ k1 k2 l st = Ok st'
              /\ snd st' <> None.
Proof.
  intros M1 M2 Hst.
  destruct (lorentzian_branches_body s w is_ k1 k2 M1 M2) as [body [Eb Hb]].
  rewrite Eb.
  apply (pointwise_loop_total _ _ get_point (fun st => snd st <> None) body _ Hb);
    assumption.
Qed.

Lemma lorentzian_branches_pointwise (s w : array) (is_ : Z) (k1 k2 : offdiag)
  (l : list Z) (st : array * ptr) :
  masked k1 -> masked k2 -> NoDup l -> snd st <> None ->
  exists st', lorentzian_branches sus dt s w is_ k1 k2 l st = Ok st'
    /\ snd st' <> None
    /\ (forall j, ~ In j l -> get_point st' j = get_point st j)
    /\ (forall j, In j l ->
        point_rel sus dt (non_null (od_s k1) || non_null (od_s k2)) s
          (forcing s w is_ k1 k2) j (get_point st j) (get_point st' j)).
Proof.
  intros M1 M2 Hl Hst.
  destruct (lorentzian_branches_body s w is_ k1 k2 M1 M2) as [body [Eb Hb]].
  rewrite Eb.
  apply (pointwise_loop _ _ get_point (fun st => snd st <> None) body _ Hb);
    assumption.
Qed.

Lemma candidate_masked (W : field_table) (gv : grid_volume) (c : component)
  (cmp : nat) (shift : Z) : masked (candidate sus W gv c cmp shift).
Proof.
  unfold masked, candidate. simpl.
  destruct (W _ cmp); simpl; [discriminate | tauto].
Qed.

End LorentzianLoops.

(** ** The Lorentzian update, entry by entry *)
Section LorentzianUpdateSpec.

Variable sus : lorentzian_susceptibility.
Variable dt : R.
Variable W : field_table.
Variable gv : grid_volume.

Lemma lorentzian_component_idle (c : component) (k : nat) (d : lorentzian_data) :
  P d c k = None \/ W c k = None \/ sigma sus c (component_direction c) = None ->
  lorentzian_update_component sus dt W gv c k d = Ok d.
Proof.
  unfold lorentzian_update_component.
  destruct (P d c k); [| reflexivity].
  destruct (W c k); [| reflexivity].
  destruct (sigma sus c (component_direction c)); [| reflexivity].
  intros [E | [E | E]]; discriminate.
Qed.

Lemma lorentzian_component_frame (c : component) (k : nat)
  (d d' : lorentzian_data) :
  lorentzian_update_component sus dt W gv c k d = Ok d' ->
  forall c' k', c' <> c \/ k' <> k -> entry d' c' k' = entry d c' k'.
Proof.
  unfold lorentzian_update_component. intros E c' k' Hd.
  destruct (P d c k) as [p |]; [| now inversion E].
  destruct (W c k) as [w |]; [| now inversion E].
  destruct (sigma sus c (component_direction c)) as [s |]; [| now inversion E].
  apply bind_Ok in E. destruct E as [st [_ E]]. inversion E; subst.
  unfold entry; simpl. now rewrite !set_entry_other.
Qed.

Lemma wf_data_set (d : lorentzian_data) (c : component) (k : nat) (n : nat)
  (a b : ptr) :
  wf_data d -> b <> None ->
  wf_data {| ntot := n;
             P := set_entry (P d) c k a;
             P_prev := set_entry (P_prev d) c k b |}.
Proof.
  intros Hd Hb c' k'. simpl.
  destruct (component_eq_dec c' c) as [-> | n'].
  - destruct (Nat.eq_dec k' k) as [-> | n''].
    + now rewrite !set_entry_same.
    + rewrite !set_entry_other by tauto. apply Hd.
  - rewrite !set_entry_other by tauto. apply Hd.
Qed.

Lemma lorentzian_component_total (n : nat) (c : component) (k : nat)
  (d : lorentzian_data) :
  wf_data d /\ ntot d = n ->
  exists d', lorentzian_update_component sus dt W gv c k d = Ok d'
             /\ (wf_data d' /\ ntot d' = n).
Proof.
  intros [Hd Hn]. unfold lorentzian_update_component.
  destruct (P d c k) as [p |] eqn:EP; [| eauto].
  destruct (W c k) as [w |]; [| eauto].
  destruct (sigma sus c (component_direction c)) as [s |]; [| eauto].
  assert (Hpp : snd (p, P_prev d c k) <> None)
    by (simpl; apply Hd; rewrite EP; discriminate).
  destruct (lorentzian_branches_total sus dt s w (comp_stride gv c)
              (candidate sus W gv c k 1) (candidate sus W gv c k 2)
              (owned gv c) _ (candidate_masked _ _ _ _ _ _)
              (candidate_masked _ _ _ _ _ _) Hpp) as [st [E Hst]].
  unfold comp_stride in E. rewrite E. simpl.
  eexists. split; [reflexivity |]. split; [| exact Hn].
  now apply wf_data_set.
Qed.

Lemma lorentzian_component_active (c : component) (k : nat)
  (d : lorentzian_data) (p ppa w s : array) :
  P d c k = Some p -> P_prev d c k = Some ppa ->
  W c k = Some w -> sigma sus c (component_direction c) = Some s ->
  NoDup (owned gv c) ->
  exists d' p' ppa',
    lorentzian_update_component sus dt W gv c k d = Ok d'
    /\ entry d' c k = (Some p', Some ppa')
    /\ (forall j, ~ In j (owned gv c) -> p' j = p j /\ ppa' j = ppa j)
    /\ (forall j, In j (owned gv c) ->
        point_rel sus dt (anisotropic sus W gv c k) s (W_eff sus W gv c k s w) j
          (p j, ppa j) (p' j, ppa' j)).
Proof.
  intros EP EPP EW ES Hnd. unfold lorentzian_update_component.
  rewrite EP, EW, ES, EPP. cbv beta iota zeta.
  match goal with
  | |- context [lorentzian_branches _ _ _ _ ?i_ ?k1 ?k2 ?l ?st] =>
      destruct (lorentzian_branches_pointwise sus dt s w i_ k1 k2 l st
                  (candidate_masked _ _ _ _ _ _)
                  (candidate_masked _ _ _ _ _ _) Hnd)
        as [[p' [ppa' |]] [E [Hst [Hout Hin]]]]; try discriminate;
        [| now elim Hst]
  end.
  rewrite E. simpl.
  exists {| ntot := ntot d;
            P := set_entry (P d) c k (Some p');
            P_prev := set_entry (P_prev d) c k (Some ppa') |}, p', ppa'.
  split; [reflexivity |]. split.
  - unfold entry. simpl. now rewrite !set_entry_same.
  - split.
    + intros j Hj. specialize (Hout j Hj). unfold get_point in Hout.
      simpl in Hout. now inversion Hout.
    + intros j Hj. apply (Hin j Hj).
Qed.

(** One call of [update_P] on a well-formed blob returns; an entry
    that the loop does not visit, or that is not allocated, or whose
    field or diagonal sigma is NULL, keeps its two buffers; any other
    entry is advanced once, at each owned point and nowhere else. *)
Lemma lorentzian_update_P_spec (W_prev : field_table) (d : lorentzian_data) :
  wf_data d ->
  exists d',
    lorentzian_update_P sus dt W W_prev gv (Some d) = Ok d'
    /\ wf_data d' /\ ntot d' = ntot d
    /\ (forall c k,
        ~ (In c FOR_COMPONENTS /\ In k DOCMP2) \/ P d c k = None
        \/ W c k = None \/ sigma sus c (component_direction c) = None ->
        entry d' c k = entry d c k)
    /\ (forall c k p ppa w s,
        In c FOR_COMPONENTS -> In k DOCMP2 ->
        P d c k = Some p -> P_prev d c k = Some ppa ->
        W c k = Some w -> sigma sus c (component_direction c) = Some s ->
        NoDup (owned gv c) ->
        exists p' ppa',
          entry d' c k = (Some p', Some ppa')
          /\ (forall j, ~ In j (owned gv c) -> p' j = p j /\ ppa' j = ppa j)
          /\ (forall j, In j (owned gv c) ->
              point_rel sus dt (anisotropic sus W gv c k) s
                (W_eff sus W gv c k s w) j (p j, ppa j) (p' j, ppa' j))).
Proof.
  intros Hd. unfold lorentzian_update_P. simpl.
  destruct (for_components_spec _ _ entry
              (lorentzian_update_component sus dt W gv)
              (fun d0 => wf_data d0 /\ ntot d0 = ntot d)
              (fun c k s _ _ => lorentzian_component_total (ntot d) c k s)
              (fun c k s s' _ => lorentzian_component_frame c k s s')
              d (conj Hd eq_refl))
    as [d' [E [[Hwf Hn] [Hout Hin]]]].
  exists d'. repeat split; auto.
  - intros c k Hc.
    destruct (in_dec component_eq_dec c FOR_COMPONENTS) as [Hi | Hni];
      [| apply Hout; tauto].
    destruct (in_dec Nat.eq_dec k DOCMP2) as [Hk | Hnk];
      [| apply Hout; tauto].
    destruct (Hin c k Hi Hk) as [d1 [d2 [_ [E1 [St E2]]]]].
    rewrite lorentzian_component_idle in St.
    + inversion St; subst. congruence.
    + unfold entry in E1. inversion E1 as [[EP EPP]]. rewrite EP.
      destruct Hc as [Hc | Hc]; tauto.
  - intros c k p ppa w s Hc Hk EP EPP EW ES Hnd.
    destruct (Hin c k Hc Hk) as [d1 [d2 [_ [E1 [St E2]]]]].
    unfold entry in E1. inversion E1 as [[EP1 EPP1]].
    rewrite EP in EP1. rewrite EPP in EPP1.
    destruct (lorentzian_component_active c k d1 p ppa w s EP1 EPP1 EW ES Hnd)
      as [d2' [p' [ppa' [St' [En [Ho Hi]]]]]].
    rewrite St in St'. inversion St'; subst d2'.
    exists p', ppa'. split; [congruence |]. split; assumption.
Qed.

End LorentzianUpdateSpec.

(** ** The recurrence in closed form *)

Lemma lorentzian_step_closed_form (sus : lorentzian_susceptibility)
  (dt pcur pprev f : R) :
  lorentzian_step sus dt pcur pprev f
  = leapfrog_closed_form (omega_0 sus) (gamma sus) dt
      (if no_omega_0_denominator sus then 0 else 1) pcur pprev f.
Proof.
  unfold lorentzian_step, leapfrog_closed_form, gamma1inv, gamma1,
    omega0dtsqr_denom, omega0dtsqr, omega2pi, g2pi.
  replace (1 + gamma sus * 2 * pi * dt / 2) with (1 + gamma sus * pi * dt)
    by lra.
  replace (1 - gamma sus * 2 * pi * dt / 2) with (1 - gamma sus * pi * dt)
    by lra.
  destruct (no_omega_0_denominator sus); unfold Rdiv; ring.
Qed.

(** An advanced entry on the isotropic path, point by point. *)
Lemma lorentzian_isotropic_point (sus : lorentzian_susceptibility) (dt : R)
  (W W_prev : field_table) (gv : grid_volume) (d : lorentzian_data)
  (c : component) (k : nat) (p ppa w s : array) :
  wf_data d -> In c FOR_COMPONENTS -> In k DOCMP2 ->
  P d c k = Some p -> P_prev d c k = Some ppa ->
  W c k = Some w -> sigma sus c (component_direction c) = Some s ->
  anisotropic sus W gv c k = false ->
  NoDup (owned gv c) ->
  exists d' p' ppa',
    lorentzian_update_P sus dt W W_prev gv (Some d) = Ok d'
    /\ P d' c k = Some p' /\ P_prev d' c k = Some ppa'
    /\ forall i, In i (owned gv c) ->
       p' i = lorentzian_step sus dt (p i) (ppa i) (s i * w i)
       /\ ppa' i = p i.
Proof.
  intros Hd Hc Hk EP EPP EW ES Ha Hnd.
  destruct (lorentzian_update_P_spec sus dt W gv W_prev d Hd)
    as [d' [E [_ [_ [_ Hact]]]]].
  destruct (Hact c k p ppa w s Hc Hk EP EPP EW ES Hnd)
    as [p' [ppa' [En [_ Hin]]]].
  exists d', p', ppa'. unfold entry in En. inversion En as [[E1 E2]].
  split; [exact E |]. split; [reflexivity |]. split; [reflexivity |].
  intros i Hi. destruct (Hin i Hi) as [_ Hr]. rewrite Ha in Hr.
  specialize (Hr (or_introl eq_refl)). simpl in Hr.
  injection Hr as Hp Hpp. split; [| exact Hpp].
  rewrite Hp. f_equal.
  unfold W_eff, forcing, offdiag_term. unfold anisotropic in Ha.
  apply orb_false_elim in Ha. destruct Ha as [A1 A2].
  destruct (od_s (candidate sus W gv c k 1)); [discriminate |].
  destruct (od_s (candidate sus W gv c k 2)); [discriminate |].
  lra.
Qed.

(** C1. On the isotropic path one call of the Lorentzian [update_P]
    puts at every owned point the spec's closed-form leapfrog value
    [(1/g) (P_cur (2 - w0^2 dt^2 k) - g' P_prev + w0^2 dt^2 sigma W)],
    with [g = 1 + gamma pi dt], [g' = 1 - gamma pi dt],
    [w0 = 2 pi omega_0], and moves the old [P] to [P_prev]; for
    [omega_0 = 1], [gamma = 0.1], [dt = 0.01], [sigma = 1], [W = 1] and
    [P = P_prev = 0] at the point, the new value is
    [(1 / (1 + 0.1 pi 0.01)) ((2 pi)^2 0.01^2)], exactly. *)
Theorem lorentzian_one_step_closed_form (sus : lorentzian_susceptibility)
  (dt : R) (W W_prev : field_table) (gv : grid_volume) (d : lorentzian_data)
  (c : component) (k : nat) (p ppa w s : array) (i : Z) :
  wf_data d -> In c FOR_COMPONENTS -> In k DOCMP2 ->
  P d c k = Some p -> P_prev d c k = Some ppa ->
  W c k = Some w -> sigma sus c (component_direction c) = Some s ->
  anisotropic sus W gv c k = false ->
  NoDup (owned gv c) -> In i (owned gv c) ->
  exists d' p' ppa',
    lorentzian_update_P sus dt W W_prev gv (Some d) = Ok d'
    /\ P d' c k = Some p' /\ P_prev d' c k = Some ppa'
    /\ p' i = leapfrog_closed_form (omega_0 sus) (gamma sus) dt
                (if no_omega_0_denominator sus then 0 else 1)
                (p i) (ppa i) (s i * w i)
    /\ ppa' i = p i
    /\ (omega_0 sus = 1 -> gamma sus = 0.1 -> dt = 0.01 ->
        s i = 1 -> w i = 1 -> p i = 0 -> ppa i = 0 ->
        p' i = (1 / (1 + 0.1 * pi * 0.01))
               * ((2 * pi) * (2 * pi) * (0.01 * 0.01))).
Proof.
  intros Hd Hc Hk EP EPP EW ES Ha Hnd Hi.
  destruct (lorentzian_isotropic_point sus dt W W_prev gv d c k p ppa w s
              Hd Hc Hk EP EPP EW ES Ha Hnd)
    as [d' [p' [ppa' [E [E1 [E2 Hpt]]]]]].
  destruct (Hpt i Hi) as [Hp Hpp].
  rewrite lorentzian_step_closed_form in Hp.
  exists d', p', ppa'.
  split; [exact E |]. split; [exact E1 |]. split; [exact E2 |].
  split; [exact Hp |]. split; [exact Hpp |].
  intros Ho Hg Hdt Hs Hw Hp0 Hpp0. rewrite Hp.
  unfold leapfrog_closed_form. rewrite Ho, Hg, Hdt, Hs, Hw, Hp0, Hpp0.
  destruct (no_omega_0_denominator sus); unfold Rdiv; ring.
Qed.

(** ** Zero sigma *)

(** C4. At an owned point whose diagonal sigma is exactly zero, the
    isotropic loop of the Lorentzian [update_P] has no guard: [P_prev]
    takes the old [P], and [P] takes the recurrence without forcing,
    [gamma1inv * (P * (2 - omega0dtsqr_denom) - gamma1 * P_prev)],
    whatever the field is.  The guard [s[i] != 0] is in the two
    anisotropic loops only, and there the point keeps both its values:
    nothing is swapped. *)
Theorem zero_sigma_point (sus : lorentzian_susceptibility) (dt : R)
  (W W_prev : field_table) (gv : grid_volume) (d : lorentzian_data)
  (c : component) (k : nat) (p ppa w s : array) (i : Z) :
  wf_data d -> In c FOR_COMPONENTS -> In k DOCMP2 ->
  P d c k = Some p -> P_prev d c k = Some ppa ->
  W c k = Some w -> sigma sus c (component_direction c) = Some s ->
  NoDup (owned gv c) -> In i (owned gv c) -> s i = 0 ->
  exists d' p' ppa',
    lorentzian_update_P sus dt W W_prev gv (Some d) = Ok d'
    /\ P d' c k = Some p' /\ P_prev d' c k = Some ppa'
    /\ (anisotropic sus W gv c k = false ->
        p' i = gamma1inv sus dt
               * (p i * (2 - omega0dtsqr_denom sus dt) - gamma1 sus dt * ppa i)
        /\ ppa' i = p i)
    /\ (anisotropic sus W gv c k = true -> p' i = p i /\ ppa' i = ppa i).
Proof.
  intros Hd Hc Hk EP EPP EW ES Hnd Hi Hs.
  destruct (lorentzian_update_P_spec sus dt W gv W_prev d Hd)
    as [d' [E [_ [_ [_ Hact]]]]].
  destruct (Hact c k p ppa w s Hc Hk EP EPP EW ES Hnd)
    as [p' [ppa' [En [_ Hin]]]].
  exists d', p', ppa'. unfold entry in En. injection En as E1 E2.
  split; [exact E |]. split; [exact E1 |]. split; [exact E2 |].
  destruct (Hin i Hi) as [Hskip Hrun]. split.
  - intros Ha. specialize (Hrun (or_introl Ha)). simpl in Hrun.
    injection Hrun as Hp Hpp. split; [| exact Hpp].
    rewrite Hp. unfold lorentzian_step. f_equal.
    unfold W_eff, forcing, offdiag_term. unfold anisotropic in Ha.
    apply orb_false_elim in Ha. destruct Ha as [A1 A2].
    destruct (od_s (candidate sus W gv c k 1)); [discriminate |].
    destruct (od_s (candidate sus W gv c k 2)); [discriminate |].
    rewrite Hs. ring.
  - intros Ha. specialize (Hskip Ha Hs). now injection Hskip.
Qed.

(** ** Components that are allocated but not advanced *)

Lemma fold_left_invariant {A B : Type} (f : B -> A -> B) (Inv : B -> Prop)
  (l : list A) :
  (forall b a, Inv b -> Inv (f b a)) -> forall b, Inv b -> Inv (fold_left f l b).
Proof.
  intros Hf. induction l as [| a l IH]; simpl; auto.
Qed.

(** The blob that [init_internal_data] lays out is well formed. *)
Lemma init_internal_data_wf (sus : susceptibility) (W : field_table)
  (gv : grid_volume) : wf_data (init_internal_data sus W gv).
Proof.
  unfold init_internal_data.
  apply fold_left_invariant.
  - intros d c Hd. apply fold_left_invariant; [| exact Hd].
    intros d0 cmp Hd0. destruct (needs_P sus c cmp W); [| exact Hd0].
    apply wf_data_set; [exact Hd0 | discriminate].
  - intros c cmp Hn. now elim Hn.
Qed.

(** C10. The Lorentzian [update_P] leaves [P[c][cmp]] and
    [P_prev[c][cmp]] as they are whenever [W[c][cmp]] or the diagonal
    [sigma[c][component_direction(c)]] is NULL, whether or not the
    entry was allocated: an entry that [needs_P] allocates through an
    off-diagonal sigma alone is never advanced. *)
Theorem lorentzian_idle_entry (sus : lorentzian_susceptibility) (dt : R)
  (W W_prev : field_table) (gv : grid_volume) (d : lorentzian_data)
  (c : component) (cmp : nat) :
  wf_data d ->
  W c cmp = None \/ sigma sus c (component_direction c) = None ->
  exists d',
    lorentzian_update_P sus dt W W_prev gv (Some d) = Ok d'
    /\ P d' c cmp = P d c cmp /\ P_prev d' c cmp = P_prev d c cmp.
Proof.
  intros Hd Hnull.
  destruct (lorentzian_update_P_spec sus dt W gv W_prev d Hd)
    as [d' [E [_ [_ [Hidle _]]]]].
  exists d'. split; [exact E |].
  assert (En : entry d' c cmp = entry d c cmp) by (apply Hidle; tauto).
  unfold entry in En. now injection En.
Qed.

(** ** NULL blobs and absent components *)

Lemma subtract_P_nothing_allocated (ft : field_type) (f_minus_p : field_table)
  (d : lorentzian_data) :
  (forall ec cmp, In ec (FOR_FT_COMPONENTS ft) -> P d ec cmp = None) ->
  subtract_P ft f_minus_p (Some d) = Ok f_minus_p.
Proof.
  intros Hnone. unfold subtract_P. simpl.
  destruct (fold_res_invariant
              (fun fmp ec =>
                 fold_res
                   (fun fmp cmp =>
                      match P d ec cmp with
                      | None => Ok fmp
                      | Some p =>
                          let dc :=
                            field_type_component
                              (if field_type_eq_dec ft E_stuff
                               then D_stuff else B_stuff) ec in
                          match fmp dc cmp with
                          | None => Ok fmp
                          | Some a =>
                              Ok (set_entry fmp dc cmp
                                    (Some (fold_left
                                             (fun a i => sub_at a i (p i))
                                             (map Z.of_nat (seq 0 (ntot d)))
                                             a)))
                          end
                      end)
                   DOCMP2 fmp)
              (fun fmp => fmp = f_minus_p) (FOR_FT_COMPONENTS ft))
    with (s := f_minus_p) as [fmp' [E ->]]; auto.
  intros fmp ec Hin ->. exists f_minus_p. split; [| reflexivity].
  unfold DOCMP2. simpl. now rewrite !Hnone.
Qed.

(** C6. What the three functions do with a NULL blob and with an
    absent component: [cinternal_notowned_ptr] tests the blob and
    returns NULL; [subtract_P] and [num_cinternal_notowned_needed]
    dereference the blob at once, [d->ntot] and [d->P[c][0]], so a NULL
    blob is a fault there.  On a blob that is there, an absent
    component is skipped by all three. *)
Theorem null_blob_handling :
  (forall ft f_minus_p, subtract_P ft f_minus_p None = Fault NullDeref)
  /\ (forall c, num_cinternal_notowned_needed c None = Fault NullDeref)
  /\ (forall inotowned c cmp n,
        cinternal_notowned_ptr inotowned c cmp n None = None)
  /\ (forall ft f_minus_p d,
        (forall ec cmp, In ec (FOR_FT_COMPONENTS ft) -> P d ec cmp = None) ->
        subtract_P ft f_minus_p (Some d) = Ok f_minus_p)
  /\ (forall c d, P d c 0%nat = None ->
        num_cinternal_notowned_needed c (Some d) = Ok 0%Z)
  /\ (forall inotowned c cmp n d, P d c cmp = None ->
        cinternal_notowned_ptr inotowned c cmp n (Some d) = None).
Proof.
  repeat split; try reflexivity.
  - intros ft f_minus_p d Hn. now apply subtract_P_nothing_allocated.
  - intros c d E. unfold num_cinternal_notowned_needed. simpl. now rewrite E.
  - intros i c cmp n d E. unfold cinternal_notowned_ptr. now rewrite E.
Qed.

(** ** dump_params *)

Lemma skew_tensor_entries (bn : vec) :
  skew_tensor bn 1%Z 2%Z = vec_x bn
  /\ skew_tensor bn 2%Z 0%Z = vec_y bn
  /\ skew_tensor bn 0%Z 1%Z = vec_z bn
  /\ skew_tensor bn 2%Z 1%Z = - vec_x bn
  /\ skew_tensor bn 0%Z 2%Z = - vec_y bn
  /\ skew_tensor bn 1%Z 0%Z = - vec_z bn
  /\ skew_tensor bn 0%Z 0%Z = 0
  /\ skew_tensor bn 1%Z 1%Z = 0
  /\ skew_tensor bn 2%Z 2%Z = 0.
Proof.
  unfold skew_tensor, mat3_set, mat3_zero, iX, iY, iZ.
  rewrite X_value, Y_value, Z_value. simpl. repeat split; reflexivity.
Qed.

Lemma gyrotropic_dump_params_tensor (sus : gyrotropic_susceptibility)
  (h5f : h5file) (start : Z) :
  gyrotropic_dump_params sus h5f start
  = (h5f ++ [(start, [8; IZR (get_id sus);
                      gyro_tensor sus 1%Z 2%Z; gyro_tensor sus 2%Z 0%Z;
                      gyro_tensor sus 0%Z 1%Z;
                      alpha sus; omega_0 sus; gamma sus;
                      double_of_bool (no_omega_0_denominator sus)])],
     (start + 9)%Z).
Proof.
  unfold gyrotropic_dump_params, iX, iY, iZ.
  rewrite X_value, Y_value, Z_value. reflexivity.
Qed.

Lemma gyrotropic_dump_params_ctor (base : susceptibility) (bias : vec)
  (a o g : R) (h5f : h5file) (start : Z) :
  gyrotropic_dump_params (gyrotropic_ctor base bias a o g) h5f start
  = (h5f ++ [(start, [8; IZR (get_id base);
                      vec_x bias / Rmax (vec_abs bias) 1e-10;
                      vec_y bias / Rmax (vec_abs bias) 1e-10;
                      vec_z bias / Rmax (vec_abs bias) 1e-10;
                      a; o; g; 0])],
     (start + 9)%Z).
Proof.
  rewrite gyrotropic_dump_params_tensor. simpl.
  destruct (skew_tensor_entries (vec_div bias (Rmax (vec_abs bias) 1e-10)))
    as [Ex [Ey [Ez _]]].
  rewrite Ex, Ey, Ez. reflexivity.
Qed.

(** The bias divided by [max(|bias|, 1e-10)] is the bias itself exactly
    when its length is one or it is zero. *)
Lemma normalised_bias_same (bias : vec) :
  (vec_x bias / Rmax (vec_abs bias) 1e-10 = vec_x bias
   /\ vec_y bias / Rmax (vec_abs bias) 1e-10 = vec_y bias
   /\ vec_z bias / Rmax (vec_abs bias) 1e-10 = vec_z bias)
  <-> (vec_abs bias = 1
       \/ (vec_x bias = 0 /\ vec_y bias = 0 /\ vec_z bias = 0)).
Proof.
  assert (Hm0 : 0 < Rmax (vec_abs bias) 1e-10).
  { pose proof (Rmax_r (vec_abs bias) 1e-10). lra. }
  assert (Hmax : Rmax (vec_abs bias) 1e-10 = 1 <-> vec_abs bias = 1).
  { unfold Rmax. destruct (Rle_dec (vec_abs bias) 1e-10); lra. }
  revert Hm0 Hmax. generalize (Rmax (vec_abs bias) 1e-10). intros m Hm Hmax.
  assert (Hsame : forall x, x / m = x <-> (m = 1 \/ x = 0)).
  { intros x. split.
    - intros E. destruct (Req_dec_T m 1) as [E1 | N1]; [now left | right].
      assert (E2 : x = x / m * m) by (field; lra).
      rewrite E in E2.
      assert (E3 : x * (m - 1) = 0) by lra.
      apply Rmult_integral in E3. destruct E3 as [E3 | E3]; lra.
    - intros [-> | ->]; [field | unfold Rdiv; ring]. }
  split.
  - intros [Ex [Ey Ez]].
    apply Hsame in Ex. apply Hsame in Ey. apply Hsame in Ez.
    destruct (Req_dec_T m 1) as [E1 | N1].
    + left. now apply Hmax.
    + right. repeat split;
        [destruct Ex | destruct Ey | destruct Ez]; auto; contradiction.
  - intros [E | [Ex [Ey Ez]]].
    + assert (E1 : m = 1) by (now apply Hmax).
      repeat split; apply Hsame; now left.
    + repeat split; apply Hsame; now right.
Qed.

(** C9. Every [dump_params] writes one chunk at [*start] and advances
    [*start] by its length: the Lorentzian term the 5 values
    (4, id, omega_0, gamma, flag), the noisy term the 6 values
    (5, id, noise_amp, omega_0, gamma, flag), the gyrotropic term the 9
    values (8, id, bx, by, bz, alpha, omega_0, gamma, flag), where
    bx, by, bz are the stored tensor entries [gyro_tensor[Y][Z]],
    [gyro_tensor[Z][X]], [gyro_tensor[X][Y]]: for a term built by the
    constructor, the components of the bias divided by
    [max(|bias|, 1e-10)], which are the supplied components exactly when
    the bias has length one or is zero. *)
Theorem dump_params_records :
  (forall (sus : lorentzian_susceptibility) h5f start,
     lorentzian_dump_params sus h5f start
     = (h5f ++ [(start, [4; IZR (get_id sus); omega_0 sus; gamma sus;
                         double_of_bool (no_omega_0_denominator sus)])],
        (start + 5)%Z))
  /\ (forall (sus : noisy_lorentzian_susceptibility) h5f start,
     noisy_dump_params sus h5f start
     = (h5f ++ [(start, [5; IZR (get_id sus); noise_amp sus; omega_0 sus;
                         gamma sus;
                         double_of_bool (no_omega_0_denominator sus)])],
        (start + 6)%Z))
  /\ (forall (sus : gyrotropic_susceptibility) h5f start,
     gyrotropic_dump_params sus h5f start
     = (h5f ++ [(start, [8; IZR (get_id sus);
                         gyro_tensor sus 1%Z 2%Z; gyro_tensor sus 2%Z 0%Z;
                         gyro_tensor sus 0%Z 1%Z;
                         alpha sus; omega_0 sus; gamma sus;
                         double_of_bool (no_omega_0_denominator sus)])],
        (start + 9)%Z))
  /\ (forall base bias a o g h5f start,
     gyrotropic_dump_params (gyrotropic_ctor base bias a o g) h5f start
     = (h5f ++ [(start, [8; IZR (get_id base);
                         vec_x bias / Rmax (vec_abs bias) 1e-10;
                         vec_y bias / Rmax (vec_abs bias) 1e-10;
                         vec_z bias / Rmax (vec_abs bias) 1e-10;
                         a; o; g; 0])],
        (start + 9)%Z))
  /\ (forall base bias a o g h5f start,
     gyrotropic_dump_params (gyrotropic_ctor base bias a o g) h5f start
     = (h5f ++ [(start, [8; IZR (get_id base);
                         vec_x bias; vec_y bias; vec_z bias;
                         a; o; g; 0])],
        (start + 9)%Z)
     <-> (vec_abs bias = 1
          \/ (vec_x bias = 0 /\ vec_y bias = 0 /\ vec_z bias = 0))).
Proof.
  split; [reflexivity |]. split; [reflexivity |].
  split; [apply gyrotropic_dump_params_tensor |].
  split; [apply gyrotropic_dump_params_ctor |].
  intros base bias a o g h5f start.
  rewrite gyrotropic_dump_params_ctor, <- normalised_bias_same.
  split.
  - intros E. injection E as E. apply app_inv_head in E.
    injection E as Ex Ey Ez. auto.
  - intros [Ex [Ey Ez]]. now rewrite Ex, Ey, Ez.
Qed.

(** ** The closed-form inverse of the gyrotropic update *)

Lemma gyro_inverse_entries (ub vb : R) (t : mat3) :
  let gx := vb * t 1%Z 2%Z in
  let gy := vb * t 2%Z 0%Z in
  let gz := vb * t 0%Z 1%Z in
  let invdet := 1 / ub / (ub * ub + gx * gx + gy * gy + gz * gz) in
  let inv := gyro_inverse ub vb t in
  inv 0%Z 0%Z = invdet * (ub * ub + gx * gx)
  /\ inv 1%Z 1%Z = invdet * (ub * ub + gy * gy)
  /\ inv 2%Z 2%Z = invdet * (ub * ub + gz * gz)
  /\ inv 0%Z 1%Z = invdet * (gx * gy - ub * gz)
  /\ inv 1%Z 0%Z = invdet * (gy * gx + ub * gz)
  /\ inv 2%Z 0%Z = invdet * (gz * gx - ub * gy)
  /\ inv 0%Z 2%Z = invdet * (gx * gz + ub * gy)
  /\ inv 1%Z 2%Z = invdet * (gy * gz - ub * gx)
  /\ inv 2%Z 1%Z = invdet * (gz * gy + ub * gx).
Proof.
  unfold gyro_inverse, mat3_set, mat3_zero, iX, iY, iZ.
  rewrite X_value, Y_value, Z_value. simpl. repeat split; reflexivity.
Qed.

Lemma index3_cases (i : Z) :
  (0 <= i < 3)%Z -> i = 0%Z \/ i = 1%Z \/ i = 2%Z.
Proof. lia. Qed.

(** The closed form is the two-sided inverse of [ub I + vb T]. *)
Lemma gyro_inverse_code_system (ub vb : R) (bn : vec) (i j : Z) :
  ub <> 0 -> (0 <= i < 3)%Z -> (0 <= j < 3)%Z ->
  mat3_mul (gyro_inverse ub vb (skew_tensor bn))
           (code_system_matrix ub vb (skew_tensor bn)) i j = mat3_id i j
  /\ mat3_mul (code_system_matrix ub vb (skew_tensor bn))
              (gyro_inverse ub vb (skew_tensor bn)) i j = mat3_id i j.
Proof.
  intros Hub Hi Hj.
  destruct (gyro_inverse_entries ub vb (skew_tensor bn))
    as [I00 [I11 [I22 [I01 [I10 [I20 [I02 [I12 I21]]]]]]]].
  destruct (skew_tensor_entries bn)
    as [T12 [T20 [T01 [T21 [T02 [T10 [T00 [T11 T22]]]]]]]].
  assert (Hd : ub * ub + vb * vec_x bn * (vb * vec_x bn)
               + vb * vec_y bn * (vb * vec_y bn)
               + vb * vec_z bn * (vb * vec_z bn) <> 0) by nra.
  cbv zeta in I00, I11, I22, I01, I10, I20, I02, I12, I21.
  rewrite T12, T20, T01 in I00, I11, I22, I01, I10, I20, I02, I12, I21.
  destruct (index3_cases i Hi) as [-> | [-> | ->]];
    destruct (index3_cases j Hj) as [-> | [-> | ->]];
    unfold mat3_mul, code_system_matrix, mat3_id; simpl;
    rewrite ?I00, ?I11, ?I22, ?I01, ?I10, ?I20, ?I02, ?I12, ?I21,
      ?T12, ?T20, ?T01, ?T21, ?T02, ?T10, ?T00, ?T11, ?T22;
    split; field; split; assumption.
Qed.

(** C2. The closed-form 3x3 matrix of the gyrotropic [update_P], with
    [det = ub (ub^2 + gx^2 + gy^2 + gz^2)], diagonal entries
    [(ub^2 + g_i^2) / det] and off-diagonal entries
    [(g_i g_j -/+ ub g_k) / det], is for every [ub <> 0] and every
    [gx], [gy], [gz] the exact two-sided inverse of [ub I + G], where
    [G = vb * gyro_tensor] is the skew-symmetric matrix with
    [G[Y][Z] = gx], [G[Z][X] = gy], [G[X][Y] = gz]; that is, of
    [ub I - G^T]. *)
Theorem gyro_inverse_exact (ub vb : R) (bn : vec) (i j : Z) :
  ub <> 0 -> (0 <= i < 3)%Z -> (0 <= j < 3)%Z ->
  mat3_mul (gyro_inverse ub vb (skew_tensor bn))
           (code_system_matrix ub vb (skew_tensor bn)) i j = mat3_id i j
  /\ mat3_mul (code_system_matrix ub vb (skew_tensor bn))
              (gyro_inverse ub vb (skew_tensor bn)) i j = mat3_id i j
  /\ code_system_matrix ub vb (skew_tensor bn) i j
     = ub * mat3_id i j - vb * skew_tensor bn j i.
Proof.
  intros Hub Hi Hj.
  destruct (gyro_inverse_code_system ub vb bn i j Hub Hi Hj) as [L R].
  split; [exact L |]. split; [exact R |].
  destruct (skew_tensor_entries bn)
    as [T12 [T20 [T01 [T21 [T02 [T10 [T00 [T11 T22]]]]]]]].
  unfold code_system_matrix.
  destruct (index3_cases i Hi) as [-> | [-> | ->]];
    destruct (index3_cases j Hj) as [-> | [-> | ->]];
    rewrite ?T12, ?T20, ?T01, ?T21, ?T02, ?T10, ?T00, ?T11, ?T22; ring.
Qed.

(** ** Equal contents *)

Lemma ptr_eq_refl (a : ptr) : ptr_eq a a.
Proof. destruct a; simpl; auto. Qed.

Lemma data_eq_refl (d : lorentzian_data) : data_eq d d.
Proof. split; [reflexivity |]. intros c k. split; apply ptr_eq_refl. Qed.

(** ** The gyrotropic update without bias *)
Section GyrotropicZero.

Variable sus : gyrotropic_susceptibility.
Variable dt : R.
Variable W : field_table.
Variable gv : grid_volume.

Hypothesis tensor_zero : forall i j,
  in_range3 i = true -> in_range3 j = true -> gyro_tensor sus i j = 0.
Hypothesis ub_nonzero : ub sus dt <> 0.
Hypothesis owned_once : forall c, NoDup (owned gv c).

Lemma cartesian_in_range (d0 : direction) :
  not_cartesian d0 = false -> in_range3 (direction_value d0) = true.
Proof.
  unfold not_cartesian, iX, iY, iZ. rewrite X_value, Y_value, Z_value.
  destruct (Z.eqb_spec (direction_value d0) 0) as [-> | _]; [reflexivity |].
  destruct (Z.eqb_spec (direction_value d0) 1) as [-> | _]; [reflexivity |].
  destruct (Z.eqb_spec (direction_value d0) 2) as [-> | _]; [reflexivity |].
  discriminate.
Qed.

Lemma tensor_read_zero (i j : Z) :
  in_range3 i = true -> in_range3 j = true ->
  mat3_get (gyro_tensor sus) i j = Ok 0.
Proof.
  intros Hi Hj. unfold mat3_get. rewrite Hi, Hj. simpl.
  now rewrite tensor_zero.
Qed.

Lemma gyro_body1_zero (p : array) (p1 p2 w1 w2 s1 s2 : ptr) :
  (w1 <> None -> s1 <> None) -> (w2 <> None -> s2 <> None) ->
  forall pp i, pp <> None ->
  exists pp',
    gyro_body1 sus dt p p1 p2 w1 w2 s1 s2
      (va sus dt * 0) (va sus dt * 0) (2 * pi * dt * 0) (2 * pi * dt * 0) pp i
    = Ok pp'
    /\ pp' <> None
    /\ (forall j, j <> i -> ptr_at pp' j = ptr_at pp j)
    /\ ptr_at pp' i = ua sus dt * p i.
Proof.
  intros M1 M2 [ppa |] i Hpp; [| now elim Hpp].
  unfold gyro_body1.
  destruct w1 as [w1a |]; [destruct s1 as [s1a |];
                           [| elim M1; [discriminate | reflexivity]] |];
    (destruct w2 as [w2a |]; [destruct s2 as [s2a |];
                              [| elim M2; [discriminate | reflexivity]] |]);
    destruct p1 as [p1a |]; destruct p2 as [p2a |]; simpl;
    (eexists; split; [reflexivity |]; split; [discriminate |]; split;
     [intros j Hj; simpl;
      now rewrite ?add_at_other, ?upd_other by assumption
     | simpl; rewrite ?add_at_same, ?upd_same; ring]).
Qed.

Lemma gyro_pass1_idle (c : component) (k : nat) (d : lorentzian_data) :
  P d c k = None \/ W c k = None ->
  gyro_pass1_component sus dt W gv c k d = Ok d.
Proof.
  unfold gyro_pass1_component.
  destruct (P d c k); [| reflexivity].
  destruct (W c k); [| reflexivity].
  intros [E | E]; discriminate.
Qed.

Lemma gyro_pass1_frame (c : component) (k : nat) (d d' : lorentzian_data) :
  gyro_pass1_component sus dt W gv c k d = Ok d' ->
  P d' = P d /\ ntot d' = ntot d
  /\ forall c' k', c' <> c \/ k' <> k -> P_prev d' c' k' = P_prev d c' k'.
Proof.
  unfold gyro_pass1_component. intros E.
  destruct (P d c k) as [p |]; [| now inversion E].
  destruct (W c k) as [w |]; [| now inversion E].
  destruct (not_cartesian (component_direction c)); [discriminate |].
  apply bind_Ok in E. destruct E as [t1 [_ E]].
  apply bind_Ok in E. destruct E as [t2 [_ E]].
  apply bind_Ok in E. destruct E as [pp' [_ E]].
  inversion E; subst. simpl. repeat split.
  intros c' k' Hd. now rewrite set_entry_other.
Qed.

Lemma gyro_pass1_active (c : component) (k : nat) (d : lorentzian_data)
  (p w ppa : array) :
  P d c k = Some p -> W c k = Some w -> gyro_ready sus W gv c k ->
  P_prev d c k = Some ppa ->
  exists pp',
    gyro_pass1_component sus dt W gv c k d
    = Ok {| ntot := ntot d;
            P := P d;
            P_prev := set_entry (P_prev d) c k (Some pp') |}
    /\ (forall j, In j (owned gv c) -> pp' j = ua sus dt * p j)
    /\ (forall j, ~ In j (owned gv c) -> pp' j = ppa j).
Proof.
  intros EP EW [Hc [R1 [R2 [_ [_ [S1 S2]]]]]] EPP.
  unfold gyro_pass1_component. rewrite EP, EW, Hc, EPP. cbv beta iota zeta.
  rewrite !tensor_read_zero by (auto using cartesian_in_range).
  unfold bind at 1 2.
  match goal with
  | |- context [fold_res (gyro_body1 _ _ ?p_ ?p1 ?p2 ?w1 ?w2 ?s1 ?s2 _ _ _ _)
                         ?xs ?st0] =>
      destruct (pointwise_loop ptr R ptr_at (fun pp => pp <> None)
                  (gyro_body1 sus dt p_ p1 p2 w1 w2 s1 s2
                     (va sus dt * 0) (va sus dt * 0)
                     (2 * pi * dt * 0) (2 * pi * dt * 0))
                  (fun i _ v' => v' = ua sus dt * p_ i))
        with (l := xs) (s := st0) as [[pp' |] [E [Hnn [Hout Hin]]]]
  end.
  - intros pp i Hpp.
    destruct (gyro_body1_zero p (P d (direction_component c
                 (cycle_direction (dim gv) (component_direction c) 1)) k)
                (P d (direction_component c
                 (cycle_direction (dim gv) (component_direction c) 2)) k)
                (W (direction_component c
                 (cycle_direction (dim gv) (component_direction c) 1)) k)
                (W (direction_component c
                 (cycle_direction (dim gv) (component_direction c) 2)) k)
                (if non_null (W (direction_component c
                   (cycle_direction (dim gv) (component_direction c) 1)) k)
                 then sigma sus (direction_component c
                   (cycle_direction (dim gv) (component_direction c) 1))
                   (cycle_direction (dim gv) (component_direction c) 1)
                 else None)
                (if non_null (W (direction_component c
                   (cycle_direction (dim gv) (component_direction c) 2)) k)
                 then sigma sus (direction_component c
                   (cycle_direction (dim gv) (component_direction c) 2))
                   (cycle_direction (dim gv) (component_direction c) 2)
                 else None))
      with (pp := pp) (i := i) as [pp' H'].
    + intros Hw.
      destruct (W (direction_component c
                  (cycle_direction (dim gv) (component_direction c) 1)) k)
        eqn:E1; [simpl; apply S1; congruence | now elim Hw].
    + intros Hw.
      destruct (W (direction_component c
                  (cycle_direction (dim gv) (component_direction c) 2)) k)
        eqn:E2; [simpl; apply S2; congruence | now elim Hw].
    + exact Hpp.
    + exists pp'. exact H'.
  - apply owned_once.
  - discriminate.
  - rewrite E. simpl. exists pp'. split; [reflexivity |]. split.
    + intros j Hj. apply (Hin j Hj).
    + intros j Hj. apply (Hout j Hj).
  - now elim Hnn.
Qed.

(** The first pass: every advanced entry gets [ua * P] in [P_prev];
    [P] is only read. *)
Lemma gyro_pass1_spec (d : lorentzian_data) :
  wf_data d ->
  (forall c k, In c FOR_COMPONENTS -> In k DOCMP2 ->
     P d c k <> None -> W c k <> None -> gyro_ready sus W gv c k) ->
  exists d1,
    for_components_docmp2 (gyro_pass1_component sus dt W gv) d = Ok d1
    /\ wf_data d1 /\ P d1 = P d
    /\ forall c k p, In c FOR_COMPONENTS -> In k DOCMP2 ->
       P d c k = Some p -> W c k <> None ->
       exists pp', P_prev d1 c k = Some pp'
                   /\ forall i, In i (owned gv c) -> pp' i = ua sus dt * p i.
Proof.
  intros Hd Hready.
  destruct (for_components_spec lorentzian_data ptr
              (fun d0 c k => P_prev d0 c k)
              (gyro_pass1_component sus dt W gv)
              (fun d0 => wf_data d0 /\ P d0 = P d))
    with (s := d) as [d1 [E [[Hwf HP] [_ Hin]]]].
  - intros c k s Hc Hk [Hs HPs].
    destruct (P s c k) as [p |] eqn:EP;
      [| exists s; split; [apply gyro_pass1_idle; now left | now split]].
    destruct (W c k) as [w |] eqn:EW;
      [| exists s; split; [apply gyro_pass1_idle; now right | now split]].
    destruct (P_prev s c k) as [ppa |] eqn:EPP;
      [| elim (Hs c k); [rewrite EP; discriminate | exact EPP]].
    destruct (gyro_pass1_active c k s p w ppa EP EW) as [pp' [E _]]; auto.
    { apply Hready; auto; rewrite <- ?HPs, ?EP, ?EW; discriminate. }
    eexists. split; [exact E |]. split; [| exact HPs].
    intros c' k'. simpl. intros Hn.
    destruct (component_eq_dec c' c) as [-> | n].
    + destruct (Nat.eq_dec k' k) as [-> | n'].
      * rewrite set_entry_same. discriminate.
      * rewrite set_entry_other by tauto. now apply Hs.
    + rewrite set_entry_other by tauto. now apply Hs.
  - intros c k s s' _ E c' k' Hd'.
    destruct (gyro_pass1_frame c k s s' E) as [_ [_ F]]. now apply F.
  - now split.
  - exists d1. split; [exact E |]. split; [exact Hwf |]. split; [exact HP |].
    intros c k p Hc Hk EP HW.
    destruct (Hin c k Hc Hk) as [s1 [s2 [[Hs1 HP1] [E1 [St E2]]]]].
    destruct (W c k) as [w |] eqn:EW; [| now elim HW].
    assert (EP1 : P s1 c k = Some p) by (now rewrite HP1).
    destruct (P_prev s1 c k) as [ppa |] eqn:EPP;
      [| elim (Hs1 c k); [rewrite EP1; discriminate | exact EPP]].
    destruct (gyro_pass1_active c k s1 p w ppa EP1 EW) as [pp' [E' [Hv _]]];
      auto.
    { apply Hready; auto; rewrite ?EP, ?EW; discriminate. }
    rewrite St in E'. injection E' as ->.
    exists pp'. split; [| exact Hv].
    rewrite E2. simpl. now rewrite set_entry_same.
Qed.

Lemma in_range3_bounds (i : Z) : in_range3 i = true -> (0 <= i < 3)%Z.
Proof.
  unfold in_range3. intros E. apply andb_prop in E. destruct E as [E1 E2].
  apply Z.leb_le in E1. apply Z.ltb_lt in E2. lia.
Qed.

(** Without bias the closed-form inverse is [(1 / ub) I]. *)
Lemma gyro_inverse_zero (i j : Z) :
  in_range3 i = true -> in_range3 j = true ->
  gyro_inverse (ub sus dt) (vb sus dt) (gyro_tensor sus) i j
  = if Z.eqb i j then 1 / ub sus dt else 0.
Proof.
  intros Hi Hj.
  destruct (gyro_inverse_entries (ub sus dt) (vb sus dt) (gyro_tensor sus))
    as [I00 [I11 [I22 [I01 [I10 [I20 [I02 [I12 I21]]]]]]]].
  cbv zeta in I00, I11, I22, I01, I10, I20, I02, I12, I21.
  rewrite !tensor_zero in I00, I11, I22, I01, I10, I20, I02, I12, I21
    by reflexivity.
  destruct (index3_cases i (in_range3_bounds i Hi)) as [-> | [-> | ->]];
    destruct (index3_cases j (in_range3_bounds j Hj)) as [-> | [-> | ->]];
    simpl;
    rewrite ?I00, ?I11, ?I22, ?I01, ?I10, ?I20, ?I02, ?I12, ?I21;
    field; repeat split; try exact ub_nonzero;
    pose proof ub_nonzero; nra.
Qed.

Lemma gyro_body2_zero (d0 d1 d2 : direction) (ppa : array) (pp1 pp2 : ptr) :
  in_range3 (direction_value d0) = true ->
  in_range3 (direction_value d1) = true ->
  in_range3 (direction_value d2) = true ->
  direction_value d1 <> direction_value d0 ->
  direction_value d2 <> direction_value d0 ->
  forall p i, True ->
  exists p',
    gyro_body2 (gyro_inverse (ub sus dt) (vb sus dt) (gyro_tensor sus))
      d0 d1 d2 (Some ppa) pp1 pp2 p i = Ok p'
    /\ True
    /\ (forall j, j <> i -> p' j = p j)
    /\ p' i = 1 / ub sus dt * ppa i.
Proof.
  intros R0 R1 R2 N1 N2 p i _. unfold gyro_body2, mat3_get.
  rewrite R0, R1, R2. simpl.
  rewrite !gyro_inverse_zero by assumption.
  rewrite Z.eqb_refl.
  destruct (Z.eqb_spec (direction_value d0) (direction_value d1)) as [E | _];
    [now elim N1 |].
  destruct (Z.eqb_spec (direction_value d0) (direction_value d2)) as [E | _];
    [now elim N2 |].
  destruct pp1 as [pp1a |], pp2 as [pp2a |]; simpl;
    (eexists; split; [reflexivity |]; split; [exact I |]; split;
     [intros j Hj; now rewrite ?add_at_other, ?upd_other by assumption
     | rewrite ?add_at_same, ?upd_same; ring]).
Qed.

Lemma gyro_pass2_idle (c : component) (k : nat) (d : lorentzian_data) :
  P d c k = None \/ W c k = None
  \/ sigma sus c (component_direction c) = None ->
  gyro_pass2_component sus dt W gv c k d = Ok d.
Proof.
  unfold gyro_pass2_component.
  destruct (P d c k); [| reflexivity].
  destruct (W c k); simpl; [| reflexivity].
  destruct (sigma sus c (component_direction c)); simpl; [| reflexivity].
  intros [E | [E | E]]; discriminate.
Qed.

Lemma gyro_pass2_frame (c : component) (k : nat) (d d' : lorentzian_data) :
  gyro_pass2_component sus dt W gv c k d = Ok d' ->
  P_prev d' = P_prev d
  /\ (forall c' k', c' <> c \/ k' <> k -> P d' c' k' = P d c' k')
  /\ (forall c' k', P d' c' k' <> None -> P d c' k' <> None).
Proof.
  unfold gyro_pass2_component. intros E.
  destruct (P d c k) as [p |] eqn:EP; [| inversion E; subst; auto].
  destruct (non_null (W c k) && non_null (sigma sus c (component_direction c)))%bool;
    [| inversion E; subst; auto].
  apply bind_Ok in E. destruct E as [p' [_ E]].
  inversion E; subst. simpl. split; [reflexivity |]. split.
  - intros c' k' Hd. now rewrite set_entry_other.
  - intros c' k'.
    destruct (component_eq_dec c' c) as [-> | n].
    + destruct (Nat.eq_dec k' k) as [-> | n'].
      * intros _. rewrite EP. discriminate.
      * now rewrite set_entry_other by tauto.
    + now rewrite set_entry_other by tauto.
Qed.

Lemma gyro_pass2_active (c : component) (k : nat) (d : lorentzian_data)
  (p ppa : array) :
  P d c k = Some p -> W c k <> None ->
  sigma sus c (component_direction c) <> None ->
  gyro_ready sus W gv c k -> P_prev d c k = Some ppa ->
  exists p',
    gyro_pass2_component sus dt W gv c k d
    = Ok {| ntot := ntot d;
            P := set_entry (P d) c k (Some p');
            P_prev := P_prev d |}
    /\ (forall j, In j (owned gv c) -> p' j = 1 / ub sus dt * ppa j)
    /\ (forall j, ~ In j (owned gv c) -> p' j = p j).
Proof.
  intros EP HW HS [Hc [R1 [R2 [N1 [N2 _]]]]] EPP.
  unfold gyro_pass2_component. rewrite EP, EPP.
  destruct (W c k) as [w |]; [| now elim HW].
  destruct (sigma sus c (component_direction c)) as [s |]; [| now elim HS].
  cbv beta iota zeta. simpl (non_null _ && non_null _)%bool. cbv iota.
  match goal with
  | |- context [fold_res (gyro_body2 ?inv ?d0 ?d1 ?d2 _ ?pp1 ?pp2) ?xs ?st0] =>
      destruct (pointwise_loop array R (fun a j => a j) (fun _ => True)
                  (gyro_body2 inv d0 d1 d2 (Some ppa) pp1 pp2)
                  (fun i _ v' => v' = 1 / ub sus dt * ppa i)
                  (gyro_body2_zero d0 d1 d2 ppa pp1 pp2
                     (cartesian_in_range d0 Hc) R1 R2 N1 N2)
                  xs (owned_once c) st0 I)
        as [p' [E [_ [Hout Hin]]]]
  end.
  rewrite E. simpl. exists p'. split; [reflexivity |]. split.
  - intros j Hj. apply (Hin j Hj).
  - intros j Hj. apply (Hout j Hj).
Qed.

(** The second pass, from a blob [d1] that the first pass left: every
    entry whose field and diagonal sigma are there gets
    [(1 / ub) * P_prev] in [P]; [P_prev] is only read. *)
Lemma gyro_pass2_spec (d1 : lorentzian_data) :
  wf_data d1 ->
  (forall c k, In c FOR_COMPONENTS -> In k DOCMP2 ->
     P d1 c k <> None -> W c k <> None -> gyro_ready sus W gv c k) ->
  exists d2,
    for_components_docmp2 (gyro_pass2_component sus dt W gv) d1 = Ok d2
    /\ P_prev d2 = P_prev d1
    /\ forall c k p, In c FOR_COMPONENTS -> In k DOCMP2 ->
       P d1 c k = Some p -> W c k <> None ->
       (sigma sus c (component_direction c) = None -> P d2 c k = Some p)
       /\ (sigma sus c (component_direction c) <> None ->
           forall ppa, P_prev d1 c k = Some ppa ->
           exists p', P d2 c k = Some p'
             /\ forall i, In i (owned gv c) -> p' i = 1 / ub sus dt * ppa i).
Proof.
  intros Hd Hready.
  destruct (for_components_spec lorentzian_data ptr
              (fun d0 c k => P d0 c k)
              (gyro_pass2_component sus dt W gv)
              (fun d0 => P_prev d0 = P_prev d1
                         /\ forall c k, P d0 c k <> None -> P d1 c k <> None))
    with (s := d1) as [d2 [E [[HPP Hal] [_ Hin]]]].
  - intros c k s Hc Hk [HPs Hals].
    destruct (P s c k) as [p |] eqn:EP;
      [| exists s; split; [apply gyro_pass2_idle; now left | now split]].
    destruct (W c k) as [w |] eqn:EW;
      [| exists s; split; [apply gyro_pass2_idle; tauto | now split]].
    destruct (sigma sus c (component_direction c)) as [sg |] eqn:ES;
      [| exists s; split; [apply gyro_pass2_idle; tauto | now split]].
    assert (Hal1 : P d1 c k <> None) by (apply Hals; rewrite EP; discriminate).
    destruct (P_prev s c k) as [ppa |] eqn:EPP;
      [| elim (Hd c k Hal1); now rewrite <- HPs].
    destruct (gyro_pass2_active c k s p ppa EP) as [p' [E _]]; auto;
      try (rewrite ?EW, ?ES; discriminate).
    { apply Hready; auto. rewrite EW. discriminate. }
    eexists. split; [exact E |]. simpl. split; [exact HPs |].
    intros c' k'.
    destruct (component_eq_dec c' c) as [-> | n].
    + destruct (Nat.eq_dec k' k) as [-> | n'].
      * intros _. exact Hal1.
      * rewrite set_entry_other by tauto. apply Hals.
    + rewrite set_entry_other by tauto. apply Hals.
  - intros c k s s' _ E c' k' Hd'.
    destruct (gyro_pass2_frame c k s s' E) as [_ [F _]]. now apply F.
  - split; [reflexivity | auto].
  - exists d2. split; [exact E |]. split; [exact HPP |].
    intros c k p Hc Hk EP HW.
    destruct (Hin c k Hc Hk) as [s1 [s2 [[HPs Hals] [E1 [St E2]]]]].
    rewrite EP in E1. split.
    + intros ES. rewrite gyro_pass2_idle in St by tauto.
      injection St as <-. now rewrite E2.
    + intros ES ppa EPP.
      destruct (gyro_pass2_active c k s1 p ppa E1 HW ES) as [p' [E' [Hv _]]].
      * apply Hready; auto. rewrite EP. discriminate.
      * now rewrite HPs.
      * rewrite St in E'. injection E' as ->.
        exists p'. split; [| exact Hv].
        rewrite E2. simpl. now rewrite set_entry_same.
Qed.

(** One call of the gyrotropic [update_P] for a zero tensor. *)
Lemma gyrotropic_zero_update (W_prev : field_table) (d : lorentzian_data) :
  wf_data d ->
  (forall c k, In c FOR_COMPONENTS -> In k DOCMP2 ->
     P d c k <> None -> W c k <> None -> gyro_ready sus W gv c k) ->
  exists d',
    gyrotropic_update_P sus dt W W_prev gv (Some d) = Ok d'
    /\ forall c k p, In c FOR_COMPONENTS -> In k DOCMP2 ->
       P d c k = Some p -> W c k <> None ->
       (exists pp', P_prev d' c k = Some pp'
          /\ forall i, In i (owned gv c) -> pp' i = ua sus dt * p i)
       /\ (sigma sus c (component_direction c) = None -> P d' c k = Some p)
       /\ (sigma sus c (component_direction c) <> None ->
           exists p', P d' c k = Some p'
             /\ forall i, In i (owned gv c) ->
                p' i = 1 / ub sus dt * (ua sus dt * p i)).
Proof.
  intros Hd Hready.
  destruct (gyro_pass1_spec d Hd Hready) as [d1 [E1 [Hwf1 [HP1 Hv1]]]].
  destruct (gyro_pass2_spec d1 Hwf1) as [d2 [E2 [HPP2 Hv2]]].
  { intros c k Hc Hk. rewrite HP1. now apply Hready. }
  exists d2. split.
  { unfold gyrotropic_update_P. simpl. rewrite E1. simpl. exact E2. }
  intros c k p Hc Hk EP HW.
  destruct (Hv1 c k p Hc Hk EP HW) as [pp' [EPP Hpp]].
  assert (EP1 : P d1 c k = Some p) by (now rewrite HP1).
  destruct (Hv2 c k p Hc Hk EP1 HW) as [Hnone Hsome].
  split; [exists pp'; split; [now rewrite HPP2 | exact Hpp] |].
  split; [exact Hnone |].
  intros ES. destruct (Hsome ES pp' EPP) as [p' [EP' Hp']].
  exists p'. split; [exact EP' |].
  intros i Hi. rewrite (Hp' i Hi), (Hpp i Hi). reflexivity.
Qed.

End GyrotropicZero.

Lemma zero_bias_tensor (base : susceptibility) (a o g : R) (i j : Z) :
  in_range3 i = true -> in_range3 j = true ->
  gyro_tensor (gyrotropic_ctor base zero_bias a o g) i j = 0.
Proof.
  intros Hi Hj. simpl.
  destruct (skew_tensor_entries (vec_div zero_bias (Rmax (vec_abs zero_bias) 1e-10)))
    as [T12 [T20 [T01 [T21 [T02 [T10 [T00 [T11 T22]]]]]]]].
  destruct (index3_cases i (in_range3_bounds i Hi)) as [-> | [-> | ->]];
    destruct (index3_cases j (in_range3_bounds j Hj)) as [-> | [-> | ->]];
    rewrite ?T12, ?T20, ?T01, ?T21, ?T02, ?T10, ?T00, ?T11, ?T22;
    simpl; unfold Rdiv; ring.
Qed.

Lemma gyro_coefficients (sus : gyrotropic_susceptibility) (dt : R) :
  ua sus dt = 1 - pi * gamma sus * dt /\ ub sus dt = 1 + pi * gamma sus * dt.
Proof. unfold ua, ub, g2pi. split; lra. Qed.

(** C3. For a zero bias vector the gyrotropic [update_P] is not the
    Lorentzian recurrence: on a Cartesian grid, at each owned point of
    each entry whose field and diagonal sigma are there, one step puts
    [(1 - pi gamma dt) P] in [P_prev] and
    [(1 - pi gamma dt) / (1 + pi gamma dt) * P] in [P], whatever the
    values of sigma, of the field and of the old [P_prev] are (with
    [1 + pi gamma dt <> 0]). *)
Theorem gyrotropic_zero_bias_step (base : susceptibility) (a o g dt : R)
  (W W_prev : field_table) (gv : grid_volume) (d : lorentzian_data) :
  wf_data d ->
  1 + pi * g * dt <> 0 ->
  (forall c, NoDup (owned gv c)) ->
  (forall c k, In c FOR_COMPONENTS -> In k DOCMP2 ->
     P d c k <> None -> W c k <> None -> gyro_ready base W gv c k) ->
  exists d',
    gyrotropic_update_P (gyrotropic_ctor base zero_bias a o g) dt W W_prev gv
      (Some d) = Ok d'
    /\ forall c k p, In c FOR_COMPONENTS -> In k DOCMP2 ->
       P d c k = Some p -> W c k <> None ->
       sigma base c (component_direction c) <> None ->
       exists p' pp',
         P d' c k = Some p' /\ P_prev d' c k = Some pp'
         /\ forall i, In i (owned gv c) ->
            p' i = (1 - pi * g * dt) / (1 + pi * g * dt) * p i
            /\ pp' i = (1 - pi * g * dt) * p i.
Proof.
  intros Hd Hub Hnd Hready.
  destruct (gyro_coefficients (gyrotropic_ctor base zero_bias a o g) dt)
    as [Eua Eub].
  simpl in Eua, Eub.
  destruct (gyrotropic_zero_update (gyrotropic_ctor base zero_bias a o g) dt
              W gv (zero_bias_tensor base a o g))
    with (W_prev := W_prev) (d := d) as [d' [E Hv]]; auto.
  { rewrite Eub. exact Hub. }
  exists d'. split; [exact E |].
  intros c k p Hc Hk EP HW HS.
  destruct (Hv c k p Hc Hk EP HW) as [[pp' [EPP Hpp]] [_ Hsome]].
  destruct (Hsome HS) as [p' [EP' Hp']].
  exists p', pp'. split; [exact EP' |]. split; [exact EPP |].
  intros i Hi. rewrite (Hp' i Hi), (Hpp i Hi), Eua, Eub.
  split; [| reflexivity]. field. exact Hub.
Qed.

(** ** Allocation and safety *)

Lemma for_components_pure {S : Type} (f : component -> nat -> S -> S)
  (l : list component) (s : S) :
  fold_res (fun s c => fold_res (fun s k => Ok (f c k s)) DOCMP2 s) l s
  = Ok (fold_left (fun s c => fold_left (fun s k => f c k s) DOCMP2 s) l s).
Proof.
  revert s. induction l as [| c l IH]; intros s; [reflexivity |].
  rewrite fold_res_cons, fold_res_pure. simpl. apply IH.
Qed.


(** X2. On a blob in which every allocated [P] has its [P_prev], the
    Lorentzian [update_P] does not fault, and the blob it leaves has
    the same layout: the same [ntot], the same allocated entries, each
    still with its [P_prev]. *)
Theorem lorentzian_update_P_safe (sus : lorentzian_susceptibility) (dt : R)
  (W W_prev : field_table) (gv : grid_volume) (d : lorentzian_data) :
  wf_data d ->
  exists d',
    lorentzian_update_P sus dt W W_prev gv (Some d) = Ok d'
    /\ wf_data d' /\ ntot d' = ntot d
    /\ forall c cmp, P d' c cmp = None <-> P d c cmp = None.
Proof.
  intros Hd.
  destruct (lorentzian_update_P_spec sus dt W gv W_prev d Hd)
    as [d' [E [Hwf [Hn [Hidle _]]]]].
  exists d'. split; [exact E |]. split; [exact Hwf |]. split; [exact Hn |].
  intros c cmp.
  unfold lorentzian_update_P in E. simpl in E.
  destruct (fold_res_invariant
              (fun s c0 =>
                 fold_res (fun s k => lorentzian_update_component sus dt W gv c0 k s)
                          DOCMP2 s)
              (fun d0 => wf_data d0
                         /\ forall c cmp, P d0 c cmp = None <-> P d c cmp = None)
              FOR_COMPONENTS)
    with (s := d) as [d'' [E'' [_ Hal]]].
  - intros s c0 _ Hs.
    apply (fold_res_invariant
             (fun s k => lorentzian_update_component sus dt W gv c0 k s)
             (fun d0 => wf_data d0
                        /\ forall c cmp, P d0 c cmp = None <-> P d c cmp = None)
             DOCMP2); [| exact Hs].
    intros s0 k _ [Hs0 Hal0].
    destruct (lorentzian_component_total sus dt W gv (ntot s0) c0 k s0
                (conj Hs0 eq_refl)) as [s1 [E1 [Hs1 _]]].
    exists s1. split; [exact E1 |]. split; [exact Hs1 |].
    intros c1 k1. rewrite <- Hal0.
    destruct (component_eq_dec c1 c0) as [-> | n].
    + destruct (Nat.eq_dec k1 k) as [-> | n'].
      * unfold lorentzian_update_component in E1.
        destruct (P s0 c0 k) as [p |] eqn:EP;
          [| injection E1 as <-; now rewrite EP].
        destruct (W c0 k) as [w |];
          [| injection E1 as <-; now rewrite EP].
        destruct (sigma sus c0 (component_direction c0)) as [sg |];
          [| injection E1 as <-; now rewrite EP].
        apply bind_Ok in E1. destruct E1 as [st [_ E1]].
        injection E1 as <-. simpl. rewrite set_entry_same.
        split; discriminate.
      * assert (F := lorentzian_component_frame sus dt W gv c0 k s0 s1 E1
                       c0 k1 (or_intror n')).
        unfold entry in F. injection F as F _. now rewrite F.
    + assert (F := lorentzian_component_frame sus dt W gv c0 k s0 s1 E1
                     c1 k1 (or_introl n)).
      unfold entry in F. injection F as F _. now rewrite F.
  - split; [exact Hd | tauto].
  - unfold for_components_docmp2 in E. rewrite E in E''.
    injection E'' as <-. apply Hal.
Qed.

(** ** The stability test *)

Lemma lorentzian_unstable_true (omega_0 gamma dt : R) :
  let b := unstable_b omega_0 gamma dt in
  let c := unstable_c gamma dt in
  lorentzian_unstable omega_0 gamma dt = true <->
  c < b * b /\ 1 < 2 * b * b - c + 2 * Rabs b * sqrt (b * b - c).
Proof.
  intros b c. unfold lorentzian_unstable. fold b c.
  destruct (Rlt_dec c (b * b)) as [H1 | H1];
    [destruct (Rlt_dec 1 (2 * b * b - c + 2 * Rabs b * sqrt (b * b - c)))
       as [H2 | H2] |];
    split; try tauto; try discriminate.
Qed.

(** For a quadratic [z^2 - 2 b z + c] with two distinct real roots, the
    quantity that the test compares with 1 is the square of the larger
    root modulus. *)
Lemma real_pole_outside (b c : R) :
  c < b * b ->
  (1 < 2 * b * b - c + 2 * Rabs b * sqrt (b * b - c) <->
   exists z, z * z - 2 * b * z + c = 0 /\ 1 < Rabs z).
Proof.
  intros Hd.
  assert (Hs0 : 0 < sqrt (b * b - c)) by (apply sqrt_lt_R0; lra).
  assert (Hss : sqrt (b * b - c) * sqrt (b * b - c) = b * b - c)
    by (apply sqrt_sqrt; lra).
  set (s := sqrt (b * b - c)) in *.
  assert (Ha0 : 0 <= Rabs b) by apply Rabs_pos.
  assert (Haa : Rabs b * Rabs b = b * b).
  { unfold Rabs. destruct (Rcase_abs b); ring. }
  split.
  - intros HE. assert (Hsum : 1 < Rabs b + s) by nra.
    destruct (Rle_lt_dec 0 b) as [Hb | Hb].
    + exists (b + s). split; [nra |].
      rewrite (Rabs_right b) in Hsum by lra.
      rewrite Rabs_right by lra. exact Hsum.
    + exists (b - s). split; [nra |].
      rewrite (Rabs_left b) in Hsum by lra.
      rewrite Rabs_left by lra. lra.
  - intros [z [Hz Hout]].
    assert (Hf : (z - b - s) * (z - b + s) = 0) by nra.
    assert (Hle : Rabs z <= Rabs b + s).
    { apply Rmult_integral in Hf.
      unfold Rabs. destruct (Rcase_abs z), (Rcase_abs b), Hf; lra. }
    nra.
Qed.

(** Away from [z = 0] the pole equation of the comment is the quadratic
    [z^2 - 2 b z + c = 0] in the locals [b] and [c] of the test. *)
Lemma pole_equation_quadratic (omega_0 gamma dt z : R) :
  dt <> 0 -> 1 + 2 * pi * gamma * dt / 2 <> 0 -> z <> 0 ->
  (pole_equation omega_0 gamma dt z <->
   z * z - 2 * unstable_b omega_0 gamma dt * z + unstable_c gamma dt = 0).
Proof.
  intros Hdt HD Hz. unfold pole_equation, unstable_b, unstable_c.
  cbv zeta.
  set (D := 1 + 2 * pi * gamma * dt / 2) in *.
  set (w := 2 * pi * omega_0).
  assert (E1 : (z + 1 / z - 2) / (dt * dt)
               + 2 * pi * gamma * (z - 1 / z) / (2 * dt) + w * w
               = (D * (z * z) - (2 - w * dt * (w * dt)) * z + (2 - D))
                 / (z * (dt * dt))).
  { unfold D. field. split; assumption. }
  assert (E2 : z * z - 2 * ((1 - w * dt * (w * dt) / 2) / D) * z
               + (1 - 2 * pi * gamma * dt / 2) / D
               = (D * (z * z) - (2 - w * dt * (w * dt)) * z + (2 - D)) / D).
  { unfold D. field. intros HD'. apply HD. unfold D. lra. }
  rewrite E1, E2.
  set (N := D * (z * z) - (2 - w * dt * (w * dt)) * z + (2 - D)).
  assert (Hzd : z * (dt * dt) <> 0).
  { apply Rmult_integral_contrapositive_currified; [exact Hz |].
    apply Rmult_integral_contrapositive_currified; exact Hdt. }
  split; intros HN.
  - assert (HN0 : N = 0).
    { apply Rmult_eq_reg_r with (r := / (z * (dt * dt)));
        [| apply Rinv_neq_0_compat; exact Hzd].
      unfold Rdiv in HN. rewrite HN. ring. }
    rewrite HN0. unfold Rdiv. ring.
  - assert (HN0 : N = 0).
    { apply Rmult_eq_reg_r with (r := / D);
        [| apply Rinv_neq_0_compat; exact HD].
      unfold Rdiv in HN. rewrite HN. ring. }
    rewrite HN0. unfold Rdiv. ring.
Qed.

(** X4. For a non-zero time step and [1 + g*dt/2 <> 0], the test answers
    true exactly when the quadratic of the comment has two distinct real
    roots ([c < b^2]) and the pole equation has a real solution outside
    the unit circle. *)
Theorem lorentzian_unstable_real_pole (omega_0 gamma dt : R) :
  dt <> 0 -> 1 + 2 * pi * gamma * dt / 2 <> 0 ->
  (lorentzian_unstable omega_0 gamma dt = true <->
   unstable_c gamma dt < unstable_b omega_0 gamma dt * unstable_b omega_0 gamma dt /\
   exists z, 1 < Rabs z /\ pole_equation omega_0 gamma dt z).
Proof.
  intros Hdt HD.
  pose proof (lorentzian_unstable_true omega_0 gamma dt) as Ht.
  cbv zeta in Ht. rewrite Ht. clear Ht.
  split; intros [Hd Hx]; (split; [exact Hd |]).
  - apply (real_pole_outside _ _ Hd) in Hx. destruct Hx as [z [Hq Hout]].
    assert (Hz : z <> 0).
    { intros ->. rewrite Rabs_R0 in Hout. lra. }
    exists z. split; [exact Hout |].
    apply pole_equation_quadratic; assumption.
  - apply (real_pole_outside _ _ Hd). destruct Hx as [z [Hout Hp]].
    assert (Hz : z <> 0).
    { intros ->. rewrite Rabs_R0 in Hout. lra. }
    exists z. split; [| exact Hout].
    apply pole_equation_quadratic in Hp; assumption.
Qed.

(** The locals [b] and [c] over the common denominator [D = 1 + g2]. *)
Lemma unstable_locals (omega_0 gamma dt : R) :
  let D := 1 + 2 * pi * gamma * dt / 2 in
  let B := 1 - (2 * pi * omega_0 * dt) * (2 * pi * omega_0 * dt) / 2 in
  D <> 0 ->
  D * unstable_b omega_0 gamma dt = B /\ D * unstable_c gamma dt = 2 - D.
Proof.
  intros D B HD. unfold unstable_b, unstable_c. cbv zeta.
  split; unfold D, B; field; intros HD'; apply HD; unfold D; lra.
Qed.

(** X5. With non-negative damping ([0 <= g*dt]) the test is a pure
    threshold on the resonance: it answers true exactly when
    [(2*pi*omega_0*dt)^2 > 4]. *)
Theorem lorentzian_unstable_threshold (omega_0 gamma dt : R) :
  0 <= 2 * pi * gamma * dt ->
  (lorentzian_unstable omega_0 gamma dt = true <->
   4 < (2 * pi * omega_0 * dt) * (2 * pi * omega_0 * dt)).
Proof.
  intros Hg.
  pose proof (lorentzian_unstable_true omega_0 gamma dt) as Ht.
  cbv zeta in Ht. rewrite Ht. clear Ht.
  pose proof (unstable_locals omega_0 gamma dt) as HL. cbv zeta in HL.
  destruct HL as [Eb Ec]; [lra |].
  set (b := unstable_b omega_0 gamma dt) in *.
  set (c := unstable_c gamma dt) in *.
  set (D := 1 + 2 * pi * gamma * dt / 2) in *.
  set (w2 := 2 * pi * omega_0 * dt * (2 * pi * omega_0 * dt)) in *.
  assert (HD : 1 <= D) by (unfold D; lra).
  assert (Hw : 0 <= w2) by (unfold w2; nra).
  split.
  - intros [Hd HE].
    apply (real_pole_outside _ _ Hd) in HE. destruct HE as [z [Hq Hout]].
    destruct (Rlt_le_dec 4 w2) as [Hlt | Hle]; [exact Hlt | exfalso].
    assert (HQ : D * (z * z) - 2 * (1 - w2 / 2) * z + (2 - D) = 0).
    { rewrite <- Eb, <- Ec.
      replace (D * (z * z) - 2 * (D * b) * z + D * c)
        with (D * (z * z - 2 * b * z + c)) by ring.
      rewrite Hq. ring. }
    unfold Rabs in Hout. destruct (Rcase_abs z) as [Hz | Hz].
    + assert (Hz1 : 0 < - z - 1) by lra.
      assert (H1 : D * (- z + 1) <= 2); [| nra].
      apply Rmult_le_reg_l with (r := - z - 1); [exact Hz1 |]. nra.
    + assert (Hz1 : 0 < z - 1) by lra.
      assert (H1 : D * (z + 1) <= 2); [| nra].
      apply Rmult_le_reg_l with (r := z - 1); [exact Hz1 |]. nra.
  - intros Hlt.
    assert (Hd : c < b * b).
    { apply Rmult_lt_reg_l with (r := D * D); [nra |].
      replace (D * D * c) with (D * (D * c)) by ring.
      replace (D * D * (b * b)) with ((D * b) * (D * b)) by ring.
      rewrite Eb, Ec. nra. }
    split; [exact Hd |].
    apply (real_pole_outside _ _ Hd).
    assert (Hs0 : 0 < sqrt (b * b - c)) by (apply sqrt_lt_R0; lra).
    assert (Hss : sqrt (b * b - c) * sqrt (b * b - c) = b * b - c)
      by (apply sqrt_sqrt; lra).
    set (s := sqrt (b * b - c)) in *.
    assert (Hbc : 1 + 2 * b + c < 0).
    { apply Rmult_lt_reg_l with (r := D); [lra |].
      replace (D * (1 + 2 * b + c)) with (D + 2 * (D * b) + D * c) by ring.
      rewrite Eb, Ec. lra. }
    exists (b - s). split; [nra |].
    assert (Hz : b - s < -1).
    { destruct (Rle_lt_dec (1 + b) 0) as [Hb | Hb]; [lra | nra]. }
    rewrite Rabs_left by lra. lra.
Qed.

(** X6. The test looks at real poles only: when the quadratic has
    complex roots ([b^2 < c]) it answers false, although with gain
    ([-2 < g*dt < 0], which makes [c > 1]) both complex-conjugate
    poles lie outside the unit circle. *)
Theorem lorentzian_unstable_misses_complex_poles (omega_0 gamma dt : R) :
  -2 < 2 * pi * gamma * dt < 0 ->
  unstable_b omega_0 gamma dt * unstable_b omega_0 gamma dt
    < unstable_c gamma dt ->
  lorentzian_unstable omega_0 gamma dt = false /\
  exists x y, complex_pole omega_0 gamma dt x y /\ 1 < x * x + y * y.
Proof.
  intros Hg Hd. split.
  - unfold lorentzian_unstable.
    destruct (Rlt_dec (unstable_c gamma dt)
                (unstable_b omega_0 gamma dt * unstable_b omega_0 gamma dt))
      as [Hc | Hc]; [lra | reflexivity].
  - pose proof (unstable_locals omega_0 gamma dt) as HL. cbv zeta in HL.
    destruct HL as [_ Ec]; [lra |].
    unfold complex_pole. cbv zeta.
    set (b := unstable_b omega_0 gamma dt) in *.
    set (c := unstable_c gamma dt) in *.
    set (D := 1 + 2 * pi * gamma * dt / 2) in *.
    assert (HD : 0 < D < 1) by (unfold D; lra).
    assert (Hc1 : 1 < c).
    { apply Rmult_lt_reg_l with (r := D); [lra |]. rewrite Ec. lra. }
    assert (Hss : sqrt (c - b * b) * sqrt (c - b * b) = c - b * b)
      by (apply sqrt_sqrt; lra).
    exists b, (sqrt (c - b * b)). repeat split; nra.
Qed.

(** ** The Lorentzian update as a whole: equilibrium, frame, coupling *)

(** The recurrence keeps a polarisation that sits at its forcing. *)
Lemma lorentzian_step_fixed (sus : lorentzian_susceptibility) (dt v : R) :
  no_omega_0_denominator sus = false ->
  1 + g2pi sus * dt / 2 <> 0 ->
  lorentzian_step sus dt v v v = v.
Proof.
  intros Hn Hg. unfold lorentzian_step, gamma1inv, gamma1, omega0dtsqr_denom.
  rewrite Hn. field. intros Hg'. apply Hg. lra.
Qed.

(** X7. A static polarisation is a fixed point of the Lorentzian
    [update_P]: unless the [omega_0] denominator is dropped, an owned
    point whose [P] and [P_prev] both equal the bracket of the
    recurrence ([sigma W] plus the averaged off-diagonal terms) is left
    with the same [P] and [P_prev], on every one of the three loops. *)
Theorem lorentzian_static_fixed_point (sus : lorentzian_susceptibility)
  (dt : R) (W W_prev : field_table) (gv : grid_volume) (d : lorentzian_data)
  (c : component) (k : nat) (p ppa w s : array) (i : Z) :
  wf_data d -> In c FOR_COMPONENTS -> In k DOCMP2 ->
  P d c k = Some p -> P_prev d c k = Some ppa ->
  W c k = Some w -> sigma sus c (component_direction c) = Some s ->
  NoDup (owned gv c) -> In i (owned gv c) ->
  no_omega_0_denominator sus = false ->
  1 + g2pi sus * dt / 2 <> 0 ->
  p i = W_eff sus W gv c k s w i -> ppa i = p i ->
  exists d' p' ppa',
    lorentzian_update_P sus dt W W_prev gv (Some d) = Ok d'
    /\ P d' c k = Some p' /\ P_prev d' c k = Some ppa'
    /\ p' i = p i /\ ppa' i = ppa i.
Proof.
  intros Hd Hc Hk EP EPP EW ES Hnd Hi Hn Hg Hp Hpp.
  destruct (lorentzian_update_P_spec sus dt W gv W_prev d Hd)
    as [d' [E [_ [_ [_ Hact]]]]].
  destruct (Hact c k p ppa w s Hc Hk EP EPP EW ES Hnd)
    as [p' [ppa' [En [_ Hin]]]].
  exists d', p', ppa'. unfold entry in En. injection En as E1 E2.
  split; [exact E |]. split; [exact E1 |]. split; [exact E2 |].
  destruct (Hin i Hi) as [Hskip Hrun].
  destruct (anisotropic sus W gv c k) eqn:Ea.
  - destruct (Req_dec_T (s i) 0) as [Hs | Hs].
    + specialize (Hskip eq_refl Hs). now injection Hskip.
    + specialize (Hrun (or_intror Hs)). simpl in Hrun.
      injection Hrun as Hp' Hpp'.
      rewrite Hp', Hpp', Hpp, <- Hp.
      split; [apply lorentzian_step_fixed; assumption | reflexivity].
  - specialize (Hrun (or_introl eq_refl)). simpl in Hrun.
    injection Hrun as Hp' Hpp'.
    rewrite Hp', Hpp', Hpp, <- Hp.
    split; [apply lorentzian_step_fixed; assumption | reflexivity].
Qed.

(** X8. The Lorentzian [update_P] writes at owned points only: of the
    [ntot] realnums of each buffer, whatever [P] and [P_prev] hold at
    an index [0 <= j < ntot] that LOOP_OVER_VOL_OWNED does not visit
    for the component is still there after the call. *)
Theorem lorentzian_update_P_frame (sus : lorentzian_susceptibility) (dt : R)
  (W W_prev : field_table) (gv : grid_volume) (d : lorentzian_data) :
  wf_data d -> (forall c, NoDup (owned gv c)) ->
  exists d',
    lorentzian_update_P sus dt W W_prev gv (Some d) = Ok d'
    /\ forall c k j, (0 <= j < Z.of_nat (ntot d))%Z ->
       ~ In j (owned gv c) ->
       ptr_at (P d' c k) j = ptr_at (P d c k) j
       /\ ptr_at (P_prev d' c k) j = ptr_at (P_prev d c k) j.
Proof.
  intros Hd Hnd.
  destruct (lorentzian_update_P_spec sus dt W gv W_prev d Hd)
    as [d' [E [_ [_ [Hidle Hact]]]]].
  exists d'. split; [exact E |]. intros c k j _ Hj.
  assert (Hsame : entry d' c k = entry d c k ->
                  ptr_at (P d' c k) j = ptr_at (P d c k) j
                  /\ ptr_at (P_prev d' c k) j = ptr_at (P_prev d c k) j).
  { unfold entry. intros Ee. injection Ee as E1 E2. now rewrite E1, E2. }
  destruct (in_dec component_eq_dec c FOR_COMPONENTS) as [Hc | Hc];
    [| apply Hsame, Hidle; left; tauto].
  destruct (in_dec Nat.eq_dec k DOCMP2) as [Hk | Hk];
    [| apply Hsame, Hidle; left; tauto].
  destruct (P d c k) as [p |] eqn:EP;
    [| apply Hsame, Hidle; right; left; exact EP].
  destruct (W c k) as [w |] eqn:EW;
    [| apply Hsame, Hidle; right; right; left; exact EW].
  destruct (sigma sus c (component_direction c)) as [s |] eqn:ES;
    [| apply Hsame, Hidle; right; right; right; exact ES].
  destruct (P_prev d c k) as [ppa |] eqn:EPP.
  - destruct (Hact c k p ppa w s Hc Hk EP EPP EW ES (Hnd c))
      as [p' [ppa' [En [Hout _]]]].
    unfold entry in En. injection En as E1 E2.
    rewrite E1, E2. simpl. apply Hout, Hj.
  - exfalso. apply (Hd c k); [rewrite EP; discriminate | exact EPP].
Qed.

(** The candidate direction of a component whose field and sigma are
    both there. *)
Lemma candidate_coupled (sus : lorentzian_susceptibility) (W : field_table)
  (gv : grid_volume) (c : component) (k : nat) (shift : Z) (w1 s1 : array) :
  let d1 := cycle_direction (dim gv) (component_direction c) shift in
  W (direction_component c d1) k = Some w1 -> sigma sus c d1 = Some s1 ->
  candidate sus W gv c k shift
  = {| od_stride := (stride gv d1 * (if is_magnetic c then -1 else 1))%Z;
       od_w := Some w1; od_s := Some s1 |}.
Proof.
  intros d1 Ew Es. unfold candidate. fold d1. rewrite Ew. simpl.
  rewrite Es. reflexivity.
Qed.

(** The candidate direction of a component whose field or sigma is
    missing contributes nothing. *)
Lemma candidate_uncoupled (sus : lorentzian_susceptibility) (W : field_table)
  (gv : grid_volume) (c : component) (k : nat) (shift : Z) (is_ i : Z) :
  let d1 := cycle_direction (dim gv) (component_direction c) shift in
  W (direction_component c d1) k = None \/ sigma sus c d1 = None ->
  od_s (candidate sus W gv c k shift) = None
  /\ offdiag_term (candidate sus W gv c k shift) is_ i = 0.
Proof.
  intros d1 Hn. unfold offdiag_term, candidate. fold d1. simpl.
  destruct (W (direction_component c d1) k) as [w1 |]; simpl.
  - destruct Hn as [Hn | Hn]; [discriminate |]. rewrite Hn. auto.
  - auto.
Qed.

(** X9. With both transverse directions coupled (their fields and
    sigmas are all there) an owned point of non-zero diagonal sigma is
    advanced by the recurrence whose bracket is [s w] plus the two
    OFFDIAG averages, each taken with its own stride and the stride of
    the component; the old [P] goes to [P_prev]. *)
Theorem lorentzian_3x3_point (sus : lorentzian_susceptibility) (dt : R)
  (W W_prev : field_table) (gv : grid_volume) (d : lorentzian_data)
  (c : component) (k : nat) (p ppa w s w1 s1 w2 s2 : array) (i : Z) :
  let d0 := component_direction c in
  let d1 := cycle_direction (dim gv) d0 1 in
  let d2 := cycle_direction (dim gv) d0 2 in
  let sgn := (if is_magnetic c then -1 else 1)%Z in
  let is_ := (stride gv d0 * sgn)%Z in
  let is1 := (stride gv d1 * sgn)%Z in
  let is2 := (stride gv d2 * sgn)%Z in
  wf_data d -> In c FOR_COMPONENTS -> In k DOCMP2 ->
  P d c k = Some p -> P_prev d c k = Some ppa ->
  W c k = Some w -> sigma sus c d0 = Some s ->
  W (direction_component c d1) k = Some w1 -> sigma sus c d1 = Some s1 ->
  W (direction_component c d2) k = Some w2 -> sigma sus c d2 = Some s2 ->
  NoDup (owned gv c) -> In i (owned gv c) -> s i <> 0 ->
  exists d' p' ppa',
    lorentzian_update_P sus dt W W_prev gv (Some d) = Ok d'
    /\ P d' c k = Some p' /\ P_prev d' c k = Some ppa'
    /\ p' i = gamma1inv sus dt
              * (p i * (2 - omega0dtsqr_denom sus dt) - gamma1 sus dt * ppa i
                 + omega0dtsqr sus dt
                   * (s i * w i + OFFDIAG s1 w1 is1 is_ i
                      + OFFDIAG s2 w2 is2 is_ i))
    /\ ppa' i = p i.
Proof.
  intros d0 d1 d2 sgn is_ is1 is2 Hd Hc Hk EP EPP EW ES EW1 ES1 EW2 ES2
    Hnd Hi Hs.
  destruct (lorentzian_update_P_spec sus dt W gv W_prev d Hd)
    as [d' [E [_ [_ [_ Hact]]]]].
  destruct (Hact c k p ppa w s Hc Hk EP EPP EW ES Hnd)
    as [p' [ppa' [En [_ Hin]]]].
  exists d', p', ppa'. unfold entry in En. injection En as E1 E2.
  split; [exact E |]. split; [exact E1 |]. split; [exact E2 |].
  destruct (Hin i Hi) as [_ Hrun].
  specialize (Hrun (or_intror Hs)). simpl in Hrun.
  injection Hrun as Hp' Hpp'. split; [| exact Hpp'].
  rewrite Hp'. unfold lorentzian_step, W_eff, forcing, offdiag_term.
  rewrite (candidate_coupled sus W gv c k 1 w1 s1 EW1 ES1).
  rewrite (candidate_coupled sus W gv c k 2 w2 s2 EW2 ES2).
  reflexivity.
Qed.

(** X10. With exactly one transverse direction coupled, whether it is
    the first or the second that [update_P] tries, an owned point of
    non-zero diagonal sigma is advanced by the recurrence whose bracket
    is [s w] plus the OFFDIAG average of that direction alone. *)
Theorem lorentzian_2x2_point (sus : lorentzian_susceptibility) (dt : R)
  (W W_prev : field_table) (gv : grid_volume) (d : lorentzian_data)
  (c : component) (k : nat) (p ppa w s w1 s1 : array) (i : Z)
  (shift : Z) :
  let d0 := component_direction c in
  let d1 := cycle_direction (dim gv) d0 shift in
  let d2 := cycle_direction (dim gv) d0 (3 - shift) in
  let sgn := (if is_magnetic c then -1 else 1)%Z in
  let is_ := (stride gv d0 * sgn)%Z in
  let is1 := (stride gv d1 * sgn)%Z in
  shift = 1%Z \/ shift = 2%Z ->
  wf_data d -> In c FOR_COMPONENTS -> In k DOCMP2 ->
  P d c k = Some p -> P_prev d c k = Some ppa ->
  W c k = Some w -> sigma sus c d0 = Some s ->
  W (direction_component c d1) k = Some w1 -> sigma sus c d1 = Some s1 ->
  W (direction_component c d2) k = None \/ sigma sus c d2 = None ->
  NoDup (owned gv c) -> In i (owned gv c) -> s i <> 0 ->
  exists d' p' ppa',
    lorentzian_update_P sus dt W W_prev gv (Some d) = Ok d'
    /\ P d' c k = Some p' /\ P_prev d' c k = Some ppa'
    /\ p' i = gamma1inv sus dt
              * (p i * (2 - omega0dtsqr_denom sus dt) - gamma1 sus dt * ppa i
                 + omega0dtsqr sus dt
                   * (s i * w i + OFFDIAG s1 w1 is1 is_ i))
    /\ ppa' i = p i.
Proof.
  intros d0 d1 d2 sgn is_ is1 Hsh Hd Hc Hk EP EPP EW ES EW1 ES1 En2
    Hnd Hi Hs.
  destruct (lorentzian_update_P_spec sus dt W gv W_prev d Hd)
    as [d' [E [_ [_ [_ Hact]]]]].
  destruct (Hact c k p ppa w s Hc Hk EP EPP EW ES Hnd)
    as [p' [ppa' [En [_ Hin]]]].
  exists d', p', ppa'. unfold entry in En. injection En as E1 E2.
  split; [exact E |]. split; [exact E1 |]. split; [exact E2 |].
  destruct (Hin i Hi) as [_ Hrun].
  specialize (Hrun (or_intror Hs)). simpl in Hrun.
  injection Hrun as Hp' Hpp'. split; [| exact Hpp'].
  rewrite Hp'. unfold lorentzian_step, W_eff, forcing.
  pose proof (candidate_coupled sus W gv c k shift w1 s1 EW1 ES1) as C1.
  destruct (candidate_uncoupled sus W gv c k (3 - shift)
              (comp_stride gv c) i En2) as [_ C2].
  destruct Hsh as [-> | ->].
  - change (3 - 1)%Z with 2%Z in C2. rewrite C2.
    unfold offdiag_term. rewrite C1. simpl.
    unfold comp_stride, is1, d1. fold d0 sgn is_. ring.
  - change (3 - 2)%Z with 1%Z in C2. rewrite C2.
    unfold offdiag_term. rewrite C1. simpl.
    unfold comp_stride, is1, d1. fold d0 sgn is_. ring.
Qed.

(** ** Selection of the loop *)

(** An entry that [update_P] advances, point by point: a guarded loop
    skips a point of zero sigma, and every other owned point gets the
    recurrence with the bracket of the coupled directions. *)
Lemma lorentzian_active_point (sus : lorentzian_susceptibility) (dt : R)
  (W W_prev : field_table) (gv : grid_volume) (d : lorentzian_data)
  (c : component) (k : nat) (p ppa w s : array) :
  wf_data d -> In c FOR_COMPONENTS -> In k DOCMP2 ->
  P d c k = Some p -> P_prev d c k = Some ppa ->
  W c k = Some w -> sigma sus c (component_direction c) = Some s ->
  NoDup (owned gv c) ->
  exists d' p' ppa',
    lorentzian_update_P sus dt W W_prev gv (Some d) = Ok d'
    /\ P d' c k = Some p' /\ P_prev d' c k = Some ppa'
    /\ forall i, In i (owned gv c) ->
       (anisotropic sus W gv c k = true -> s i = 0 ->
        p' i = p i /\ ppa' i = ppa i)
       /\ (anisotropic sus W gv c k = false \/ s i <> 0 ->
           p' i = lorentzian_step sus dt (p i) (ppa i)
                    (W_eff sus W gv c k s w i)
           /\ ppa' i = p i).
Proof.
  intros Hd Hc Hk EP EPP EW ES Hnd.
  destruct (lorentzian_update_P_spec sus dt W gv W_prev d Hd)
    as [d' [E [_ [_ [_ Hact]]]]].
  destruct (Hact c k p ppa w s Hc Hk EP EPP EW ES Hnd)
    as [p' [ppa' [En [_ Hin]]]].
  exists d', p', ppa'. unfold entry in En. injection En as E1 E2.
  split; [exact E |]. split; [exact E1 |]. split; [exact E2 |].
  intros i Hi. destruct (Hin i Hi) as [Hskip Hrun]. split.
  - intros Ha Hs. specialize (Hskip Ha Hs). now injection Hskip.
  - intros Hr. specialize (Hrun Hr). simpl in Hrun.
    now injection Hrun.
Qed.

(** A candidate direction whose field or sigma is missing has no sigma
    pointer. *)
Lemma coupled_false (sus : lorentzian_susceptibility) (W : field_table)
  (c : component) (k : nat) (d1 : direction) :
  (non_null (W (direction_component c d1) k)
   && non_null (sigma sus c d1))%bool = false ->
  W (direction_component c d1) k = None \/ sigma sus c d1 = None.
Proof.
  destruct (W (direction_component c d1) k); [| now left].
  destruct (sigma sus c d1); [discriminate | now right].
Qed.

(** C7. In the Lorentzian [update_P] an off-diagonal direction couples
    when its field [W[c1][cmp]] and its [sigma[c][d1]] are both
    non-NULL: a sigma whose field is NULL is masked.  With no coupled
    direction an owned point gets the isotropic value, with exactly one
    the 2-term value built from that direction's sigma, field and
    stride, the same expression whether the direction is the first or
    the second that is tried, and with two the 3-term value; the two
    anisotropic loops leave a point of zero diagonal sigma as it is. *)
Theorem lorentzian_branch_selection (sus : lorentzian_susceptibility) (dt : R)
  (W W_prev : field_table) (gv : grid_volume) (d : lorentzian_data)
  (c : component) (k : nat) (p ppa w s : array) (i : Z) :
  let d0 := component_direction c in
  let dir := fun shift => cycle_direction (dim gv) d0 shift in
  let sgn := (if is_magnetic c then -1 else 1)%Z in
  let is_ := (stride gv d0 * sgn)%Z in
  let coupled := fun shift =>
    (non_null (W (direction_component c (dir shift)) k)
     && non_null (sigma sus c (dir shift)))%bool in
  let value := fun f =>
    gamma1inv sus dt
    * (p i * (2 - omega0dtsqr_denom sus dt) - gamma1 sus dt * ppa i
       + omega0dtsqr sus dt * f) in
  wf_data d -> In c FOR_COMPONENTS -> In k DOCMP2 ->
  P d c k = Some p -> P_prev d c k = Some ppa ->
  W c k = Some w -> sigma sus c d0 = Some s ->
  NoDup (owned gv c) -> In i (owned gv c) ->
  exists d' p' ppa',
    lorentzian_update_P sus dt W W_prev gv (Some d) = Ok d'
    /\ P d' c k = Some p' /\ P_prev d' c k = Some ppa'
    /\ (coupled 1%Z = false -> coupled 2%Z = false ->
        p' i = value (s i * w i) /\ ppa' i = p i)
    /\ (forall shift s1 w1,
        shift = 1%Z \/ shift = 2%Z ->
        W (direction_component c (dir shift)) k = Some w1 ->
        sigma sus c (dir shift) = Some s1 ->
        coupled (3 - shift)%Z = false ->
        (s i <> 0 ->
         p' i = value (s i * w i
                       + OFFDIAG s1 w1 (stride gv (dir shift) * sgn) is_ i)
         /\ ppa' i = p i)
        /\ (s i = 0 -> p' i = p i /\ ppa' i = ppa i))
    /\ (forall s1 w1 s2 w2,
        W (direction_component c (dir 1%Z)) k = Some w1 ->
        sigma sus c (dir 1%Z) = Some s1 ->
        W (direction_component c (dir 2%Z)) k = Some w2 ->
        sigma sus c (dir 2%Z) = Some s2 ->
        (s i <> 0 ->
         p' i = value (s i * w i
                       + OFFDIAG s1 w1 (stride gv (dir 1%Z) * sgn) is_ i
                       + OFFDIAG s2 w2 (stride gv (dir 2%Z) * sgn) is_ i)
         /\ ppa' i = p i)
        /\ (s i = 0 -> p' i = p i /\ ppa' i = ppa i)).
Proof.
  intros d0 dir sgn is_ coupled value Hd Hc Hk EP EPP EW ES Hnd Hi.
  destruct (lorentzian_active_point sus dt W W_prev gv d c k p ppa w s
              Hd Hc Hk EP EPP EW ES Hnd)
    as [d' [p' [ppa' [E [E1 [E2 Hv]]]]]].
  exists d', p', ppa'.
  split; [exact E |]. split; [exact E1 |]. split; [exact E2 |].
  destruct (Hv i Hi) as [Hskip Hrun].
  unfold W_eff, forcing, anisotropic in Hskip, Hrun.
  split; [| split].
  - intros C1 C2.
    destruct (candidate_uncoupled sus W gv c k 1 (comp_stride gv c) i
                (coupled_false sus W c k (dir 1%Z) C1)) as [S1 T1].
    destruct (candidate_uncoupled sus W gv c k 2 (comp_stride gv c) i
                (coupled_false sus W c k (dir 2%Z) C2)) as [S2 T2].
    rewrite S1, S2, T1, T2 in Hrun.
    destruct (Hrun (or_introl eq_refl)) as [Hp Hpp].
    split; [| exact Hpp].
    rewrite Hp. unfold lorentzian_step, value. f_equal. f_equal. f_equal.
    ring.
  - intros shift s1 w1 Hsh EW1 ES1 C2.
    pose proof (candidate_coupled sus W gv c k shift w1 s1 EW1 ES1) as K1.
    assert (Hother : W (direction_component c (dir (3 - shift)%Z)) k = None
                     \/ sigma sus c (dir (3 - shift)%Z) = None)
      by (apply coupled_false; exact C2).
    destruct (candidate_uncoupled sus W gv c k (3 - shift)
                (comp_stride gv c) i Hother) as [S2 T2].
    assert (Han : (non_null (od_s (candidate sus W gv c k 1))
                   || non_null (od_s (candidate sus W gv c k 2)))%bool = true).
    { destruct Hsh as [-> | ->]; rewrite K1; simpl; [reflexivity |].
      apply orb_true_r. }
    assert (Hf : s i * w i + offdiag_term (candidate sus W gv c k 1)
                               (comp_stride gv c) i
                 + offdiag_term (candidate sus W gv c k 2) (comp_stride gv c) i
                 = s i * w i
                   + OFFDIAG s1 w1 (stride gv (dir shift) * sgn) is_ i).
    { destruct Hsh as [-> | ->].
      - change (3 - 1)%Z with 2%Z in T2. rewrite T2.
        unfold offdiag_term. rewrite K1. simpl.
        unfold comp_stride. fold d0 sgn is_. unfold dir. ring.
      - change (3 - 2)%Z with 1%Z in T2. rewrite T2.
        unfold offdiag_term. rewrite K1. simpl.
        unfold comp_stride. fold d0 sgn is_. unfold dir. ring. }
    split.
    + intros Hs. destruct (Hrun (or_intror Hs)) as [Hp Hpp].
      split; [| exact Hpp].
      rewrite Hp, Hf. reflexivity.
    + intros Hs. apply Hskip; [exact Han | exact Hs].
  - intros s1 w1 s2 w2 EW1 ES1 EW2 ES2.
    pose proof (candidate_coupled sus W gv c k 1 w1 s1 EW1 ES1) as K1.
    pose proof (candidate_coupled sus W gv c k 2 w2 s2 EW2 ES2) as K2.
    split.
    + intros Hs. destruct (Hrun (or_intror Hs)) as [Hp Hpp].
      split; [| exact Hpp].
      rewrite Hp. unfold offdiag_term. rewrite K1, K2. reflexivity.
    + intros Hs. apply Hskip; [| exact Hs]. rewrite K1. reflexivity.
Qed.

(** ** subtract_P *)

Lemma sub_at_same (a : array) (i : Z) (v : R) : sub_at a i v i = a i - v.
Proof. unfold sub_at. apply upd_same. Qed.

Lemma sub_at_other (a : array) (i j : Z) (v : R) :
  j <> i -> sub_at a i v j = a j.
Proof. unfold sub_at. apply upd_other. Qed.

(** A subtraction loop over distinct indices. *)
Lemma subtract_over (p : array) (l : list Z) :
  NoDup l -> forall a j,
  fold_left (fun a i => sub_at a i (p i)) l a j
  = if in_dec Z.eq_dec j l then a j - p j else a j.
Proof.
  induction l as [| i l IH]; intros Hnd a j; simpl; [reflexivity |].
  inversion Hnd as [| i' l' Hni Hnd']; subst.
  rewrite (IH Hnd').
  destruct (Z.eq_dec i j) as [-> | Hij].
  - destruct (in_dec Z.eq_dec j l) as [Hin | _]; [contradiction |].
    apply sub_at_same.
  - destruct (in_dec Z.eq_dec j l) as [Hin | Hnin];
      rewrite sub_at_other by congruence; reflexivity.
Qed.

Lemma subtract_loop_spec (n : nat) (p a : array) (j : Z) :
  ((0 <= j < Z.of_nat n)%Z -> subtract_loop n p a j = a j - p j)
  /\ (~ (0 <= j < Z.of_nat n)%Z -> subtract_loop n p a j = a j).
Proof.
  unfold subtract_loop.
  assert (Hnd : NoDup (map Z.of_nat (seq 0 n))).
  { generalize (seq_NoDup n 0). generalize (seq 0 n).
    induction 1 as [| x l Hx Hl IHl]; simpl; constructor; [| exact IHl].
    rewrite in_map_iff. intros [y [Hy Hin]].
    apply Nat2Z.inj in Hy. subst y. contradiction. }
  rewrite (subtract_over p _ Hnd).
  assert (Hin : In j (map Z.of_nat (seq 0 n)) <-> (0 <= j < Z.of_nat n)%Z).
  { rewrite in_map_iff. split.
    - intros [x [<- Hx]]. apply in_seq in Hx. lia.
    - intros Hj. exists (Z.to_nat j). split; [lia |]. apply in_seq. lia. }
  destruct (in_dec Z.eq_dec j (map Z.of_nat (seq 0 n))) as [Hi | Hi];
    split; intros Hj; try reflexivity; tauto.
Qed.

Section SubtractP.

Variable ft : field_type.
Variable d : lorentzian_data.

(** The body of FOR_FT_COMPONENTS in [subtract_P], with its DOCMP2. *)
Lemma subtract_P_component (fmp : field_table) (ec : component) :
  let dc := field_type_component (subtract_target ft) ec in
  exists fmp1,
    fold_res
      (fun fmp cmp =>
         match P d ec cmp with
         | None => Ok fmp
         | Some p =>
             match fmp dc cmp with
             | None => Ok fmp
             | Some a =>
                 Ok (set_entry fmp dc cmp
                       (Some (fold_left (fun a i => sub_at a i (p i))
                                (map Z.of_nat (seq 0 (ntot d))) a)))
             end
         end) DOCMP2 fmp = Ok fmp1
    /\ (forall c k, c <> dc \/ ~ In k DOCMP2 -> fmp1 c k = fmp c k)
    /\ (forall k, In k DOCMP2 ->
        fmp1 dc k = match P d ec k, fmp dc k with
                    | Some p, Some a => Some (subtract_loop (ntot d) p a)
                    | _, _ => fmp dc k
                    end).
Proof.
  intros dc. unfold DOCMP2. simpl. unfold subtract_loop.
  destruct (P d ec 0%nat) as [p0 |] eqn:EP0;
    destruct (P d ec 1%nat) as [p1 |] eqn:EP1;
    destruct (fmp dc 0%nat) as [a0 |] eqn:E0;
    destruct (fmp dc 1%nat) as [a1 |] eqn:E1; simpl;
    rewrite ?set_entry_other, ?E1 by (right; discriminate); simpl;
    eexists; (split; [reflexivity |]); split;
    try (intros c k [Hc | Hk];
         rewrite ?set_entry_other; auto;
         destruct k as [| [| k]]; try (right; discriminate);
         exfalso; apply Hk; simpl; auto; fail);
    intros k [<- | [<- | []]];
    rewrite ?set_entry_same, ?set_entry_other by (right; discriminate);
    rewrite ?set_entry_same, ?EP0, ?EP1, ?E0, ?E1; reflexivity.
Qed.

Lemma subtract_P_loop (l : list component) :
  NoDup l ->
  (forall ec ec', In ec l -> In ec' l ->
     field_type_component (subtract_target ft) ec
     = field_type_component (subtract_target ft) ec' -> ec = ec') ->
  forall fmp, exists fmp',
    fold_res
      (fun fmp ec =>
         fold_res
           (fun fmp cmp =>
              match P d ec cmp with
              | None => Ok fmp
              | Some p =>
                  match fmp (field_type_component (subtract_target ft) ec)
                            cmp with
                  | None => Ok fmp
                  | Some a =>
                      Ok (set_entry fmp
                            (field_type_component (subtract_target ft) ec) cmp
                            (Some (fold_left (fun a i => sub_at a i (p i))
                                     (map Z.of_nat (seq 0 (ntot d))) a)))
                  end
              end) DOCMP2 fmp) l fmp = Ok fmp'
    /\ (forall ec k, In ec l -> In k DOCMP2 ->
        fmp' (field_type_component (subtract_target ft) ec) k
        = match P d ec k,
                fmp (field_type_component (subtract_target ft) ec) k with
          | Some p, Some a => Some (subtract_loop (ntot d) p a)
          | _, _ => fmp (field_type_component (subtract_target ft) ec) k
          end)
    /\ (forall c k,
        (forall ec, In ec l ->
           field_type_component (subtract_target ft) ec <> c)
        \/ ~ In k DOCMP2 -> fmp' c k = fmp c k).
Proof.
  induction l as [| ec0 l IH]; intros Hnd Hinj fmp.
  - exists fmp. simpl. split; [reflexivity |]. split; [intros ec k [] | auto].
  - inversion Hnd as [| x l' Hni Hnd']; subst.
    rewrite fold_res_cons.
    destruct (subtract_P_component fmp ec0) as [fmp1 [E1 [F1 V1]]].
    cbv zeta in E1. rewrite E1. unfold bind.
    destruct (IH Hnd' (fun a b Ha Hb => Hinj a b (or_intror Ha) (or_intror Hb))
                fmp1) as [fmp' [E [V F]]].
    exists fmp'. split; [exact E |]. split.
    + intros ec k [<- | Hin] Hk.
      * rewrite F.
        -- apply V1, Hk.
        -- left. intros ec Hec Heq. apply Hni.
           rewrite (Hinj ec0 ec (or_introl eq_refl) (or_intror Hec));
             [exact Hec | symmetry; exact Heq].
      * rewrite (V ec k Hin Hk).
        assert (Hne : field_type_component (subtract_target ft) ec
                      <> field_type_component (subtract_target ft) ec0).
        { intros Heq. apply Hni.
          rewrite (Hinj ec0 ec (or_introl eq_refl) (or_intror Hin));
            [exact Hin | symmetry; exact Heq]. }
        rewrite (F1 _ k (or_introl Hne)). reflexivity.
    + intros c k Hf. rewrite F.
      * apply F1. destruct Hf as [Hf | Hf]; [left | right; exact Hf].
        intros ->. apply (Hf ec0 (or_introl eq_refl)). reflexivity.
      * destruct Hf as [Hf | Hf]; [left | right; exact Hf].
        intros ec Hec. apply Hf. right. exact Hec.
Qed.

End SubtractP.

(** X11. On a blob that is there, [subtract_P] returns and subtracts
    each allocated polarisation from its target once: for every
    component [ec] of FOR_FT_COMPONENTS(ft) and copy [cmp] with
    [P[ec][cmp]] and [f_minus_p[dc][cmp]] both non-NULL,
    [dc = field_type_component(ft2, ec)], the target gets
    [fmp[i] - p[i]] for [0 <= i < ntot] and keeps [fmp[i]] elsewhere;
    an entry of [f_minus_p] that is no such target, or whose [P] is
    NULL, is unchanged.  FOR_FT_COMPONENTS is taken to list each
    component once and [field_type_component(ft2, .)] to send different
    components of the list to different targets. *)
Theorem subtract_P_spec (ft : field_type) (f_minus_p : field_table)
  (d : lorentzian_data) :
  NoDup (FOR_FT_COMPONENTS ft) ->
  (forall ec ec', In ec (FOR_FT_COMPONENTS ft) ->
     In ec' (FOR_FT_COMPONENTS ft) ->
     field_type_component (subtract_target ft) ec
     = field_type_component (subtract_target ft) ec' -> ec = ec') ->
  exists fmp',
    subtract_P ft f_minus_p (Some d) = Ok fmp'
    /\ (forall ec cmp p a,
        In ec (FOR_FT_COMPONENTS ft) -> In cmp DOCMP2 ->
        P d ec cmp = Some p ->
        f_minus_p (field_type_component (subtract_target ft) ec) cmp
        = Some a ->
        exists a',
          fmp' (field_type_component (subtract_target ft) ec) cmp = Some a'
          /\ (forall i, (0 <= i < Z.of_nat (ntot d))%Z -> a' i = a i - p i)
          /\ (forall i, ~ (0 <= i < Z.of_nat (ntot d))%Z -> a' i = a i))
    /\ (forall ec cmp,
        In ec (FOR_FT_COMPONENTS ft) -> P d ec cmp = None ->
        fmp' (field_type_component (subtract_target ft) ec) cmp
        = f_minus_p (field_type_component (subtract_target ft) ec) cmp)
    /\ (forall c cmp,
        (forall ec, In ec (FOR_FT_COMPONENTS ft) ->
           field_type_component (subtract_target ft) ec <> c)
        \/ ~ In cmp DOCMP2 ->
        fmp' c cmp = f_minus_p c cmp).
Proof.
  intros Hnd Hinj.
  destruct (subtract_P_loop ft d (FOR_FT_COMPONENTS ft) Hnd Hinj f_minus_p)
    as [fmp' [E [V F]]].
  exists fmp'. split; [exact E |]. split; [| split].
  - intros ec cmp p a Hec Hk EP Ea.
    pose proof (V ec cmp Hec Hk) as Hv.
    rewrite EP, Ea in Hv.
    exists (subtract_loop (ntot d) p a). split; [exact Hv |].
    split; intros i Hi; apply subtract_loop_spec; exact Hi.
  - intros ec cmp Hec EP.
    destruct (in_dec Nat.eq_dec cmp DOCMP2) as [Hk | Hk].
    + pose proof (V ec cmp Hec Hk) as Hv.
      rewrite EP in Hv. exact Hv.
    + apply F. right. exact Hk.
  - exact F.
Qed.

(** ** The gyrotropic constructor *)

Lemma skew_tensor_skew (bn : vec) (i j : Z) :
  skew_tensor bn i j = - skew_tensor bn j i.
Proof.
  unfold skew_tensor, mat3_set, mat3_zero, iX, iY, iZ.
  rewrite X_value, Y_value, Z_value.
  destruct (Z.eqb_spec i 0); destruct (Z.eqb_spec i 1);
    destruct (Z.eqb_spec i 2);
    destruct (Z.eqb_spec j 0); destruct (Z.eqb_spec j 1);
    destruct (Z.eqb_spec j 2); simpl; try (exfalso; lia); ring.
Qed.

(** The tensor depends on the three coordinates only. *)
Lemma skew_tensor_ext (u v : vec) (i j : Z) :
  vec_x u = vec_x v -> vec_y u = vec_y v -> vec_z u = vec_z v ->
  skew_tensor u i j = skew_tensor v i j.
Proof.
  intros Ex Ey Ez. unfold skew_tensor, mat3_set. now rewrite Ex, Ey, Ez.
Qed.

Lemma tensor_bias_skew (bn : vec) :
  vec_x (tensor_bias (skew_tensor bn)) = vec_x bn
  /\ vec_y (tensor_bias (skew_tensor bn)) = vec_y bn
  /\ vec_z (tensor_bias (skew_tensor bn)) = vec_z bn.
Proof.
  destruct (skew_tensor_entries bn) as [Ex [Ey [Ez _]]].
  unfold tensor_bias, iX, iY, iZ. rewrite X_value, Y_value, Z_value.
  simpl. auto.
Qed.

Lemma vec_abs_sqr (v : vec) :
  vec_abs v * vec_abs v
  = vec_x v * vec_x v + vec_y v * vec_y v + vec_z v * vec_z v.
Proof. unfold vec_abs. apply sqrt_sqrt. nra. Qed.

Lemma vec_abs_nonneg (v : vec) : 0 <= vec_abs v.
Proof. unfold vec_abs. apply sqrt_pos. Qed.

(** A vector divided by its length has length one. *)
Lemma vec_abs_normalised (v : vec) :
  0 < vec_abs v -> vec_abs (vec_div v (vec_abs v)) = 1.
Proof.
  intros Hn. pose proof (vec_abs_sqr v) as Hs.
  pose proof (vec_abs_nonneg (vec_div v (vec_abs v))) as H0.
  pose proof (vec_abs_sqr (vec_div v (vec_abs v))) as H1.
  simpl in H1.
  assert (H2 : vec_abs (vec_div v (vec_abs v))
               * vec_abs (vec_div v (vec_abs v)) = 1).
  { rewrite H1.
    replace (vec_x v / vec_abs v * (vec_x v / vec_abs v)
             + vec_y v / vec_abs v * (vec_y v / vec_abs v)
             + vec_z v / vec_abs v * (vec_z v / vec_abs v))
      with ((vec_x v * vec_x v + vec_y v * vec_y v + vec_z v * vec_z v)
            / (vec_abs v * vec_abs v)) by (field; lra).
    rewrite <- Hs. field. lra. }
  nra.
Qed.


(** X13. Dump and rebuild: for a bias of length at least [1e-10], the
    constructor applied to the bias, [alpha], [omega_0] and [gamma]
    that [dump_params] writes gives back the same tensor and the same
    parameters. *)
Theorem gyrotropic_dump_rebuild (base : susceptibility) (bias : vec)
  (a o g : R) (h5f : h5file) (start : Z) :
  1e-10 <= vec_abs bias ->
  let sus := gyrotropic_ctor base bias a o g in
  exists id bx by_ bz a' o' g' flag,
    fst (gyrotropic_dump_params sus h5f start)
    = h5f ++ [(start, [8; id; bx; by_; bz; a'; o'; g'; flag])]
    /\ let bias' := {| vec_x := bx; vec_y := by_; vec_z := bz |} in
       let sus' := gyrotropic_ctor base bias' a' o' g' in
       (forall i j, gyro_tensor sus' i j = gyro_tensor sus i j)
       /\ alpha sus' = alpha sus /\ omega_0 sus' = omega_0 sus
       /\ gamma sus' = gamma sus
       /\ double_of_bool (no_omega_0_denominator sus') = flag.
Proof.
  intros Hb sus. unfold sus.
  rewrite gyrotropic_dump_params_ctor. simpl fst.
  do 8 eexists. split; [reflexivity |]. simpl.
  split; [| repeat split; reflexivity].
  intros i j. rewrite Rmax_left by exact Hb.
  apply skew_tensor_ext; simpl.
  - change (vec_x bias / vec_abs bias)
      with (vec_x (vec_div bias (vec_abs bias))).
    set (bn := vec_div bias (vec_abs bias)).
    replace {| vec_x := vec_x bn; vec_y := vec_y bias / vec_abs bias;
               vec_z := vec_z bias / vec_abs bias |} with bn
      by reflexivity.
    unfold bn. rewrite vec_abs_normalised by lra.
    rewrite Rmax_left by lra. simpl. field. lra.
  - set (bn := vec_div bias (vec_abs bias)).
    replace {| vec_x := vec_x bias / vec_abs bias;
               vec_y := vec_y bias / vec_abs bias;
               vec_z := vec_z bias / vec_abs bias |} with bn
      by reflexivity.
    unfold bn. rewrite vec_abs_normalised by lra.
    rewrite Rmax_left by lra. field. lra.
  - set (bn := vec_div bias (vec_abs bias)).
    replace {| vec_x := vec_x bias / vec_abs bias;
               vec_y := vec_y bias / vec_abs bias;
               vec_z := vec_z bias / vec_abs bias |} with bn
      by reflexivity.
    unfold bn. rewrite vec_abs_normalised by lra.
    rewrite Rmax_left by lra. field. lra.
Qed.

(** ** The gyrotropic update in general *)

(** A loop one of whose iterations faults, whatever state reaches it,
    faults. *)
Lemma fold_res_fault {A S : Type} (body : S -> A -> result S)
  (Inv : S -> Prop) (l : list A) (a : A) :
  In a l ->
  (forall s x s', Inv s -> body s x = Ok s' -> Inv s') ->
  (forall s, Inv s -> exists f, body s a = Fault f) ->
  forall s, Inv s -> exists f, fold_res body l s = Fault f.
Proof.
  intros Ha Hpres Hfault. induction l as [| x l IH]; intros s Hs.
  - destruct Ha.
  - rewrite fold_res_cons.
    destruct (body s x) as [s' | f] eqn:E; simpl; [| eauto].
    destruct Ha as [-> | Ha].
    + destruct (Hfault s Hs) as [f Ef]. congruence.
    + apply IH; [exact Ha | eapply Hpres; eassumption].
Qed.

(** X14. The gyrotropic [update_P] aborts on cylindrical components:
    if some entry of FOR_COMPONENTS x DOCMP2 has its [P] and its [W]
    and a direction other than X, Y, Z, the call does not return. *)
Theorem gyrotropic_update_P_cylindrical (sus : gyrotropic_susceptibility)
  (dt : R) (W W_prev : field_table) (gv : grid_volume) (d : lorentzian_data)
  (c : component) (k : nat) :
  In c FOR_COMPONENTS -> In k DOCMP2 ->
  P d c k <> None -> W c k <> None ->
  not_cartesian (component_direction c) = true ->
  exists f, gyrotropic_update_P sus dt W W_prev gv (Some d) = Fault f.
Proof.
  intros Hc Hk HP HW Hn. unfold gyrotropic_update_P. simpl.
  assert (Hpres : forall c0 k0 s s',
            P s = P d -> gyro_pass1_component sus dt W gv c0 k0 s = Ok s' ->
            P s' = P d).
  { intros c0 k0 s s' Hs E.
    destruct (gyro_pass1_frame sus dt W gv c0 k0 s s' E) as [E' _].
    congruence. }
  destruct (fold_res_fault
              (fun s c0 =>
                 fold_res (fun s k0 => gyro_pass1_component sus dt W gv c0 k0 s)
                          DOCMP2 s)
              (fun s => P s = P d) FOR_COMPONENTS c Hc)
    with (s := d) as [f Ef].
  - intros s c0 s' Hs E. unfold DOCMP2 in E. simpl in E.
    apply bind_Ok in E. destruct E as [s1 [E1 E]].
    apply bind_Ok in E. destruct E as [s2 [E2 E]].
    injection E as <-. eauto.
  - intros s Hs.
    apply (fold_res_fault
             (fun s k0 => gyro_pass1_component sus dt W gv c k0 s)
             (fun s => P s = P d) DOCMP2 k Hk); [| | exact Hs].
    + intros s0 k0 s' Hs0 E. eapply Hpres; eassumption.
    + intros s0 Hs0. exists Aborted. unfold gyro_pass1_component.
      rewrite Hs0.
      destruct (P d c k); [| now elim HP].
      destruct (W c k); [| now elim HW].
      now rewrite Hn.
  - reflexivity.
  - unfold for_components_docmp2. rewrite Ef. simpl. eauto.
Qed.

Section GyrotropicGeneral.

Variable sus : gyrotropic_susceptibility.
Variable dt : R.
Variable W : field_table.
Variable gv : grid_volume.

Hypothesis owned_once : forall c, NoDup (owned gv c).

Lemma gyro_body1_point (p : array) (p1 p2 w1 w2 s1 s2 : ptr)
  (vab1 vab2 ndt1 ndt2 : R) :
  (w1 <> None -> s1 <> None) -> (w2 <> None -> s2 <> None) ->
  forall pp i, pp <> None ->
  exists pp',
    gyro_body1 sus dt p p1 p2 w1 w2 s1 s2 vab1 vab2 ndt1 ndt2 pp i = Ok pp'
    /\ pp' <> None
    /\ (forall j, j <> i -> ptr_at pp' j = ptr_at pp j)
    /\ ptr_at pp' i
       = ua sus dt * p i + vab1 * ptr_at p1 i + vab2 * ptr_at p2 i
         + ndt1 * ptr_at s1 i * ptr_at w1 i
         + ndt2 * ptr_at s2 i * ptr_at w2 i.
Proof.
  intros M1 M2 [ppa |] i Hpp; [| now elim Hpp].
  unfold gyro_body1.
  destruct w1 as [w1a |]; [destruct s1 as [s1a |];
                           [| elim M1; [discriminate | reflexivity]] |];
    (destruct w2 as [w2a |]; [destruct s2 as [s2a |];
                              [| elim M2; [discriminate | reflexivity]] |]);
    destruct p1 as [p1a |]; destruct p2 as [p2a |]; simpl;
    (eexists; split; [reflexivity |]; split; [discriminate |]; split;
     [intros j Hj; simpl;
      now rewrite ?add_at_other, ?upd_other by assumption
     | simpl; rewrite ?add_at_same, ?upd_same; ring]).
Qed.

Lemma tensor_read (i j : Z) :
  in_range3 i = true -> in_range3 j = true ->
  mat3_get (gyro_tensor sus) i j = Ok (gyro_tensor sus i j).
Proof. intros Hi Hj. unfold mat3_get. now rewrite Hi, Hj. Qed.

Lemma masked_sigma_at (w s : ptr) (i : Z) :
  ptr_at (if non_null w then s else None) i * ptr_at w i
  = ptr_at s i * ptr_at w i.
Proof. destruct w; simpl; ring. Qed.

Lemma gyro_pass1_point (c : component) (k : nat) (d : lorentzian_data)
  (p w ppa : array) :
  P d c k = Some p -> W c k = Some w -> gyro_ready sus W gv c k ->
  P_prev d c k = Some ppa ->
  exists pp',
    gyro_pass1_component sus dt W gv c k d
    = Ok {| ntot := ntot d;
            P := P d;
            P_prev := set_entry (P_prev d) c k (Some pp') |}
    /\ (forall j, In j (owned gv c) -> pp' j = gyro_drive sus dt W gv d c k j)
    /\ (forall j, ~ In j (owned gv c) -> pp' j = ppa j).
Proof.
  intros EP EW [Hc [R1 [R2 [_ [_ [S1 S2]]]]]] EPP.
  unfold gyro_pass1_component. rewrite EP, EW, Hc, EPP. cbv beta iota zeta.
  rewrite !tensor_read by (auto using cartesian_in_range).
  unfold bind at 1 2.
  match goal with
  | |- context [fold_res (gyro_body1 _ _ ?p_ ?p1 ?p2 ?w1 ?w2 ?s1 ?s2
                            ?vab1 ?vab2 ?ndt1 ?ndt2) ?xs ?st0] =>
      destruct (pointwise_loop ptr R ptr_at (fun pp => pp <> None)
                  (gyro_body1 sus dt p_ p1 p2 w1 w2 s1 s2 vab1 vab2 ndt1 ndt2)
                  (fun i _ v' =>
                     v' = ua sus dt * p_ i + vab1 * ptr_at p1 i
                          + vab2 * ptr_at p2 i
                          + ndt1 * ptr_at s1 i * ptr_at w1 i
                          + ndt2 * ptr_at s2 i * ptr_at w2 i))
        with (l := xs) (s := st0) as [[pp' |] [E [Hnn [Hout Hin]]]]
  end.
  - intros pp i Hpp.
    match goal with
    | |- context [gyro_body1 _ _ ?p_ ?p1 ?p2 ?w1 ?w2 ?s1 ?s2
                    ?vab1 ?vab2 ?ndt1 ?ndt2] =>
        destruct (gyro_body1_point p_ p1 p2 w1 w2 s1 s2 vab1 vab2 ndt1 ndt2)
          with (pp := pp) (i := i) as [pp' H']
    end.
    + intros Hw.
      destruct (W (direction_component c
                  (cycle_direction (dim gv) (component_direction c) 1)) k)
        eqn:E1; [simpl; apply S1; congruence | now elim Hw].
    + intros Hw.
      destruct (W (direction_component c
                  (cycle_direction (dim gv) (component_direction c) 2)) k)
        eqn:E2; [simpl; apply S2; congruence | now elim Hw].
    + exact Hpp.
    + exists pp'. exact H'.
  - apply owned_once.
  - discriminate.
  - rewrite E. simpl. exists pp'. split; [reflexivity |]. split.
    + intros j Hj. etransitivity; [exact (Hin j Hj) |].
      unfold gyro_drive. rewrite EP.
      cbv zeta. simpl (ptr_at (Some p) j).
      rewrite !Rmult_assoc, !masked_sigma_at. ring.
    + intros j Hj. apply (Hout j Hj).
  - now elim Hnn.
Qed.

Lemma gyro_drive_same_P (d d' : lorentzian_data) (c : component) (k : nat)
  (i : Z) :
  P d' = P d ->
  gyro_drive sus dt W gv d' c k i = gyro_drive sus dt W gv d c k i.
Proof. intros E. unfold gyro_drive. now rewrite E. Qed.

(** The first pass: every entry whose [P] and [W] are there gets its
    drive in [P_prev] at the owned points; [P] is only read. *)
Lemma gyro_pass1_general (d : lorentzian_data) :
  wf_data d ->
  (forall c k, In c FOR_COMPONENTS -> In k DOCMP2 ->
     P d c k <> None -> W c k <> None -> gyro_ready sus W gv c k) ->
  exists d1,
    for_components_docmp2 (gyro_pass1_component sus dt W gv) d = Ok d1
    /\ wf_data d1 /\ P d1 = P d
    /\ forall c k p, In c FOR_COMPONENTS -> In k DOCMP2 ->
       P d c k = Some p -> W c k <> None ->
       exists pp', P_prev d1 c k = Some pp'
                   /\ forall i, In i (owned gv c) ->
                      pp' i = gyro_drive sus dt W gv d c k i.
Proof.
  intros Hd Hready.
  destruct (for_components_spec lorentzian_data ptr
              (fun d0 c k => P_prev d0 c k)
              (gyro_pass1_component sus dt W gv)
              (fun d0 => wf_data d0 /\ P d0 = P d))
    with (s := d) as [d1 [E [[Hwf HP] [_ Hin]]]].
  - intros c k s Hc Hk [Hs HPs].
    destruct (P s c k) as [p |] eqn:EP;
      [| exists s; split; [apply gyro_pass1_idle; now left | now split]].
    destruct (W c k) as [w |] eqn:EW;
      [| exists s; split; [apply gyro_pass1_idle; now right | now split]].
    destruct (P_prev s c k) as [ppa |] eqn:EPP;
      [| elim (Hs c k); [rewrite EP; discriminate | exact EPP]].
    destruct (gyro_pass1_point c k s p w ppa EP EW) as [pp' [E _]]; auto.
    { apply Hready; auto; rewrite <- ?HPs, ?EP, ?EW; discriminate. }
    eexists. split; [exact E |]. split; [| exact HPs].
    intros c' k'. simpl. intros Hn.
    destruct (component_eq_dec c' c) as [-> | n].
    + destruct (Nat.eq_dec k' k) as [-> | n'].
      * rewrite set_entry_same. discriminate.
      * rewrite set_entry_other by tauto. now apply Hs.
    + rewrite set_entry_other by tauto. now apply Hs.
  - intros c k s s' _ E c' k' Hd'.
    destruct (gyro_pass1_frame sus dt W gv c k s s' E) as [_ [_ F]].
    now apply F.
  - now split.
  - exists d1. split; [exact E |]. split; [exact Hwf |]. split; [exact HP |].
    intros c k p Hc Hk EP HW.
    destruct (Hin c k Hc Hk) as [s1 [s2 [[Hs1 HP1] [E1 [St E2]]]]].
    destruct (W c k) as [w |] eqn:EW; [| now elim HW].
    assert (EP1 : P s1 c k = Some p) by (now rewrite HP1).
    destruct (P_prev s1 c k) as [ppa |] eqn:EPP;
      [| elim (Hs1 c k); [rewrite EP1; discriminate | exact EPP]].
    destruct (gyro_pass1_point c k s1 p w ppa EP1 EW) as [pp' [E' [Hv _]]];
      auto.
    { apply Hready; auto; rewrite ?EP, ?EW; discriminate. }
    rewrite St in E'. injection E' as ->.
    exists pp'. split.
    + rewrite E2. simpl. now rewrite set_entry_same.
    + intros i Hi. rewrite (Hv i Hi). now apply gyro_drive_same_P.
Qed.

Lemma gyro_body2_point (inv : mat3) (d0 d1 d2 : direction) (ppa : array)
  (pp1 pp2 : ptr) :
  in_range3 (direction_value d0) = true ->
  in_range3 (direction_value d1) = true ->
  in_range3 (direction_value d2) = true ->
  forall p i, True ->
  exists p',
    gyro_body2 inv d0 d1 d2 (Some ppa) pp1 pp2 p i = Ok p'
    /\ True
    /\ (forall j, j <> i -> p' j = p j)
    /\ p' i = inv (direction_value d0) (direction_value d0) * ppa i
              + inv (direction_value d0) (direction_value d1) * ptr_at pp1 i
              + inv (direction_value d0) (direction_value d2) * ptr_at pp2 i.
Proof.
  intros R0 R1 R2 p i _. unfold gyro_body2, mat3_get.
  rewrite R0, R1, R2. simpl.
  destruct pp1 as [pp1a |], pp2 as [pp2a |]; simpl;
    (eexists; split; [reflexivity |]; split; [exact I |]; split;
     [intros j Hj; now rewrite ?add_at_other, ?upd_other by assumption
     | rewrite ?add_at_same, ?upd_same; ring]).
Qed.

Lemma gyro_pass2_point (c : component) (k : nat) (d : lorentzian_data)
  (p ppa : array) :
  P d c k = Some p -> W c k <> None ->
  sigma sus c (component_direction c) <> None ->
  gyro_ready sus W gv c k -> P_prev d c k = Some ppa ->
  exists p',
    gyro_pass2_component sus dt W gv c k d
    = Ok {| ntot := ntot d;
            P := set_entry (P d) c k (Some p');
            P_prev := P_prev d |}
    /\ (forall j, In j (owned gv c) -> p' j = gyro_solve sus dt W gv d c k j)
    /\ (forall j, ~ In j (owned gv c) -> p' j = p j).
Proof.
  intros EP HW HS [Hc [R1 [R2 _]]] EPP.
  unfold gyro_pass2_component. rewrite EP, EPP.
  destruct (W c k) as [w |]; [| now elim HW].
  destruct (sigma sus c (component_direction c)) as [s |]; [| now elim HS].
  cbv beta iota zeta. simpl (non_null _ && non_null _)%bool. cbv iota.
  match goal with
  | |- context [fold_res (gyro_body2 ?inv ?d0 ?d1 ?d2 _ ?pp1 ?pp2) ?xs ?st0] =>
      destruct (pointwise_loop array R (fun a j => a j) (fun _ => True)
                  (gyro_body2 inv d0 d1 d2 (Some ppa) pp1 pp2)
                  (fun i _ v' =>
                     v' = inv (direction_value d0) (direction_value d0) * ppa i
                          + inv (direction_value d0) (direction_value d1)
                            * ptr_at pp1 i
                          + inv (direction_value d0) (direction_value d2)
                            * ptr_at pp2 i)
                  (gyro_body2_point inv d0 d1 d2 ppa pp1 pp2
                     (cartesian_in_range d0 Hc) R1 R2)
                  xs (owned_once c) st0 I)
        as [p' [E [_ [Hout Hin]]]]
  end.
  rewrite E. simpl. exists p'. split; [reflexivity |]. split.
  - intros j Hj. etransitivity; [exact (Hin j Hj) |].
    unfold gyro_solve. rewrite EPP. reflexivity.
  - intros j Hj. apply (Hout j Hj).
Qed.

Lemma gyro_solve_same_prev (d d' : lorentzian_data) (c : component) (k : nat)
  (i : Z) :
  P_prev d' = P_prev d ->
  gyro_solve sus dt W gv d' c k i = gyro_solve sus dt W gv d c k i.
Proof. intros E. unfold gyro_solve. now rewrite E. Qed.

(** The second pass, from the blob [d1] that the first pass left. *)
Lemma gyro_pass2_general (d1 : lorentzian_data) :
  wf_data d1 ->
  (forall c k, In c FOR_COMPONENTS -> In k DOCMP2 ->
     P d1 c k <> None -> W c k <> None -> gyro_ready sus W gv c k) ->
  exists d2,
    for_components_docmp2 (gyro_pass2_component sus dt W gv) d1 = Ok d2
    /\ P_prev d2 = P_prev d1
    /\ forall c k p, In c FOR_COMPONENTS -> In k DOCMP2 ->
       P d1 c k = Some p -> W c k <> None ->
       sigma sus c (component_direction c) <> None ->
       exists p', P d2 c k = Some p'
         /\ forall i, In i (owned gv c) ->
            p' i = gyro_solve sus dt W gv d1 c k i.
Proof.
  intros Hd Hready.
  destruct (for_components_spec lorentzian_data ptr
              (fun d0 c k => P d0 c k)
              (gyro_pass2_component sus dt W gv)
              (fun d0 => P_prev d0 = P_prev d1
                         /\ forall c k, P d0 c k <> None -> P d1 c k <> None))
    with (s := d1) as [d2 [E [[HPP Hal] [_ Hin]]]].
  - intros c k s Hc Hk [HPs Hals].
    destruct (P s c k) as [p |] eqn:EP;
      [| exists s; split;
         [apply (gyro_pass2_idle sus dt W gv); now left | now split]].
    destruct (W c k) as [w |] eqn:EW;
      [| exists s; split;
         [apply (gyro_pass2_idle sus dt W gv); tauto | now split]].
    destruct (sigma sus c (component_direction c)) as [sg |] eqn:ES;
      [| exists s; split;
         [apply (gyro_pass2_idle sus dt W gv); tauto | now split]].
    assert (Hal1 : P d1 c k <> None) by (apply Hals; rewrite EP; discriminate).
    destruct (P_prev s c k) as [ppa |] eqn:EPP;
      [| elim (Hd c k Hal1); now rewrite <- HPs].
    destruct (gyro_pass2_point c k s p ppa EP) as [p' [E _]]; auto;
      try (rewrite ?EW, ?ES; discriminate).
    { apply Hready; auto. rewrite EW. discriminate. }
    eexists. split; [exact E |]. simpl. split; [exact HPs |].
    intros c' k'.
    destruct (component_eq_dec c' c) as [-> | n].
    + destruct (Nat.eq_dec k' k) as [-> | n'].
      * intros _. exact Hal1.
      * rewrite set_entry_other by tauto. apply Hals.
    + rewrite set_entry_other by tauto. apply Hals.
  - intros c k s s' _ E c' k' Hd'.
    destruct (gyro_pass2_frame sus dt W gv c k s s' E) as [_ [F _]].
    now apply F.
  - split; [reflexivity | auto].
  - exists d2. split; [exact E |]. split; [exact HPP |].
    intros c k p Hc Hk EP HW ES.
    destruct (Hin c k Hc Hk) as [s1 [s2 [[HPs Hals] [E1 [St E2]]]]].
    rewrite EP in E1.
    destruct (P_prev s1 c k) as [ppa |] eqn:EPP;
      [| elim (Hd c k); [rewrite EP; discriminate | now rewrite <- HPs]].
    destruct (gyro_pass2_point c k s1 p ppa E1 HW ES) as [p' [E' [Hv _]]].
    + apply Hready; auto. rewrite EP. discriminate.
    + exact EPP.
    + rewrite St in E'. injection E' as ->.
      exists p'. split.
      * rewrite E2. simpl. now rewrite set_entry_same.
      * intros i Hi. rewrite (Hv i Hi). now apply gyro_solve_same_prev.
Qed.

(** The two passes together. *)
Lemma gyrotropic_update_general (W_prev : field_table) (d : lorentzian_data) :
  wf_data d ->
  (forall c k, In c FOR_COMPONENTS -> In k DOCMP2 ->
     P d c k <> None -> W c k <> None -> gyro_ready sus W gv c k) ->
  exists d1 d',
    gyrotropic_update_P sus dt W W_prev gv (Some d) = Ok d'
    /\ P d1 = P d /\ P_prev d' = P_prev d1
    /\ (forall c k p, In c FOR_COMPONENTS -> In k DOCMP2 ->
        P d c k = Some p -> W c k <> None ->
        exists pp', P_prev d1 c k = Some pp'
          /\ forall i, In i (owned gv c) ->
             pp' i = gyro_drive sus dt W gv d c k i)
    /\ (forall c k p, In c FOR_COMPONENTS -> In k DOCMP2 ->
        P d c k = Some p -> W c k <> None ->
        sigma sus c (component_direction c) <> None ->
        exists p', P d' c k = Some p'
          /\ forall i, In i (owned gv c) ->
             p' i = gyro_solve sus dt W gv d1 c k i).
Proof.
  intros Hd Hready.
  destruct (gyro_pass1_general d Hd Hready) as [d1 [E1 [Hwf1 [HP1 Hv1]]]].
  destruct (gyro_pass2_general d1 Hwf1) as [d2 [E2 [HPP2 Hv2]]].
  { intros c k Hc Hk. rewrite HP1. now apply Hready. }
  exists d1, d2. split.
  { unfold gyrotropic_update_P. simpl. rewrite E1. simpl. exact E2. }
  split; [exact HP1 |]. split; [exact HPP2 |]. split; [exact Hv1 |].
  intros c k p Hc Hk EP HW ES. apply (Hv2 c k p); auto. now rewrite HP1.
Qed.

End GyrotropicGeneral.

(** Solving a 3x3 system with a right inverse, the unknowns taken in
    any order [a], [b], [c] of the indices 0, 1, 2. *)
Lemma mat3_solve (M inv : mat3) (a b c : Z) (R0 R1 R2 : R) :
  (0 <= a < 3)%Z -> (0 <= b < 3)%Z -> (0 <= c < 3)%Z ->
  a <> b -> b <> c -> a <> c ->
  (forall i j, (0 <= i < 3)%Z -> (0 <= j < 3)%Z ->
     mat3_mul M inv i j = mat3_id i j) ->
  let q0 := inv a a * R0 + inv a b * R1 + inv a c * R2 in
  let q1 := inv b b * R1 + inv b c * R2 + inv b a * R0 in
  let q2 := inv c c * R2 + inv c a * R0 + inv c b * R1 in
  M a a * q0 + M a b * q1 + M a c * q2 = R0
  /\ M b a * q0 + M b b * q1 + M b c * q2 = R1
  /\ M c a * q0 + M c b * q1 + M c c * q2 = R2.
Proof.
  intros Ha Hb Hc Nab Nbc Nac Hinv q0 q1 q2.
  assert (Hrow : forall r,
            M r a * q0 + M r b * q1 + M r c * q2
            = mat3_mul M inv r a * R0 + mat3_mul M inv r b * R1
              + mat3_mul M inv r c * R2).
  { intros r. unfold q0, q1, q2, mat3_mul.
    destruct (index3_cases a Ha) as [-> | [-> | ->]];
      destruct (index3_cases b Hb) as [-> | [-> | ->]];
      destruct (index3_cases c Hc) as [-> | [-> | ->]];
      try congruence; ring. }
  rewrite !Hrow, !Hinv by assumption. unfold mat3_id.
  rewrite !Z.eqb_refl.
  destruct (Z.eqb_spec a b); [contradiction |].
  destruct (Z.eqb_spec b c); [contradiction |].
  destruct (Z.eqb_spec a c); [contradiction |].
  destruct (Z.eqb_spec b a); [congruence |].
  destruct (Z.eqb_spec c b); [congruence |].
  destruct (Z.eqb_spec c a); [congruence |].
  repeat split; ring.
Qed.

Lemma gyro_inverse_ext (ub vb : R) (t t' : mat3) (i j : Z) :
  (forall a b, t a b = t' a b) ->
  gyro_inverse ub vb t i j = gyro_inverse ub vb t' i j.
Proof.
  intros E. unfold gyro_inverse, mat3_set. now rewrite !E.
Qed.

(** X15. The gyrotropic [update_P] is an implicit step: for three
    components along X, Y, Z that are all polarised (their [P], [W] and
    diagonal sigma are there) and a point owned by all three, the new
    polarisation [q] solves
    [(ub I + vb T) q = (ua I + va T) p + 2 pi dt T (sigma W)]
    at the point, with [T] the skew-symmetric tensor of the term and
    [p] the old polarisation; [ub <> 0]. *)
Theorem gyrotropic_update_P_solves (sus : gyrotropic_susceptibility)
  (bn : vec) (dt : R) (W W_prev : field_table) (gv : grid_volume)
  (d : lorentzian_data) (c0 c1 c2 : component) (k : nat)
  (p0 p1 p2 w0 w1 w2 s0 s1 s2 : array) (i : Z) :
  (forall a b, gyro_tensor sus a b = skew_tensor bn a b) ->
  ub sus dt <> 0 ->
  wf_data d -> (forall c, NoDup (owned gv c)) ->
  (forall c k, In c FOR_COMPONENTS -> In k DOCMP2 ->
     P d c k <> None -> W c k <> None -> gyro_ready sus W gv c k) ->
  cartesian_triple gv c0 c1 c2 ->
  In c0 FOR_COMPONENTS -> In c1 FOR_COMPONENTS -> In c2 FOR_COMPONENTS ->
  In k DOCMP2 ->
  P d c0 k = Some p0 -> P d c1 k = Some p1 -> P d c2 k = Some p2 ->
  W c0 k = Some w0 -> W c1 k = Some w1 -> W c2 k = Some w2 ->
  sigma sus c0 (component_direction c0) = Some s0 ->
  sigma sus c1 (component_direction c1) = Some s1 ->
  sigma sus c2 (component_direction c2) = Some s2 ->
  In i (owned gv c0) -> In i (owned gv c1) -> In i (owned gv c2) ->
  exists d' q0 q1 q2,
    gyrotropic_update_P sus dt W W_prev gv (Some d) = Ok d'
    /\ P d' c0 k = Some q0 /\ P d' c1 k = Some q1 /\ P d' c2 k = Some q2
    /\ let t := fun a b =>
                  gyro_tensor sus (direction_value (component_direction a))
                                  (direction_value (component_direction b)) in
       ub sus dt * q0 i + vb sus dt * (t c0 c1 * q1 i + t c0 c2 * q2 i)
       = ua sus dt * p0 i + va sus dt * (t c0 c1 * p1 i + t c0 c2 * p2 i)
         + 2 * pi * dt * (t c0 c1 * (s1 i * w1 i) + t c0 c2 * (s2 i * w2 i))
       /\ ub sus dt * q1 i + vb sus dt * (t c1 c2 * q2 i + t c1 c0 * q0 i)
          = ua sus dt * p1 i + va sus dt * (t c1 c2 * p2 i + t c1 c0 * p0 i)
            + 2 * pi * dt * (t c1 c2 * (s2 i * w2 i) + t c1 c0 * (s0 i * w0 i))
       /\ ub sus dt * q2 i + vb sus dt * (t c2 c0 * q0 i + t c2 c1 * q1 i)
          = ua sus dt * p2 i + va sus dt * (t c2 c0 * p0 i + t c2 c1 * p1 i)
            + 2 * pi * dt * (t c2 c0 * (s0 i * w0 i) + t c2 c1 * (s1 i * w1 i)).
Proof.
  intros HT Hub Hd Hnd Hready
    [[C01 [C02 [C12 [C10 [C20 C21]]]]]
     [[D01 [D02 [D12 [D10 [D20 D21]]]]]
      [[Ra [Rb Rc]] [Nab [Nbc Nac]]]]]
    Hc0 Hc1 Hc2 Hk EP0 EP1 EP2 EW0 EW1 EW2 ES0 ES1 ES2 Hi0 Hi1 Hi2.
  destruct (gyrotropic_update_general sus dt W gv Hnd W_prev d Hd Hready)
    as [d1 [d' [E [HP1 [HPP [Hv1 Hv2]]]]]].
  destruct (Hv1 c0 k p0 Hc0 Hk EP0) as [pp0 [EPP0 Hpp0]];
    [rewrite EW0; discriminate |].
  destruct (Hv1 c1 k p1 Hc1 Hk EP1) as [pp1 [EPP1 Hpp1]];
    [rewrite EW1; discriminate |].
  destruct (Hv1 c2 k p2 Hc2 Hk EP2) as [pp2 [EPP2 Hpp2]];
    [rewrite EW2; discriminate |].
  destruct (Hv2 c0 k p0 Hc0 Hk EP0) as [q0 [EQ0 Hq0]];
    [rewrite EW0; discriminate | rewrite ES0; discriminate |].
  destruct (Hv2 c1 k p1 Hc1 Hk EP1) as [q1 [EQ1 Hq1]];
    [rewrite EW1; discriminate | rewrite ES1; discriminate |].
  destruct (Hv2 c2 k p2 Hc2 Hk EP2) as [q2 [EQ2 Hq2]];
    [rewrite EW2; discriminate | rewrite ES2; discriminate |].
  exists d', q0, q1, q2.
  split; [exact E |]. split; [exact EQ0 |]. split; [exact EQ1 |].
  split; [exact EQ2 |].
  specialize (Hpp0 i Hi0). specialize (Hpp1 i Hi1). specialize (Hpp2 i Hi2).
  specialize (Hq0 i Hi0). specialize (Hq1 i Hi1). specialize (Hq2 i Hi2).
  unfold gyro_solve in Hq0, Hq1, Hq2. cbv zeta in Hq0, Hq1, Hq2.
  rewrite C01, C02, D01, D02, EW1, EW2, EPP0, EPP1, EPP2 in Hq0.
  rewrite C12, C10, D12, D10, EW2, EW0, EPP0, EPP1, EPP2 in Hq1.
  rewrite C20, C21, D20, D21, EW0, EW1, EPP0, EPP1, EPP2 in Hq2.
  simpl in Hq0, Hq1, Hq2.
  unfold gyro_drive in Hpp0, Hpp1, Hpp2. cbv zeta in Hpp0, Hpp1, Hpp2.
  rewrite C01, C02, D01, D02, EW1, EW2, EP0, EP1, EP2, ES1, ES2 in Hpp0.
  rewrite C12, C10, D12, D10, EW2, EW0, EP0, EP1, EP2, ES2, ES0 in Hpp1.
  rewrite C20, C21, D20, D21, EW0, EW1, EP0, EP1, EP2, ES0, ES1 in Hpp2.
  simpl in Hpp0, Hpp1, Hpp2.
  set (a := direction_value (component_direction c0)) in *.
  set (b := direction_value (component_direction c1)) in *.
  set (c := direction_value (component_direction c2)) in *.
  pose proof (in_range3_bounds a Ra) as Ba.
  pose proof (in_range3_bounds b Rb) as Bb.
  pose proof (in_range3_bounds c Rc) as Bc.
  destruct (mat3_solve
              (code_system_matrix (ub sus dt) (vb sus dt) (skew_tensor bn))
              (gyro_inverse (ub sus dt) (vb sus dt) (skew_tensor bn))
              a b c (pp0 i) (pp1 i) (pp2 i) Ba Bb Bc Nab Nbc Nac)
    as [S0 [S1 S2]].
  { intros x y Hx Hy.
    apply (gyro_inverse_code_system (ub sus dt) (vb sus dt) bn x y Hub Hx Hy). }
  cbv zeta in S0, S1, S2.
  assert (HI : forall x y,
            gyro_inverse (ub sus dt) (vb sus dt) (gyro_tensor sus) x y
            = gyro_inverse (ub sus dt) (vb sus dt) (skew_tensor bn) x y)
    by (intros x y; apply gyro_inverse_ext; exact HT).
  rewrite !HI in Hq0, Hq1, Hq2.
  rewrite <- Hq0, <- Hq1, <- Hq2 in S0, S1, S2.
  assert (Dg : forall x, (0 <= x < 3)%Z -> skew_tensor bn x x = 0).
  { intros x Hx.
    destruct (skew_tensor_entries bn) as [_ [_ [_ [_ [_ [_ [T0 [T1 T2]]]]]]]].
    destruct (index3_cases x Hx) as [-> | [-> | ->]]; assumption. }
  unfold code_system_matrix, mat3_id in S0, S1, S2.
  rewrite !Z.eqb_refl in S0, S1, S2.
  destruct (Z.eqb_spec a b); [contradiction |].
  destruct (Z.eqb_spec b c); [contradiction |].
  destruct (Z.eqb_spec a c); [contradiction |].
  destruct (Z.eqb_spec b a); [congruence |].
  destruct (Z.eqb_spec c b); [congruence |].
  destruct (Z.eqb_spec c a); [congruence |].
  rewrite !Dg in S0, S1, S2 by assumption.
  cbv beta zeta. fold a b c. rewrite !HT.
  rewrite !HT in Hpp0. rewrite !HT in Hpp1. rewrite !HT in Hpp2.
  repeat split.
  - transitivity (pp0 i); [rewrite <- S0; ring | rewrite Hpp0; ring].
  - transitivity (pp1 i); [rewrite <- S1; ring | rewrite Hpp1; ring].
  - transitivity (pp2 i); [rewrite <- S2; ring | rewrite Hpp2; ring].
Qed.

(** X16. The gyrotropic [update_P] uses [P_prev] as a work array: after
    the call, an entry whose [P] and [W] are there holds in [P_prev],
    at each owned point, not the old [P] but the right-hand side
    [ua P + va (t1 P1 + t2 P2) + 2 pi dt (t1 s1 W1 + t2 s2 W2)] built
    from the old [P] of the component and of its two transverse
    neighbours (a NULL neighbour contributes nothing), with
    [t1 = gyro_tensor[d0][d1]] and [t2 = gyro_tensor[d0][d2]]. *)
Theorem gyrotropic_update_P_prev (sus : gyrotropic_susceptibility) (dt : R)
  (W W_prev : field_table) (gv : grid_volume) (d : lorentzian_data)
  (c : component) (k : nat) (p : array) :
  let d0 := component_direction c in
  let d1 := cycle_direction (dim gv) d0 1 in
  let d2 := cycle_direction (dim gv) d0 2 in
  let c1 := direction_component c d1 in
  let c2 := direction_component c d2 in
  let t1 := gyro_tensor sus (direction_value d0) (direction_value d1) in
  let t2 := gyro_tensor sus (direction_value d0) (direction_value d2) in
  wf_data d -> (forall c, NoDup (owned gv c)) ->
  (forall c k, In c FOR_COMPONENTS -> In k DOCMP2 ->
     P d c k <> None -> W c k <> None -> gyro_ready sus W gv c k) ->
  In c FOR_COMPONENTS -> In k DOCMP2 ->
  P d c k = Some p -> W c k <> None ->
  exists d' pp',
    gyrotropic_update_P sus dt W W_prev gv (Some d) = Ok d'
    /\ P_prev d' c k = Some pp'
    /\ forall i, In i (owned gv c) ->
       pp' i = ua sus dt * p i
               + va sus dt * (t1 * ptr_at (P d c1 k) i
                              + t2 * ptr_at (P d c2 k) i)
               + 2 * pi * dt
                 * (t1 * (ptr_at (sigma sus c1 d1) i * ptr_at (W c1 k) i)
                    + t2 * (ptr_at (sigma sus c2 d2) i * ptr_at (W c2 k) i)).
Proof.
  intros d0 d1 d2 c1 c2 t1 t2 Hd Hnd Hready Hc Hk EP HW.
  destruct (gyrotropic_update_general sus dt W gv Hnd W_prev d Hd Hready)
    as [da [d' [E [HP1 [HPP [Hv1 _]]]]]].
  destruct (Hv1 c k p Hc Hk EP HW) as [pp' [EPP Hpp]].
  exists d', pp'. split; [exact E |]. split; [now rewrite HPP |].
  intros i Hi. rewrite (Hpp i Hi). unfold gyro_drive. rewrite EP.
  cbv zeta. fold d0 d1 d2 c1 c2 t1 t2. simpl. ring.
Qed.

(** ** The layout of the blob *)

Lemma nested_fold_entries {S : Type} (f : component -> nat -> S -> S)
  (l : list component) (s : S) :
  fold_left (fun s c => fold_left (fun s k => f c k s) DOCMP2 s) l s
  = fold_left (fun s ck => f (fst ck) (snd ck) s)
      (flat_map (fun c => map (pair c) DOCMP2) l) s.
Proof.
  revert s. induction l as [| c l IH]; intros s; [reflexivity |].
  simpl. rewrite IH. reflexivity.
Qed.

Lemma in_entries (c : component) (k : nat) :
  In (c, k) entries <-> In c FOR_COMPONENTS /\ In k DOCMP2.
Proof.
  unfold entries. rewrite in_flat_map. split.
  - intros [c' [Hc Hin]]. apply in_map_iff in Hin.
    destruct Hin as [k' [E Hk]]. injection E as -> ->. auto.
  - intros [Hc Hk]. exists c. split; [exact Hc |]. now apply in_map.
Qed.

Lemma entries_NoDup : NoDup entries.
Proof.
  unfold entries. pose proof FOR_COMPONENTS_NoDup as Hnd.
  induction Hnd as [| c l Hc Hnd IH]; [constructor |].
  change (NoDup ((c, 0%nat) :: (c, 1%nat)
                 :: flat_map (fun c => map (pair c) DOCMP2) l)).
  constructor; [| constructor; [| exact IH]].
  - intros [E | Hin]; [discriminate |].
    apply in_flat_map in Hin. destruct Hin as [c' [Hc' Hin]].
    apply in_map_iff in Hin. destruct Hin as [k' [E _]].
    injection E as -> _. contradiction.
  - intros Hin.
    apply in_flat_map in Hin. destruct Hin as [c' [Hc' Hin]].
    apply in_map_iff in Hin. destruct Hin as [k' [E _]].
    injection E as -> _. contradiction.
Qed.

Lemma set_pointer_same (t : pointer_table) (c : component) (cmp : nat)
  (a : data_ptr) : set_pointer t c cmp a c cmp = a.
Proof.
  unfold set_pointer.
  destruct (component_eq_dec c c) as [_ | n]; [| contradiction].
  now rewrite Nat.eqb_refl.
Qed.

Lemma set_pointer_other (t : pointer_table) (c c' : component)
  (cmp cmp' : nat) (a : data_ptr) :
  (c', cmp') <> (c, cmp) -> set_pointer t c cmp a c' cmp' = t c' cmp'.
Proof.
  intros Hd. unfold set_pointer.
  destruct (component_eq_dec c' c) as [E | n]; [| reflexivity].
  destruct (Nat.eqb_spec cmp' cmp) as [E' | n']; [| reflexivity].
  subst. now elim Hd.
Qed.

Lemma entry_eq_dec (a b : component * nat) : {a = b} + {a <> b}.
Proof.
  destruct a as [a1 a2], b as [b1 b2].
  destruct (component_eq_dec a1 b1) as [-> | n1];
    [| right; intros E; injection E as E1 _; contradiction].
  destruct (Nat.eq_dec a2 b2) as [-> | n2];
    [left; reflexivity | right; intros E; injection E as E2; contradiction].
Qed.

Lemma lay_out_step_wanted (block : Z) (n : nat)
  (wanted : component -> nat -> bool) (c : component) (k : nat)
  (tP tPP : pointer_table) (cur curp : Z) :
  wanted c k = true ->
  lay_out_step block n wanted c k (tP, tPP, cur, curp)
  = (set_pointer tP c k (Some (block, cur)),
     set_pointer tPP c k (Some (block, curp)),
     (cur + 2 * Z.of_nat n)%Z, (curp + 2 * Z.of_nat n)%Z).
Proof. intros E. unfold lay_out_step. now rewrite E. Qed.

Lemma lay_out_step_unwanted (block : Z) (n : nat)
  (wanted : component -> nat -> bool) (c : component) (k : nat)
  (st : pointer_table * pointer_table * Z * Z) :
  wanted c k = false -> lay_out_step block n wanted c k st = st.
Proof.
  intros E. destruct st as [[[tP tPP] cur] curp].
  unfold lay_out_step. now rewrite E.
Qed.

Section LayOut.

Variable block : Z.
Variable n : nat.
Variable wanted : component -> nat -> bool.

Lemma wanted_count_cons (ck : component * nat) (l : list (component * nat)) :
  wanted_count wanted (ck :: l)
  = ((if wanted (fst ck) (snd ck) then 1 else 0) + wanted_count wanted l)%Z.
Proof.
  unfold wanted_count. cbn [filter].
  destruct (wanted (fst ck) (snd ck)); cbn [length]; lia.
Qed.

Lemma wanted_count_nonneg (l : list (component * nat)) : (0 <= wanted_count wanted l)%Z.
Proof. unfold wanted_count. lia. Qed.

(** The layout loop over distinct entries, from the running pointers
    [cur] and [cur + n]. *)
Lemma lay_out_loop (l : list (component * nat)) :
  NoDup l ->
  forall tP tPP cur,
  exists tP' tPP',
    fold_left (entry_step block n wanted) l (tP, tPP, cur, (cur + Z.of_nat n)%Z)
    = (tP', tPP', (cur + 2 * Z.of_nat n * wanted_count wanted l)%Z,
       (cur + 2 * Z.of_nat n * wanted_count wanted l + Z.of_nat n)%Z)
    /\ (forall c k, ~ (In (c, k) l /\ wanted c k = true) ->
        tP' c k = tP c k /\ tPP' c k = tPP c k)
    /\ (forall c k, In (c, k) l -> wanted c k = true ->
        exists off,
          tP' c k = Some (block, off)
          /\ tPP' c k = Some (block, (off + Z.of_nat n)%Z)
          /\ (cur <= off)%Z
          /\ (off + 2 * Z.of_nat n <= cur + 2 * Z.of_nat n * wanted_count wanted l)%Z)
    /\ (forall c k c' k' off off',
        In (c, k) l -> In (c', k') l -> (c, k) <> (c', k') ->
        wanted c k = true -> wanted c' k' = true ->
        tP' c k = Some (block, off) -> tP' c' k' = Some (block, off') ->
        (off + 2 * Z.of_nat n <= off')%Z \/ (off' + 2 * Z.of_nat n <= off)%Z).
Proof.
  induction 1 as [| [c0 k0] l Hni Hnd IH]; intros tP tPP cur.
  - exists tP, tPP. unfold wanted_count. cbn [fold_left filter length].
    change (Z.of_nat 0) with 0%Z.
    split; [f_equal; [f_equal |]; lia |].
    split; [auto |]. split; [intros c k [] |]. intros c k c' k' off off' [].
  - cbn [fold_left].
    change (entry_step block n wanted (tP, tPP, cur, (cur + Z.of_nat n)%Z) (c0, k0))
      with (lay_out_step block n wanted c0 k0
              (tP, tPP, cur, (cur + Z.of_nat n)%Z)).
    unfold lay_out_step. rewrite wanted_count_cons. cbn [fst snd].
    pose proof (wanted_count_nonneg l) as Hcnt.
    destruct (wanted c0 k0) eqn:Ew.
    + destruct (IH (set_pointer tP c0 k0 (Some (block, cur)))
                   (set_pointer tPP c0 k0
                      (Some (block, (cur + Z.of_nat n)%Z)))
                   (cur + 2 * Z.of_nat n)%Z)
        as [tP' [tPP' [E [F [V S]]]]].
      exists tP', tPP'.
      assert (Hx : tP' c0 k0 = Some (block, cur)
                   /\ tPP' c0 k0 = Some (block, (cur + Z.of_nat n)%Z)).
      { destruct (F c0 k0) as [F1 F2];
          [intros [Hin _]; exact (Hni Hin) |].
        rewrite F1, F2, !set_pointer_same. auto. }
      split.
      { replace (cur + 2 * Z.of_nat n + Z.of_nat n)%Z
          with (cur + Z.of_nat n + 2 * Z.of_nat n)%Z in E by lia.
        rewrite E. f_equal; [f_equal |]; lia. }
      split; [| split].
      * intros c k Hn.
        destruct (F c k) as [F1 F2];
          [intros [Hin Hw]; apply Hn; split; [now right | exact Hw] |].
        assert (Hne : (c, k) <> (c0, k0)).
        { intros Heq. injection Heq as -> ->. apply Hn. split; [now left | exact Ew]. }
        rewrite F1, F2, !set_pointer_other by exact Hne. auto.
      * intros c k [Heq | Hin] Hw.
        -- injection Heq as <- <-. exists cur.
           destruct Hx as [X1 X2]. split; [exact X1 |]. split; [exact X2 |].
           nia.
        -- destruct (V c k Hin Hw) as [off [V1 [V2 [V3 V4]]]].
           exists off. split; [exact V1 |]. split; [exact V2 |]. nia.
      * intros c k c' k' off off' [Heq | Hin] [Heq' | Hin'] Hne Hw Hw' EP EP'.
        -- congruence.
        -- injection Heq as <- <-. destruct Hx as [X1 _].
           rewrite X1 in EP. injection EP as <-.
           destruct (V c' k' Hin' Hw') as [o [V1 [_ [V3 _]]]].
           rewrite V1 in EP'. injection EP' as <-. left. lia.
        -- injection Heq' as <- <-. destruct Hx as [X1 _].
           rewrite X1 in EP'. injection EP' as <-.
           destruct (V c k Hin Hw) as [o [V1 [_ [V3 _]]]].
           rewrite V1 in EP. injection EP as <-. right. lia.
        -- apply (S c k c' k'); assumption.
    + destruct (IH tP tPP cur) as [tP' [tPP' [E [F [V S]]]]].
      exists tP', tPP'.
      split;
        [rewrite E; replace (0 + wanted_count wanted l)%Z with (wanted_count wanted l) by lia;
         reflexivity |].
      replace (0 + wanted_count wanted l)%Z with (wanted_count wanted l) by lia.
      split; [| split].
      * intros c k Hn. apply F. intros [Hin Hw]. apply Hn.
        split; [now right | exact Hw].
      * intros c k [Heq | Hin] Hw; [injection Heq as <- <-; congruence |].
        destruct (V c k Hin Hw) as [off [V1 [V2 [V3 V4]]]].
        exists off. split; [exact V1 |]. split; [exact V2 |]. lia.
      * intros c k c' k' off off' [Heq | Hin] [Heq' | Hin'] Hne Hw Hw' EP EP';
          try (injection Heq as <- <-; congruence);
          try (injection Heq' as <- <-; congruence).
        apply (S c k c' k'); assumption.
Qed.

(** Two runs of the layout loop from the same running pointers, into
    the blocks [block] and [block'], give the same offsets to the
    entries they set, whatever the tables they start from. *)
Lemma lay_out_loop_agree (block' : Z) (l : list (component * nat)) :
  let rel := fun p q : data_ptr =>
    (p = None /\ q = None)
    \/ exists off, p = Some (block, off) /\ q = Some (block', off) in
  forall (A : component -> nat -> Prop) tP tPP uP uPP cur curp,
  (forall c k, A c k -> rel (tP c k) (uP c k) /\ rel (tPP c k) (uPP c k)) ->
  exists tP' tPP' uP' uPP' cur' curp',
    fold_left (entry_step block n wanted) l (tP, tPP, cur, curp) = (tP', tPP', cur', curp')
    /\ fold_left
         (fun st ck => lay_out_step block' n wanted (fst ck) (snd ck) st)
         l (uP, uPP, cur, curp) = (uP', uPP', cur', curp')
    /\ forall c k, A c k \/ (In (c, k) l /\ wanted c k = true) ->
       rel (tP' c k) (uP' c k) /\ rel (tPP' c k) (uPP' c k).
Proof.
  intros rel.
  induction l as [| [c0 k0] l IH]; intros A tP tPP uP uPP cur curp HA.
  - exists tP, tPP, uP, uPP, cur, curp.
    split; [reflexivity |]. split; [reflexivity |].
    intros c k [Ha | [[] _]]. now apply HA.
  - cbn [fold_left].
    change (entry_step block n wanted (tP, tPP, cur, curp) (c0, k0))
      with (lay_out_step block n wanted c0 k0 (tP, tPP, cur, curp)).
    cbn [fst snd].
    destruct (wanted c0 k0) eqn:Ew;
      [rewrite !lay_out_step_wanted by exact Ew
      | rewrite !lay_out_step_unwanted by exact Ew].
    + destruct (IH (fun c k => A c k \/ (c, k) = (c0, k0))
                  (set_pointer tP c0 k0 (Some (block, cur)))
                  (set_pointer tPP c0 k0 (Some (block, curp)))
                  (set_pointer uP c0 k0 (Some (block', cur)))
                  (set_pointer uPP c0 k0 (Some (block', curp)))
                  (cur + 2 * Z.of_nat n)%Z (curp + 2 * Z.of_nat n)%Z)
        as [tP' [tPP' [uP' [uPP' [cur' [curp' [E1 [E2 Hag]]]]]]]].
      { intros c k Hck.
        destruct (entry_eq_dec (c, k) (c0, k0)) as [Heq | Hne].
        - injection Heq as -> ->. rewrite !set_pointer_same.
          split; right; eexists; split; reflexivity.
        - rewrite !set_pointer_other by exact Hne.
          destruct Hck as [Ha | Heq]; [now apply HA | contradiction]. }
      exists tP', tPP', uP', uPP', cur', curp'.
      split; [exact E1 |]. split; [exact E2 |].
      intros c k [Ha | [[Heq | Hin] Hw]]; apply Hag; auto.
    + destruct (IH A tP tPP uP uPP cur curp HA)
        as [tP' [tPP' [uP' [uPP' [cur' [curp' [E1 [E2 Hag]]]]]]]].
      exists tP', tPP', uP', uPP', cur', curp'.
      split; [exact E1 |]. split; [exact E2 |].
      intros c k [Ha | [[Heq | Hin] Hw]]; apply Hag; auto.
      injection Heq as <- <-. congruence.
Qed.

(** The layout loop reads [wanted] at the entries it visits only. *)
Lemma lay_out_loop_ext (wanted' : component -> nat -> bool)
  (l : list (component * nat)) :
  (forall c k, In (c, k) l -> wanted' c k = wanted c k) ->
  forall st,
  fold_left (fun st ck => lay_out_step block n wanted' (fst ck) (snd ck) st)
            l st
  = fold_left (entry_step block n wanted) l st.
Proof.
  induction l as [| [c0 k0] l IH]; intros Hw st; [reflexivity |].
  cbn [fold_left].
  change (entry_step block n wanted st (c0, k0)) with (lay_out_step block n wanted c0 k0 st).
  rewrite IH by (intros c k Hin; apply Hw; now right).
  f_equal. unfold lay_out_step. cbn [fst snd].
  now rewrite (Hw c0 k0 (or_introl eq_refl)).
Qed.

(** [lay_out] is the loop over [entries]. *)
Lemma lay_out_entries (tP tPP : pointer_table) :
  lay_out block n wanted tP tPP
  = fold_left (entry_step block n wanted) entries (tP, tPP, 0%Z, Z.of_nat n).
Proof.
  unfold lay_out.
  apply (nested_fold_entries
           (fun c cmp st => lay_out_step block n wanted c cmp st)).
Qed.

(** What [lay_out] leaves in the tables. *)
Lemma lay_out_spec (tP tPP : pointer_table) :
  let total :=
    (2 * Z.of_nat n
     * Z.of_nat (length (filter (fun ck => wanted (fst ck) (snd ck))
                           entries)))%Z in
  exists tP' tPP',
    lay_out block n wanted tP tPP
    = (tP', tPP', total, (total + Z.of_nat n)%Z)
    /\ (forall c k, ~ (In (c, k) entries /\ wanted c k = true) ->
        tP' c k = tP c k /\ tPP' c k = tPP c k)
    /\ (forall c k, In (c, k) entries -> wanted c k = true ->
        exists off,
          tP' c k = Some (block, off)
          /\ tPP' c k = Some (block, (off + Z.of_nat n)%Z)
          /\ (0 <= off)%Z /\ (off + 2 * Z.of_nat n <= total)%Z)
    /\ (forall c k c' k' off off',
        In (c, k) entries -> In (c', k') entries -> (c, k) <> (c', k') ->
        wanted c k = true -> wanted c' k' = true ->
        tP' c k = Some (block, off) -> tP' c' k' = Some (block, off') ->
        (off + 2 * Z.of_nat n <= off')%Z \/ (off' + 2 * Z.of_nat n <= off)%Z).
Proof.
  intros total. rewrite lay_out_entries.
  destruct (lay_out_loop entries entries_NoDup tP tPP 0%Z)
    as [tP' [tPP' [E [F [V S]]]]].
  change (0 + Z.of_nat n)%Z with (Z.of_nat n) in E.
  exists tP', tPP'. split; [rewrite E; reflexivity |].
  split; [exact F |]. split; [exact V | exact S].
Qed.

(** The same two facts for [lay_out]. *)
Lemma lay_out_agree (block' : Z) (A : component -> nat -> Prop)
  (tP tPP uP uPP : pointer_table) :
  let rel := fun p q : data_ptr =>
    (p = None /\ q = None)
    \/ exists off, p = Some (block, off) /\ q = Some (block', off) in
  (forall c k, A c k -> rel (tP c k) (uP c k) /\ rel (tPP c k) (uPP c k)) ->
  forall c k, A c k \/ (In (c, k) entries /\ wanted c k = true) ->
  rel (fst (fst (fst (lay_out block n wanted tP tPP))) c k)
      (fst (fst (fst (lay_out block' n wanted uP uPP))) c k)
  /\ rel (snd (fst (fst (lay_out block n wanted tP tPP))) c k)
         (snd (fst (fst (lay_out block' n wanted uP uPP))) c k).
Proof.
  intros rel HA.
  destruct (lay_out_loop_agree block' entries A tP tPP uP uPP
              0%Z (Z.of_nat n) HA)
    as [tP' [tPP' [uP' [uPP' [cur' [curp' [E1 [E2 Hag]]]]]]]].
  assert (X1 : lay_out block n wanted tP tPP = (tP', tPP', cur', curp'))
    by (rewrite lay_out_entries; exact E1).
  assert (X2 : lay_out block' n wanted uP uPP = (uP', uPP', cur', curp')).
  { unfold lay_out.
    rewrite (nested_fold_entries
               (fun c cmp st => lay_out_step block' n wanted c cmp st)).
    exact E2. }
  rewrite X1, X2. cbn [fst snd]. exact Hag.
Qed.

Lemma lay_out_ext (wanted' : component -> nat -> bool)
  (tP tPP : pointer_table) :
  (forall c k, In (c, k) entries -> wanted' c k = wanted c k) ->
  lay_out block n wanted' tP tPP = lay_out block n wanted tP tPP.
Proof.
  intros Hw. rewrite lay_out_entries. unfold lay_out.
  rewrite (nested_fold_entries
             (fun c cmp st => lay_out_step block n wanted' c cmp st)).
  apply (lay_out_loop_ext wanted' entries Hw).
Qed.

End LayOut.

Lemma to_int_small (z : Z) :
  (- 2 ^ 31 <= z < 2 ^ 31)%Z -> to_int z = z.
Proof.
  intros Hz. unfold to_int. rewrite Z.mod_small; lia.
Qed.

(** While the count fits an [int], [num] is twice [ntot] for each
    entry that is needed. *)
Lemma new_internal_data_count (sus : susceptibility) (W : field_table)
  (gv : grid_volume) :
  (2 * Z.of_nat (gv_ntot gv) * Z.of_nat (needed_entries sus W) < 2 ^ 31)%Z ->
  new_internal_data sus W gv
  = (2 * Z.of_nat (gv_ntot gv) * Z.of_nat (needed_entries sus W))%Z.
Proof.
  unfold new_internal_data, needed_entries.
  rewrite (nested_fold_entries
             (fun c cmp num =>
                if needs_P sus c cmp W
                then to_int (num + 2 * Z.of_nat (gv_ntot gv)) else num)).
  fold entries.
  set (n := Z.of_nat (gv_ntot gv)).
  assert (Hn : (0 <= n)%Z) by (unfold n; lia).
  assert (Hgen : forall l num0,
            (0 <= num0)%Z ->
            (num0 + 2 * n * Z.of_nat (length
               (filter (fun ck => needs_P sus (fst ck) (snd ck) W) l))
             < 2 ^ 31)%Z ->
            fold_left (fun num ck =>
                         if needs_P sus (fst ck) (snd ck) W
                         then to_int (num + 2 * n) else num) l num0
            = (num0 + 2 * n * Z.of_nat (length
                 (filter (fun ck => needs_P sus (fst ck) (snd ck) W) l)))%Z).
  { induction l as [| ck l IH]; intros num0 H0 Hb.
    - cbn [fold_left filter length]. lia.
    - cbn [fold_left filter] in *.
      destruct (needs_P sus (fst ck) (snd ck) W).
      + cbn [length] in *.
        rewrite to_int_small by nia. rewrite IH; nia.
      + apply IH; assumption. }
  intros Hb. rewrite Hgen; lia.
Qed.

(** The value model of [init_internal_data], entry by entry. *)
Lemma init_internal_data_entries (sus : susceptibility) (W : field_table)
  (gv : grid_volume) (c : component) (k : nat) :
  (In (c, k) entries /\ needs_P sus c k W = true ->
   P (init_internal_data sus W gv) c k = Some zeros
   /\ P_prev (init_internal_data sus W gv) c k = Some zeros)
  /\ (~ (In (c, k) entries /\ needs_P sus c k W = true) ->
      P (init_internal_data sus W gv) c k = None
      /\ P_prev (init_internal_data sus W gv) c k = None).
Proof.
  unfold init_internal_data.
  rewrite (nested_fold_entries
             (fun c cmp d =>
                if needs_P sus c cmp W
                then {| ntot := ntot d;
                        P := set_entry (P d) c cmp (Some zeros);
                        P_prev := set_entry (P_prev d) c cmp (Some zeros) |}
                else d)).
  fold entries.
  set (vstep := fun (d : lorentzian_data) (ck : component * nat) =>
                  if needs_P sus (fst ck) (snd ck) W
                  then {| ntot := ntot d;
                          P := set_entry (P d) (fst ck) (snd ck) (Some zeros);
                          P_prev := set_entry (P_prev d) (fst ck) (snd ck)
                                      (Some zeros) |}
                  else d).
  assert (Hgen : forall l d,
    (In (c, k) l /\ needs_P sus c k W = true ->
     P (fold_left vstep l d) c k = Some zeros
     /\ P_prev (fold_left vstep l d) c k = Some zeros)
    /\ (~ (In (c, k) l /\ needs_P sus c k W = true) ->
        P (fold_left vstep l d) c k = P d c k
        /\ P_prev (fold_left vstep l d) c k = P_prev d c k)).
  { induction l as [| [c0 k0] l IH]; intros d; cbn [fold_left].
    - split; [intros [[] _] | auto].
    - destruct (IH (vstep d (c0, k0))) as [IH1 IH2].
      destruct (in_dec entry_eq_dec (c, k) l) as [Hin | Hnin].
      + split; [intros [_ Hw]; apply IH1; auto |].
        intros Hn.
        assert (Hw : needs_P sus c k W <> true)
          by (intros Hw; apply Hn; split; [now right | exact Hw]).
        destruct (IH2 (fun Hc => Hw (proj2 Hc))) as [E1 E2].
        rewrite E1, E2. unfold vstep. cbn [fst snd].
        destruct (needs_P sus c0 k0 W) eqn:E0; [| auto]. cbn [P P_prev].
        assert ((c, k) <> (c0, k0)) by congruence.
        rewrite !set_entry_other; auto;
          destruct (component_eq_dec c c0) as [-> | ?]; auto;
          right; congruence.
      + destruct (IH2 (fun Hc => Hnin (proj1 Hc))) as [E1 E2].
        rewrite E1, E2. unfold vstep. cbn [fst snd].
        split.
        * intros [[Heq | Hin] Hw]; [| contradiction].
          injection Heq as -> ->. rewrite Hw. cbn [P P_prev].
          now rewrite !set_entry_same.
        * intros Hn.
          destruct (needs_P sus c0 k0 W) eqn:E0; [| auto]. cbn [P P_prev].
          assert (Hne : (c, k) <> (c0, k0)).
          { intros Heq. injection Heq as -> ->. apply Hn. split; [now left | exact E0]. }
          rewrite !set_entry_other; auto;
            destruct (component_eq_dec c c0) as [-> | ?]; auto;
            right; congruence. }
  apply Hgen.
Qed.

(** The tables that [init_internal_data] fills. *)
Lemma init_blob_tables (sus : susceptibility) (W : field_table)
  (gv : grid_volume) (block sz : Z) :
  let n := Z.of_nat (gv_ntot gv) in
  let b := init_internal_data_blob sus W gv block sz in
  (forall c k, ~ (In (c, k) entries /\ needs_P sus c k W = true) ->
     blob_P b c k = None /\ blob_P_prev b c k = None)
  /\ (forall c k, In (c, k) entries -> needs_P sus c k W = true ->
      exists off,
        blob_P b c k = Some (block, off)
        /\ blob_P_prev b c k = Some (block, (off + n)%Z)
        /\ (0 <= off)%Z
        /\ (off + 2 * n <= 2 * n * Z.of_nat (needed_entries sus W))%Z)
  /\ (forall c k c' k' off off',
      In (c, k) entries -> In (c', k') entries -> (c, k) <> (c', k') ->
      needs_P sus c k W = true -> needs_P sus c' k' W = true ->
      blob_P b c k = Some (block, off) -> blob_P b c' k' = Some (block, off') ->
      (off + 2 * n <= off')%Z \/ (off' + 2 * n <= off)%Z).
Proof.
  intros n b. unfold b, init_internal_data_blob. cbn [blob_P blob_P_prev].
  destruct (lay_out_spec block (gv_ntot gv) (fun c cmp => needs_P sus c cmp W)
              (fun _ _ => None) (fun _ _ => None))
    as [tP' [tPP' [E [F [V S]]]]].
  cbv zeta in E. rewrite E. cbn [fst snd].
  split; [exact F |]. split; [exact V | exact S].
Qed.

Lemma needed_dec (sus : susceptibility) (W : field_table) (c : component)
  (k : nat) :
  {In (c, k) entries /\ needs_P sus c k W = true}
  + {~ (In (c, k) entries /\ needs_P sus c k W = true)}.
Proof.
  destruct (in_dec entry_eq_dec (c, k) entries) as [Hi | Hi];
    [| right; intros [Hc _]; contradiction].
  destruct (needs_P sus c k W); [left; auto | right].
  intros [_ Hw]. discriminate.
Qed.

(** The offsets that [init_internal_data] gives do not depend on the
    block. *)
Lemma init_blob_offsets (sus : susceptibility) (W : field_table)
  (gv : grid_volume) (block block' sz sz' : Z) (c : component) (k : nat)
  (off off' : Z) :
  blob_P (init_internal_data_blob sus W gv block sz) c k = Some (block, off) ->
  blob_P (init_internal_data_blob sus W gv block' sz') c k
  = Some (block', off') ->
  off' = off.
Proof.
  unfold init_internal_data_blob. cbn [blob_P]. intros EP EP'.
  destruct (lay_out_agree block (gv_ntot gv)
              (fun c cmp => needs_P sus c cmp W) block'
              (fun c k => ~ (In (c, k) entries /\ needs_P sus c k W = true))
              (fun _ _ => None) (fun _ _ => None)
              (fun _ _ => None) (fun _ _ => None))
    with (c := c) (k := k) as [[[A1 A2] | [o [A1 A2]]] _].
  - intros c1 k1 _. split; left; auto.
  - destruct (needed_dec sus W c k); auto.
  - congruence.
  - congruence.
Qed.

(** X17. The block that [new_internal_data] sizes holds what
    [init_internal_data] points into it: while the count of realnums
    fits an [int], every needed entry of FOR_COMPONENTS x DOCMP2 gets
    [P] at an offset [off >= 0] of [data] and [P_prev] at [off + ntot],
    with [off + 2 ntot <= num]; two different entries are at least
    [2 ntot] apart, so no two buffers overlap; every other entry is
    NULL; and the pointers are non-NULL exactly where the buffers of
    the value model are. *)
Theorem init_internal_data_layout (sus : susceptibility) (W : field_table)
  (gv : grid_volume) (block : Z) :
  let n := Z.of_nat (gv_ntot gv) in
  let b := init_internal_data_blob sus W gv block
             (new_internal_data sus W gv) in
  (2 * n * Z.of_nat (needed_entries sus W) < 2 ^ 31)%Z ->
  (forall c k, In c FOR_COMPONENTS -> In k DOCMP2 ->
     needs_P sus c k W = true ->
     exists off,
       blob_P b c k = Some (block, off)
       /\ blob_P_prev b c k = Some (block, (off + n)%Z)
       /\ (0 <= off)%Z /\ (off + 2 * n <= blob_sz_data b)%Z)
  /\ (forall c k,
      ~ (In c FOR_COMPONENTS /\ In k DOCMP2 /\ needs_P sus c k W = true) ->
      blob_P b c k = None /\ blob_P_prev b c k = None)
  /\ (forall c k c' k' off off',
      (c, k) <> (c', k') ->
      blob_P b c k = Some (block, off) -> blob_P b c' k' = Some (block, off') ->
      (off + 2 * n <= off')%Z \/ (off' + 2 * n <= off)%Z)
  /\ (forall c k,
      non_null (P (init_internal_data sus W gv) c k) = non_null (blob_P b c k)
      /\ non_null (P_prev (init_internal_data sus W gv) c k)
         = non_null (blob_P_prev b c k)).
Proof.
  intros n b Hfit.
  destruct (init_blob_tables sus W gv block (new_internal_data sus W gv))
    as [F [V S]].
  fold n b in F, V, S.
  assert (Hsz : blob_sz_data b = (2 * n * Z.of_nat (needed_entries sus W))%Z)
    by (apply new_internal_data_count; exact Hfit).
  split; [| split; [| split]].
  - intros c k Hc Hk Hw.
    destruct (V c k) as [off [V1 [V2 [V3 V4]]]];
      [apply in_entries; auto | exact Hw |].
    exists off. rewrite Hsz. auto.
  - intros c k Hn. apply F. intros [Hin Hw]. apply in_entries in Hin.
    apply Hn. tauto.
  - intros c k c' k' off off' Hne EP EP'.
    destruct (needed_dec sus W c k) as [[Hin Hw] | Hn];
      [| destruct (F c k Hn) as [F1 _]; congruence].
    destruct (needed_dec sus W c' k') as [[Hin' Hw'] | Hn'];
      [| destruct (F c' k' Hn') as [F1 _]; congruence].
    apply (S c k c' k'); assumption.
  - intros c k.
    destruct (init_internal_data_entries sus W gv c k) as [I1 I2].
    destruct (needed_dec sus W c k) as [[Hin Hw] | Hn].
    + destruct (I1 (conj Hin Hw)) as [E1 E2].
      destruct (V c k Hin Hw) as [off [V1 [V2 _]]].
      now rewrite E1, E2, V1, V2.
    + destruct (I2 Hn) as [E1 E2]. destruct (F c k Hn) as [F1 F2].
      now rewrite E1, E2, F1, F2.
Qed.

(** X18. [copy_internal_data] returns NULL for NULL; and the copy of
    a blob that [init_internal_data] laid out is laid out in the same
    way in its own block: the same [ntot] and size, every pointer at
    the offset it has in the source but into the new [data], none left
    pointing into the source; and each of the [ntot] realnums of every
    [P] and [P_prev] is there in the copy with the value it has in the
    source. *)
Theorem copy_internal_data_spec (sus : susceptibility) (W : field_table)
  (gv : grid_volume) (block dnew : Z) (b : blob) :
  laid_out sus W gv block b ->
  (2 * Z.of_nat (gv_ntot gv) * Z.of_nat (needed_entries sus W) < 2 ^ 31)%Z ->
  copy_internal_data dnew None = None
  /\ exists b',
     copy_internal_data dnew (Some b) = Some b'
     /\ laid_out sus W gv dnew b'
     /\ (forall c k blk off,
         blob_P b' c k = Some (blk, off) \/ blob_P_prev b' c k = Some (blk, off)
         -> blk = dnew)
     /\ forall c k j,
        In c FOR_COMPONENTS -> In k DOCMP2 -> needs_P sus c k W = true ->
        (0 <= j < Z.of_nat (gv_ntot gv))%Z ->
        exists x y,
          blob_read b' (blob_P b' c k) j = Some x
          /\ blob_read b (blob_P b c k) j = Some x
          /\ blob_read b' (blob_P_prev b' c k) j = Some y
          /\ blob_read b (blob_P_prev b c k) j = Some y.
Proof.
  intros [Hsz [Hn Htab]] Hfit. split; [reflexivity |].
  pose proof (new_internal_data_count sus W gv Hfit) as Hnum.
  destruct (init_blob_tables sus W gv block (new_internal_data sus W gv))
    as [F [V _]].
  destruct (init_blob_tables sus W gv dnew (new_internal_data sus W gv))
    as [F' [V' _]].
  cbv zeta in F, V, F', V'.
  (* the entries that the copy points again are the needed ones *)
  assert (Hw : forall c k, In (c, k) entries ->
            non_null (blob_P b c k) = needs_P sus c k W).
  { intros c k Hin. destruct (Htab c k) as [-> _].
    destruct (needs_P sus c k W) eqn:Ew.
    - destruct (V c k Hin Ew) as [off [-> _]]. reflexivity.
    - destruct (F c k) as [-> _]; [| reflexivity].
      intros [_ Hc]. congruence. }
  (* the tables of the copy are those of a fresh blob in the new block *)
  assert (Hcopy : forall c k,
            fst (fst (fst (lay_out dnew (blob_ntot b)
                             (fun c cmp => non_null (blob_P b c cmp))
                             (blob_P b) (blob_P_prev b)))) c k
            = blob_P (init_internal_data_blob sus W gv dnew
                        (new_internal_data sus W gv)) c k
            /\ snd (fst (fst (lay_out dnew (blob_ntot b)
                                (fun c cmp => non_null (blob_P b c cmp))
                                (blob_P b) (blob_P_prev b)))) c k
               = blob_P_prev (init_internal_data_blob sus W gv dnew
                                (new_internal_data sus W gv)) c k).
  { intros c k. unfold init_internal_data_blob. cbn [blob_P blob_P_prev].
    rewrite Hn.
    rewrite (lay_out_ext dnew (gv_ntot gv)
               (fun c cmp => needs_P sus c cmp W)
               (fun c cmp => non_null (blob_P b c cmp)) _ _ Hw).
    destruct (lay_out_agree dnew (gv_ntot gv)
                (fun c cmp => needs_P sus c cmp W) dnew
                (fun c k => ~ (In (c, k) entries /\ needs_P sus c k W = true))
                (blob_P b) (blob_P_prev b) (fun _ _ => None) (fun _ _ => None))
      with (c := c) (k := k) as [R1 R2].
    { intros c1 k1 Hnk. destruct (Htab c1 k1) as [-> ->].
      destruct (F c1 k1 Hnk) as [-> ->]. split; left; auto. }
    { destruct (needed_dec sus W c k); auto. }
    split.
    - destruct R1 as [[-> ->] | [o [-> ->]]]; reflexivity.
    - destruct R2 as [[-> ->] | [o [-> ->]]]; reflexivity. }
  unfold copy_internal_data. eexists. split; [reflexivity |].
  split; [| split].
  - split; [exact Hsz |]. split; [exact Hn |]. exact Hcopy.
  - cbn [blob_P blob_P_prev]. intros c k blk off Hp.
    destruct (Hcopy c k) as [C1 C2]. rewrite C1, C2 in Hp.
    destruct (needed_dec sus W c k) as [[Hin Hneed] | Hnk].
    + destruct (V' c k Hin Hneed) as [o [Q1 [Q2 _]]].
      rewrite Q1, Q2 in Hp. destruct Hp as [Hp | Hp]; congruence.
    + destruct (F' c k Hnk) as [Q1 Q2].
      rewrite Q1, Q2 in Hp. destruct Hp as [Hp | Hp]; discriminate.
  - intros c k j Hc Hk Hneed Hj. cbn [blob_P blob_P_prev].
    assert (Hin : In (c, k) entries) by (apply in_entries; auto).
    destruct (Hcopy c k) as [-> ->].
    destruct (Htab c k) as [-> ->].
    destruct (V c k Hin Hneed) as [off [Q1 [Q2 [B1 B2]]]].
    destruct (V' c k Hin Hneed) as [off' [Q1' [Q2' _]]].
    assert (Eoff : off' = off)
      by (apply (init_blob_offsets sus W gv block dnew _ _ c k off off' Q1 Q1')).
    subst off'. rewrite Q1, Q2, Q1', Q2'.
    exists (blob_data b (off + j)%Z),
           (blob_data b (off + Z.of_nat (gv_ntot gv) + j)%Z).
    unfold blob_read. cbn [blob_sz_data blob_data]. rewrite Hsz, Hnum.
    assert (R1 : (Z.leb 0 (off + j)
                  && Z.ltb (off + j)
                       (2 * Z.of_nat (gv_ntot gv)
                        * Z.of_nat (needed_entries sus W)))%bool = true).
    { apply andb_true_intro. split; [apply Z.leb_le | apply Z.ltb_lt]; lia. }
    assert (R2 : (Z.leb 0 (off + Z.of_nat (gv_ntot gv) + j)
                  && Z.ltb (off + Z.of_nat (gv_ntot gv) + j)
                       (2 * Z.of_nat (gv_ntot gv)
                        * Z.of_nat (needed_entries sus W)))%bool = true).
    { apply andb_true_intro. split; [apply Z.leb_le | apply Z.ltb_lt]; lia. }
    rewrite !R1, !R2. auto.
Qed.

(** ** The pole equation and the recurrence *)

(** Without drive, the recurrence of [update_P] in the locals of the
    stability test. *)
Lemma lorentzian_step_free (sus : lorentzian_susceptibility) (dt a z f : R) :
  no_omega_0_denominator sus = false ->
  1 + 2 * pi * gamma sus * dt / 2 <> 0 ->
  f = 0 ->
  lorentzian_step sus dt (a * z) a f
  = a * (2 * unstable_b (omega_0 sus) (gamma sus) dt * z
         - unstable_c (gamma sus) dt).
Proof.
  intros Hn HD ->.
  unfold lorentzian_step, gamma1inv, gamma1, omega0dtsqr_denom, omega0dtsqr,
    omega2pi, g2pi, unstable_b, unstable_c.
  rewrite Hn. cbv zeta. field.
  repeat split; intros HD'; apply HD; lra.
Qed.

(** X19. The equation in the comment of [lorentzian_unstable] is the
    characteristic equation of the loop of [update_P]: on the
    isotropic path, at an owned point without drive ([W = 0]) that
    holds [P_prev = a] and [P = a z] with [a <> 0] and [z <> 0], the
    update continues the geometric sequence, [P = a z^2], exactly when
    [z] satisfies the pole equation. *)
Theorem lorentzian_pole_is_mode (sus : lorentzian_susceptibility)
  (dt : R) (W W_prev : field_table) (gv : grid_volume) (d : lorentzian_data)
  (c : component) (k : nat) (p ppa w s : array) (i : Z) (a z : R) :
  wf_data d -> In c FOR_COMPONENTS -> In k DOCMP2 ->
  P d c k = Some p -> P_prev d c k = Some ppa ->
  W c k = Some w -> sigma sus c (component_direction c) = Some s ->
  anisotropic sus W gv c k = false ->
  NoDup (owned gv c) -> In i (owned gv c) ->
  no_omega_0_denominator sus = false ->
  dt <> 0 -> 1 + 2 * pi * gamma sus * dt / 2 <> 0 ->
  a <> 0 -> z <> 0 ->
  w i = 0 -> ppa i = a -> p i = a * z ->
  exists d' p',
    lorentzian_update_P sus dt W W_prev gv (Some d) = Ok d'
    /\ P d' c k = Some p'
    /\ (p' i = a * z * z <-> pole_equation (omega_0 sus) (gamma sus) dt z).
Proof.
  intros Hd Hc Hk EP EPP EW ES Ha Hnd Hi Hn Hdt HD Hane Hz Hw Hppa Hp.
  destruct (lorentzian_isotropic_point sus dt W W_prev gv d c k p ppa w s
              Hd Hc Hk EP EPP EW ES Ha Hnd)
    as [d' [p' [ppa' [E [E1 [_ Hv]]]]]].
  exists d', p'. split; [exact E |]. split; [exact E1 |].
  destruct (Hv i Hi) as [Hp' _].
  rewrite Hp', Hp, Hppa.
  rewrite (lorentzian_step_free sus dt a z (s i * w i) Hn HD)
    by (rewrite Hw; ring).
  rewrite (pole_equation_quadratic (omega_0 sus) (gamma sus) dt z Hdt HD Hz).
  set (b := unstable_b (omega_0 sus) (gamma sus) dt).
  set (cc := unstable_c (gamma sus) dt).
  split.
  - intros Heq. apply Rmult_eq_reg_l with (r := a); [| exact Hane]. lra.
  - intros Heq.
    replace (a * z * z) with (a * (z * z - 2 * b * z + cc)
                              + a * (2 * b * z - cc)) by ring.
    rewrite Heq. ring.
Qed.

(** ** The queries of the boundary communication *)

(** X20. [num_cinternal_notowned_needed] and [cinternal_notowned_ptr]
    agree: on a blob that is there the count is 1 exactly when the
    pointer for the first copy is non-NULL, at whatever offset, and 0
    otherwise; on the blob that [init_internal_data] leaves this is
    exactly when the component is listed by FOR_COMPONENTS and
    [needs_P(c, 0, W)] holds; and the pointer at offset [n] reads
    [P[c][cmp][n + j]]. *)
Theorem notowned_queries_agree (c : component) (cmp : nat) (inotowned n : Z)
  (d : lorentzian_data) :
  (num_cinternal_notowned_needed c (Some d)
   = Ok (if non_null (cinternal_notowned_ptr inotowned c 0%nat n (Some d))
         then 1%Z else 0%Z))
  /\ (forall sus W gv,
      num_cinternal_notowned_needed c
        (Some (init_internal_data sus W gv))
      = Ok (if needs_P sus c 0%nat W then
              (if in_dec component_eq_dec c FOR_COMPONENTS then 1%Z else 0%Z)
            else 0%Z))
  /\ (forall a j, P d c cmp = Some a ->
      ptr_at (cinternal_notowned_ptr inotowned c cmp n (Some d)) j
      = a (n + j)%Z).
Proof.
  split; [| split].
  - unfold num_cinternal_notowned_needed, cinternal_notowned_ptr. simpl.
    destruct (P d c 0%nat); reflexivity.
  - intros sus W gv. unfold num_cinternal_notowned_needed. simpl.
    destruct (init_internal_data_entries sus W gv c 0%nat) as [I1 I2].
    destruct (needs_P sus c 0%nat W) eqn:En.
    + destruct (in_dec component_eq_dec c FOR_COMPONENTS) as [Hc | Hc].
      * destruct I1 as [-> _]; [| reflexivity].
        split; [apply in_entries; split; [exact Hc | simpl; auto] | reflexivity].
      * destruct I2 as [-> _]; [| reflexivity].
        intros [Hin _]. apply in_entries in Hin. tauto.
    + destruct I2 as [-> _]; [| reflexivity].
      intros [_ Hw]. discriminate.
  - intros a j Ea. unfold cinternal_notowned_ptr. rewrite Ea. reflexivity.
Qed.

(** ** The noisy Lorentzian update *)

Lemma nested_fold_res_entries {S : Type}
  (f : component -> nat -> S -> result S) (l : list component) (s : S) :
  fold_res (fun s c => fold_res (fun s k => f c k s) DOCMP2 s) l s
  = fold_res (fun s ck => f (fst ck) (snd ck) s)
      (flat_map (fun c => map (pair c) DOCMP2) l) s.
Proof.
  revert s. induction l as [| c l IH]; intros s; [reflexivity |].
  rewrite fold_res_cons.
  change (flat_map (fun c => map (pair c) DOCMP2) (c :: l))
    with ((c, 0%nat) :: (c, 1%nat)
          :: flat_map (fun c => map (pair c) DOCMP2) l).
  rewrite !fold_res_cons. unfold DOCMP2. rewrite !fold_res_cons.
  cbn [fst snd fold_res].
  destruct (f c 0%nat s) as [s1 | e]; [| reflexivity]. cbn [bind].
  destruct (f c 1%nat s1) as [s2 | e]; [| reflexivity]. cbn [bind].
  apply IH.
Qed.

Lemma advance_add (a b : nat) (g : rng_state) :
  advance (a + b) g = advance b (advance a g).
Proof.
  revert g. induction a as [| a IH]; intros g; [reflexivity |].
  simpl. apply IH.
Qed.

Lemma gaussian_random_state (m sd : R) (g : rng_state) :
  snd (gaussian_random m sd g) = advance 1 g.
Proof.
  unfold gaussian_random. simpl. now destruct (standard_normal g).
Qed.

(** A deviate of standard deviation zero is the mean. *)
Lemma gaussian_random_point (m : R) (g : rng_state) :
  fst (gaussian_random m 0 g) = m.
Proof.
  unfold gaussian_random. destruct (standard_normal g) as [z g'].
  simpl. ring.
Qed.

(** The number of deviates drawn before an entry depends on which
    entries are active only. *)
Lemma draws_before_ext (a a' : component -> nat -> bool) (gv : grid_volume)
  (l : list (component * nat)) (c : component) (k : nat) :
  (forall c0 k0, a c0 k0 = a' c0 k0) ->
  draws_before a gv l c k = draws_before a' gv l c k.
Proof.
  intros E. induction l as [| [c0 k0] l IH]; [reflexivity |].
  simpl. now rewrite IH, E.
Qed.

Section NoisyLoops.

Variable sus : noisy_lorentzian_susceptibility.
Variable dt : R.
Variable gv : grid_volume.
Variable amp : R.

Hypothesis amp_real : noisy_amp sus dt = Some amp.
Hypothesis owned_once : forall c, NoDup (owned gv c).
Hypothesis sigma_nonneg : forall c s i,
  sigma sus c (component_direction c) = Some s -> In i (owned gv c) ->
  0 <= s i.

(** The loop of the noise over the points [l]: the [j]-th point gets
    the [j]-th deviate. *)
Lemma noise_loop_draws (s : array) (l : list Z) :
  NoDup l -> (forall i, In i l -> 0 <= s i) ->
  forall p g,
  exists p',
    fold_res (noise_body sus dt s) l (p, g)
    = Ok (p', advance (length l) g)
    /\ (forall i, ~ In i l -> p' i = p i)
    /\ (forall j, (j < length l)%nat ->
        p' (nth j l 0%Z)
        = p (nth j l 0%Z)
          + fst (gaussian_random 0 (amp * sqrt (s (nth j l 0%Z)))
                   (advance j g))).
Proof.
  induction 1 as [| i0 l Hni Hnd IH]; intros Hs p g.
  - exists p. split; [reflexivity |]. split; [auto |].
    intros j Hj. simpl in Hj. lia.
  - pose proof (gaussian_random_state 0 (amp * sqrt (s i0)) g) as Eg.
    destruct (gaussian_random 0 (amp * sqrt (s i0)) g) as [z g1] eqn:Ez.
    simpl in Eg.
    assert (Estep : noise_body sus dt s (p, g) i0 = Ok (add_at p i0 z, g1)).
    { unfold noise_body. rewrite amp_real.
      destruct (Rle_dec 0 (s i0)) as [_ | Hneg];
        [| elim Hneg; apply Hs; now left].
      now rewrite Ez. }
    rewrite fold_res_cons, Estep. cbn [bind].
    destruct (IH (fun i Hi => Hs i (or_intror Hi)) (add_at p i0 z) g1)
      as [p' [E [Hout Hin]]].
    exists p'. split; [| split].
    + rewrite E. subst g1. reflexivity.
    + intros i Hi. rewrite Hout by (intros Hc; apply Hi; now right).
      apply add_at_other. intros ->. apply Hi. now left.
    + intros [| j] Hj.
      * cbn [nth advance]. rewrite Hout by exact Hni.
        rewrite add_at_same, Ez. reflexivity.
      * cbn [nth advance]. cbn [length] in Hj.
        rewrite Hin by lia.
        assert (Hne : nth j l 0%Z <> i0).
        { intros Heq. apply Hni. rewrite <- Heq. apply nth_In. lia. }
        rewrite add_at_other by exact Hne.
        subst g1. reflexivity.
Qed.

Lemma noisy_component_idle (c : component) (k : nat) (d : lorentzian_data)
  (g : rng_state) :
  noise_active sus d c k = false ->
  noisy_component sus dt gv c k (d, g) = Ok (d, g).
Proof.
  unfold noise_active, noisy_component.
  destruct (P d c k); [| reflexivity].
  destruct (sigma sus c (component_direction c)); [discriminate | reflexivity].
Qed.

Lemma noisy_component_draws (c : component) (k : nat) (d : lorentzian_data)
  (g : rng_state) (p s : array) :
  P d c k = Some p -> sigma sus c (component_direction c) = Some s ->
  exists p',
    noisy_component sus dt gv c k (d, g)
    = Ok ({| ntot := ntot d;
             P := set_entry (P d) c k (Some p');
             P_prev := P_prev d |},
          advance (length (owned gv c)) g)
    /\ (forall i, ~ In i (owned gv c) -> p' i = p i)
    /\ (forall j, (j < length (owned gv c))%nat ->
        p' (nth j (owned gv c) 0%Z)
        = p (nth j (owned gv c) 0%Z)
          + fst (gaussian_random 0
                   (amp * sqrt (s (nth j (owned gv c) 0%Z)))
                   (advance j g))).
Proof.
  intros EP ES. unfold noisy_component. rewrite EP, ES.
  destruct (noise_loop_draws s (owned gv c) (owned_once c)
              (fun i Hi => sigma_nonneg c s i ES Hi) p g)
    as [p' [E [Hout Hin]]].
  rewrite E. cbn [bind fst snd]. exists p'. auto.
Qed.

(** The loop over distinct entries, from the blob [d0] and the
    generator [g0]. *)
Lemma noise_entries_loop (l : list (component * nat)) :
  NoDup l ->
  forall d0 g0,
  exists d1 g1,
    fold_res (fun st ck => noisy_component sus dt gv (fst ck) (snd ck) st)
      l (d0, g0) = Ok (d1, g1)
    /\ P_prev d1 = P_prev d0 /\ ntot d1 = ntot d0
    /\ (forall c k, ~ (In (c, k) l /\ noise_active sus d0 c k = true) ->
        P d1 c k = P d0 c k)
    /\ (forall c k p s,
        In (c, k) l -> P d0 c k = Some p ->
        sigma sus c (component_direction c) = Some s ->
        exists p',
          P d1 c k = Some p'
          /\ (forall i, ~ In i (owned gv c) -> p' i = p i)
          /\ (forall j, (j < length (owned gv c))%nat ->
              p' (nth j (owned gv c) 0%Z)
              = p (nth j (owned gv c) 0%Z)
                + fst (gaussian_random 0
                         (amp * sqrt (s (nth j (owned gv c) 0%Z)))
                         (advance
                            (draws_before (noise_active sus d0) gv l c k + j)
                            g0)))).
Proof.
  induction 1 as [| [c0 k0] l Hni Hnd IH]; intros d0 g0.
  - exists d0, g0. split; [reflexivity |]. split; [reflexivity |].
    split; [reflexivity |]. split; [auto |]. intros c k p s [].
  - rewrite fold_res_cons. cbn [fst snd].
    destruct (noise_active sus d0 c0 k0) eqn:Ea.
    + (* the first entry is active *)
      assert (Hps : exists p0 s0, P d0 c0 k0 = Some p0
                /\ sigma sus c0 (component_direction c0) = Some s0).
      { unfold noise_active in Ea.
        destruct (P d0 c0 k0) as [p0 |]; [| discriminate].
        destruct (sigma sus c0 (component_direction c0)) as [s0 |];
          [eauto | discriminate]. }
      destruct Hps as [p0 [s0 [EP0 ES0]]].
      destruct (noisy_component_draws c0 k0 d0 g0 p0 s0 EP0 ES0)
        as [p0' [E0 [Hout0 Hin0]]].
      rewrite E0. cbn [bind].
      set (da := {| ntot := ntot d0;
                    P := set_entry (P d0) c0 k0 (Some p0');
                    P_prev := P_prev d0 |}) in *.
      assert (Hact : forall c k, noise_active sus da c k
                                 = noise_active sus d0 c k).
      { intros c k. unfold noise_active, da. cbn [P].
        destruct (entry_eq_dec (c, k) (c0, k0)) as [Heq | Hne].
        - injection Heq as -> ->. rewrite set_entry_same, EP0. reflexivity.
        - rewrite set_entry_other; [reflexivity |].
          destruct (component_eq_dec c c0) as [-> | ?]; [| now left].
          right. congruence. }
      destruct (IH da (advance (length (owned gv c0)) g0))
        as [d1 [g1 [E [HPP [Hn [F V]]]]]].
      exists d1, g1. split; [exact E |]. split; [exact HPP |].
      split; [exact Hn |]. split.
      * intros c k Hnk. rewrite F.
        -- unfold da. cbn [P]. apply set_entry_other.
           destruct (entry_eq_dec (c, k) (c0, k0)) as [Heq | Hne].
           ++ injection Heq as -> ->. elim Hnk. split; [now left | exact Ea].
           ++ destruct (component_eq_dec c c0) as [-> | ?]; [| now left].
              right. congruence.
        -- rewrite Hact. intros [Hin Hw]. apply Hnk.
           split; [now right | exact Hw].
      * intros c k p s [Heq | Hin] EP ES.
        -- injection Heq as <- <-.
           rewrite EP in EP0. injection EP0 as <-.
           rewrite ES in ES0. injection ES0 as <-.
           exists p0'. split; [| split].
           ++ rewrite F by (intros [Hc _]; exact (Hni Hc)).
              unfold da. cbn [P]. apply set_entry_same.
           ++ exact Hout0.
           ++ intros j Hj. cbn [draws_before].
              destruct (component_eq_dec c0 c0) as [_ | Hne];
                [| contradiction].
              rewrite Nat.eqb_refl. cbn [Nat.add]. now apply Hin0.
        -- assert (Hne : (c, k) <> (c0, k0))
             by (intros Heq; injection Heq as -> ->; contradiction).
           assert (EPa : P da c k = Some p).
           { unfold da. cbn [P]. rewrite set_entry_other; [exact EP |].
             destruct (component_eq_dec c c0) as [-> | ?]; [| now left].
             right. congruence. }
           destruct (V c k p s Hin EPa ES) as [p' [E1 [Hout Hv]]].
           exists p'. split; [exact E1 |]. split; [exact Hout |].
           intros j Hj. rewrite (Hv j Hj).
           rewrite (draws_before_ext _ _ gv l c k Hact).
           cbn [draws_before]. rewrite Ea.
           assert (Ed : (if component_eq_dec c0 c
                         then if Nat.eqb k0 k then 0%nat
                              else (length (owned gv c0)
                                    + draws_before (noise_active sus d0)
                                        gv l c k)%nat
                         else (length (owned gv c0)
                               + draws_before (noise_active sus d0)
                                   gv l c k)%nat)
                        = (length (owned gv c0)
                           + draws_before (noise_active sus d0) gv l c k)%nat).
           { destruct (component_eq_dec c0 c) as [-> | ?]; [| reflexivity].
             destruct (Nat.eqb_spec k0 k) as [-> | ?]; [| reflexivity].
             now elim Hne. }
           rewrite Ed, <- Nat.add_assoc.
           rewrite (advance_add (length (owned gv c0))). reflexivity.
    + (* the first entry is skipped *)
      rewrite noisy_component_idle by exact Ea. cbn [bind].
      destruct (IH d0 g0) as [d1 [g1 [E [HPP [Hn [F V]]]]]].
      exists d1, g1. split; [exact E |]. split; [exact HPP |].
      split; [exact Hn |]. split.
      * intros c k Hnk. apply F. intros [Hin Hw]. apply Hnk.
        split; [now right | exact Hw].
      * intros c k p s [Heq | Hin] EP ES.
        -- injection Heq as <- <-. unfold noise_active in Ea.
           rewrite EP, ES in Ea. discriminate.
        -- assert (Hne : (c, k) <> (c0, k0))
             by (intros Heq; injection Heq as -> ->; contradiction).
           destruct (V c k p s Hin EP ES) as [p' [E1 [Hout Hv]]].
           exists p'. split; [exact E1 |]. split; [exact Hout |].
           intros j Hj. rewrite (Hv j Hj).
           cbn [draws_before]. rewrite Ea.
           assert (Ed : (if component_eq_dec c0 c
                         then if Nat.eqb k0 k then 0%nat
                              else (0 + draws_before (noise_active sus d0)
                                          gv l c k)%nat
                         else (0 + draws_before (noise_active sus d0)
                                     gv l c k)%nat)
                        = draws_before (noise_active sus d0) gv l c k).
           { destruct (component_eq_dec c0 c) as [-> | ?]; [| reflexivity].
             destruct (Nat.eqb_spec k0 k) as [-> | ?]; [| reflexivity].
             now elim Hne. }
           now rewrite Ed.
Qed.

End NoisyLoops.

Lemma noisy_amp_value (sus : noisy_lorentzian_susceptibility) (dt : R) :
  0 <= 2 * pi * gamma sus -> 1 + pi * gamma sus * dt <> 0 ->
  noisy_amp sus dt
  = Some (2 * pi * omega_0 sus * noise_amp sus * sqrt (2 * pi * gamma sus)
          * (dt * dt) / (1 + pi * gamma sus * dt)).
Proof.
  intros Hg HD. unfold noisy_amp, w2pi, g2pi.
  destruct (Rle_dec 0 (gamma sus * 2 * pi)) as [_ | Hn]; [| elim Hn; lra].
  destruct (Req_dec_T (1 + gamma sus * 2 * pi * dt / 2) 0) as [E | _].
  - elim HD. lra.
  - f_equal. replace (gamma sus * 2 * pi) with (2 * pi * gamma sus) by ring.
    field. intros E. apply HD. lra.
Qed.

(** The two passes of the noisy [update_P] on a blob: the Lorentzian
    update, then the noise, the deviates taken from the generator in the
    order of the loops. *)
Lemma noisy_update_general (sus : noisy_lorentzian_susceptibility) (dt : R)
  (W W_prev : field_table) (gv : grid_volume) (d : lorentzian_data)
  (g : rng_state) (amp : R) :
  wf_data d -> noisy_amp sus dt = Some amp ->
  (forall c, NoDup (owned gv c)) ->
  (forall c s i, sigma sus c (component_direction c) = Some s ->
                 In i (owned gv c) -> 0 <= s i) ->
  exists d' d'' g',
    lorentzian_update_P sus dt W W_prev gv (Some d) = Ok d'
    /\ noisy_update_P sus dt W W_prev gv (Some d) g = Ok (d'', g')
    /\ P_prev d'' = P_prev d' /\ ntot d'' = ntot d'
    /\ (forall c k,
        ~ (In (c, k) entries /\ noise_active sus d' c k = true) ->
        P d'' c k = P d' c k)
    /\ (forall c k p' s,
        In (c, k) entries -> P d' c k = Some p' ->
        sigma sus c (component_direction c) = Some s ->
        exists p'',
          P d'' c k = Some p''
          /\ (forall i, ~ In i (owned gv c) -> p'' i = p' i)
          /\ (forall j, (j < length (owned gv c))%nat ->
              p'' (nth j (owned gv c) 0%Z)
              = p' (nth j (owned gv c) 0%Z)
                + fst (gaussian_random 0
                         (amp * sqrt (s (nth j (owned gv c) 0%Z)))
                         (advance
                            (draws_before (noise_active sus d') gv
                               entries c k + j) g))))
    /\ (amp = 0 -> data_eq d' d'').
Proof.
  intros Hd Ha Hnd Hs.
  destruct (lorentzian_update_P_spec sus dt W gv W_prev d Hd) as [d' [E _]].
  destruct (noise_entries_loop sus dt gv amp Ha Hnd Hs entries entries_NoDup
              d' g) as [d'' [g' [E' [HPP [Hn [F V]]]]]].
  exists d', d'', g'. split; [exact E |]. split.
  { unfold noisy_update_P. rewrite E. cbn [bind].
    unfold for_components_docmp2. rewrite nested_fold_res_entries.
    exact E'. }
  split; [exact HPP |]. split; [exact Hn |]. split; [exact F |].
  split; [exact V |].
  intros Ez. split; [now rewrite Hn |]. intros c k.
  split; [| rewrite HPP; apply ptr_eq_refl].
  destruct (in_dec entry_eq_dec (c, k) entries) as [Hin | Hout];
    [| rewrite F by tauto; apply ptr_eq_refl].
  destruct (noise_active sus d' c k) eqn:Ea;
    [| rewrite F by (intros [_ Hw]; congruence); apply ptr_eq_refl].
  unfold noise_active in Ea.
  destruct (P d' c k) as [p' |] eqn:EP; [| discriminate].
  destruct (sigma sus c (component_direction c)) as [s |] eqn:ES;
    [| discriminate].
  destruct (V c k p' s Hin EP ES) as [p'' [E2 [Hfr Hv]]].
  rewrite E2. simpl. intros i.
  destruct (in_dec Z.eq_dec i (owned gv c)) as [Hi | Hi];
    [| symmetry; now apply Hfr].
  destruct (In_nth _ _ 0%Z Hi) as [j [Hj Ej]].
  rewrite <- Ej, (Hv j Hj), Ez, Rmult_0_l, gaussian_random_point. ring.
Qed.

(** Without an amplitude the first noisy point stops the loop; until
    then the entries pass unchanged. *)
Lemma noisy_component_not_a_number (sus : noisy_lorentzian_susceptibility)
  (dt : R) (gv : grid_volume) (c0 : component) (k0 : nat)
  (d : lorentzian_data) (g : rng_state) :
  noisy_amp sus dt = None ->
  (noise_active sus d c0 k0 = true /\ owned gv c0 <> []
   /\ noisy_component sus dt gv c0 k0 (d, g) = Fault NotANumber)
  \/ ((noise_active sus d c0 k0 = false \/ owned gv c0 = [])
      /\ exists d1,
           noisy_component sus dt gv c0 k0 (d, g) = Ok (d1, g)
           /\ forall c k, noise_active sus d1 c k = noise_active sus d c k).
Proof.
  intros Ha.
  destruct (noise_active sus d c0 k0) eqn:Ea.
  - unfold noise_active in Ea.
    destruct (P d c0 k0) as [p |] eqn:EP; [| discriminate].
    destruct (sigma sus c0 (component_direction c0)) as [s |] eqn:ES;
      [| discriminate].
    destruct (owned gv c0) as [| i l] eqn:Eo.
    + right. split; [now right |].
      unfold noisy_component. rewrite EP, ES, Eo. cbn [fold_res bind fst snd].
      eexists. split; [reflexivity |].
      intros c k. unfold noise_active. cbn [P].
      destruct (entry_eq_dec (c, k) (c0, k0)) as [Heq | Hne].
      * injection Heq as -> ->. rewrite set_entry_same, EP. reflexivity.
      * rewrite set_entry_other; [reflexivity |].
        destruct (component_eq_dec c c0) as [-> | ?]; [| now left].
        right. congruence.
    + left. split; [reflexivity |]. split; [discriminate |].
      unfold noisy_component. rewrite EP, ES, Eo.
      assert (Estep : noise_body sus dt s (p, g) i = Fault NotANumber)
        by (unfold noise_body; now rewrite Ha).
      rewrite fold_res_cons, Estep. reflexivity.
  - right. split; [now left |]. exists d.
    split; [| reflexivity].
    unfold noise_active in Ea. unfold noisy_component.
    destruct (P d c0 k0) as [p |]; [| reflexivity].
    destruct (sigma sus c0 (component_direction c0)) as [s |];
      [discriminate | reflexivity].
Qed.

Lemma noise_entries_not_a_number (sus : noisy_lorentzian_susceptibility)
  (dt : R) (gv : grid_volume) (c : component) (k : nat)
  (l : list (component * nat)) :
  noisy_amp sus dt = None -> In (c, k) l -> owned gv c <> [] ->
  forall d g,
    noise_active sus d c k = true ->
    fold_res (fun st ck => noisy_component sus dt gv (fst ck) (snd ck) st)
      l (d, g) = Fault NotANumber.
Proof.
  intros Ha Hin Hne. induction l as [| [c0 k0] l IH]; intros d g Hact;
    [destruct Hin |].
  rewrite fold_res_cons. cbn [fst snd].
  destruct (noisy_component_not_a_number sus dt gv c0 k0 d g Ha)
    as [[_ [_ E]] | [Hidle [d1 [E Hsame]]]].
  - rewrite E. reflexivity.
  - rewrite E. cbn [bind]. destruct Hin as [Heq | Hin].
    + injection Heq as -> ->. destruct Hidle as [Hf | He].
      * rewrite Hf in Hact. discriminate.
      * contradiction.
    + apply IH; [exact Hin |]. now rewrite Hsame.
Qed.

(** With a negative damping, or with a zero denominator, the noisy
    [update_P] stores what is not a number at the first noisy point. *)
Lemma noisy_update_not_a_number (sus : noisy_lorentzian_susceptibility)
  (dt : R) (W W_prev : field_table) (gv : grid_volume) (d d' : lorentzian_data)
  (g : rng_state) (c : component) (k : nat) :
  noisy_amp sus dt = None ->
  lorentzian_update_P sus dt W W_prev gv (Some d) = Ok d' ->
  In c FOR_COMPONENTS -> In k DOCMP2 -> owned gv c <> [] ->
  noise_active sus d' c k = true ->
  noisy_update_P sus dt W W_prev gv (Some d) g = Fault NotANumber.
Proof.
  intros Ha E Hc Hk Hne Hact. unfold noisy_update_P. rewrite E. cbn [bind].
  unfold for_components_docmp2. rewrite nested_fold_res_entries.
  apply (noise_entries_not_a_number sus dt gv c k); auto.
  apply in_entries. now split.
Qed.



End Properties.

(* ================================================================== *)
(** * The statements on concrete inputs *)

Section OnInputs.

#[local] Existing Instance Meep.header.

Lemma one_point_owned (c : Meep.component) : NoDup (owned Inputs.one_point c).
Proof. repeat constructor. intros []. Qed.

Lemma data_x_wf (p pp : R) : wf_data (Inputs.data_x p pp).
Proof.
  intros c cmp. destruct c; simpl; auto. destruct cmp; simpl; auto.
  intros _. discriminate.
Qed.

Lemma lorentzian_one_step_closed_form_witness :
  exists d' p' ppa',
    lorentzian_update_P
      (Inputs.lorentzian (Inputs.sigma_xx 1) 1 0.1) 0.01
      (Inputs.W_x 1) (Inputs.W_x 1) Inputs.one_point
      (Some (init_internal_data (Inputs.sigma_xx 1) (Inputs.W_x 1)
               Inputs.one_point)) = Ok d'
    /\ P d' Meep.Ex 0%nat = Some p' /\ P_prev d' Meep.Ex 0%nat = Some ppa'
    /\ p' 0%Z = (1 / (1 + 0.1 * PI * 0.01)) * ((2 * PI) * (2 * PI) * (0.01 * 0.01)).
Proof.
  destruct (lorentzian_one_step_closed_form
              (Inputs.lorentzian (Inputs.sigma_xx 1) 1 0.1) 0.01
              (Inputs.W_x 1) (Inputs.W_x 1) Inputs.one_point
              (init_internal_data (Inputs.sigma_xx 1) (Inputs.W_x 1)
                 Inputs.one_point)
              Meep.Ex 0%nat zeros zeros (Inputs.const 1) (Inputs.const 1) 0%Z)
    as [d' [p' [ppa' [E [E1 [E2 [_ [_ Hv]]]]]]]].
  - apply init_internal_data_wf.
  - simpl. auto.
  - simpl. auto.
  - reflexivity.
  - reflexivity.
  - reflexivity.
  - reflexivity.
  - reflexivity.
  - apply one_point_owned.
  - simpl. auto.
  - exists d', p', ppa'.
    split; [exact E |]. split; [exact E1 |]. split; [exact E2 |].
    apply Hv; reflexivity.
Defined.

(** The isotropic loop at a point of zero sigma, with [omega_0 = 0],
    [gamma = 0], [dt = 1], [P = 1], [P_prev = 0]: the new [P] is 2, not
    the old [P_prev]. *)
Lemma zero_sigma_isotropic_counterexample :
  exists d' p',
    lorentzian_update_P
      (Inputs.lorentzian (Inputs.sigma_xx 0) 0 0) 1
      (Inputs.W_x 1) (Inputs.W_x 1) Inputs.one_point
      (Some (Inputs.data_x 1 0)) = Ok d'
    /\ sigma (Inputs.sigma_xx 0) Meep.Ex Meep.dX = Some (Inputs.const 0)
    /\ anisotropic (Inputs.lorentzian (Inputs.sigma_xx 0) 0 0) (Inputs.W_x 1)
         Inputs.one_point Meep.Ex 0%nat = false
    /\ P_prev (Inputs.data_x 1 0) Meep.Ex 0%nat = Some (Inputs.const 0)
    /\ P d' Meep.Ex 0%nat = Some p'
    /\ p' 0%Z = 2
    /\ p' 0%Z <> Inputs.const 0 0%Z.
Proof.
  destruct (lorentzian_isotropic_point
              (Inputs.lorentzian (Inputs.sigma_xx 0) 0 0) 1
              (Inputs.W_x 1) (Inputs.W_x 1) Inputs.one_point
              (Inputs.data_x 1 0) Meep.Ex 0%nat
              (Inputs.const 1) (Inputs.const 0) (Inputs.const 1)
              (Inputs.const 0))
    as [d' [p' [ppa' [E [E1 [E2 Hpt]]]]]];
    try reflexivity; try (simpl; auto; fail).
  - apply data_x_wf.
  - apply one_point_owned.
  - destruct (Hpt 0%Z (or_introl eq_refl)) as [Hp _].
    assert (Hv : p' 0%Z = 2).
    { rewrite Hp.
      unfold lorentzian_step, gamma1inv, gamma1, omega0dtsqr_denom,
        omega0dtsqr, omega2pi, g2pi, Inputs.const.
      simpl. field. }
    exists d', p'. repeat split; auto.
    rewrite Hv. unfold Inputs.const. lra.
Qed.

Lemma zero_sigma_point_witness :
  exists d' p' ppa',
    lorentzian_update_P
      (Inputs.lorentzian (Inputs.sigma_xx 0) 0 0) 1
      (Inputs.W_x 1) (Inputs.W_x 1) Inputs.one_point
      (Some (Inputs.data_x 1 0)) = Ok d'
    /\ P d' Meep.Ex 0%nat = Some p' /\ P_prev d' Meep.Ex 0%nat = Some ppa'
    /\ p' 0%Z = 2 /\ ppa' 0%Z = 1.
Proof.
  destruct (zero_sigma_point
              (Inputs.lorentzian (Inputs.sigma_xx 0) 0 0) 1
              (Inputs.W_x 1) (Inputs.W_x 1) Inputs.one_point
              (Inputs.data_x 1 0) Meep.Ex 0%nat
              (Inputs.const 1) (Inputs.const 0) (Inputs.const 1)
              (Inputs.const 0) 0%Z)
    as [d' [p' [ppa' [E [E1 [E2 [Hiso _]]]]]]];
    try reflexivity; try (simpl; auto; fail).
  - apply data_x_wf.
  - apply one_point_owned.
  - destruct (Hiso eq_refl) as [Hp Hpp].
    exists d', p', ppa'.
    split; [exact E |]. split; [exact E1 |]. split; [exact E2 |].
    split; [| exact Hpp].
    rewrite Hp.
    unfold gamma1inv, gamma1, omega0dtsqr_denom, omega0dtsqr, omega2pi, g2pi,
      Inputs.const.
    simpl. field.
Defined.

(** Ex is allocated through its coupling to Ey alone, its own field is
    absent, and the update leaves it as allocated. *)
Lemma lorentzian_idle_entry_witness :
  needs_P (Inputs.sigma_xy 1) Meep.Ex 0%nat (Inputs.W_y 1) = true
  /\ P (init_internal_data (Inputs.sigma_xy 1) (Inputs.W_y 1) Inputs.one_point)
       Meep.Ex 0%nat = Some zeros
  /\ exists d',
       lorentzian_update_P
         (Inputs.lorentzian (Inputs.sigma_xy 1) 1 0.1) 0.01
         (Inputs.W_y 1) (Inputs.W_y 1) Inputs.one_point
         (Some (init_internal_data (Inputs.sigma_xy 1) (Inputs.W_y 1)
                  Inputs.one_point)) = Ok d'
       /\ P d' Meep.Ex 0%nat = Some zeros
       /\ P_prev d' Meep.Ex 0%nat = Some zeros.
Proof.
  split; [reflexivity |]. split; [reflexivity |].
  destruct (lorentzian_idle_entry
              (Inputs.lorentzian (Inputs.sigma_xy 1) 1 0.1) 0.01
              (Inputs.W_y 1) (Inputs.W_y 1) Inputs.one_point
              (init_internal_data (Inputs.sigma_xy 1) (Inputs.W_y 1)
                 Inputs.one_point)
              Meep.Ex 0%nat)
    as [d' [E [E1 E2]]].
  - apply init_internal_data_wf.
  - left. reflexivity.
  - exists d'. split; [exact E |]. split; [exact E1 | exact E2].
Defined.

(** For [ub = vb = 1] and a unit bias along z, the closed form times
    the spec's system matrix [ub I - vb T] has 0 in its first diagonal
    entry, where the identity has 1. *)
Lemma gyro_inverse_spec_system_counterexample :
  mat3_mul (gyro_inverse 1 1 (skew_tensor Inputs.bias_z))
           (spec_system_matrix 1 1 (skew_tensor Inputs.bias_z)) 0%Z 0%Z = 0
  /\ mat3_id 0%Z 0%Z = 1
  /\ mat3_mul (gyro_inverse 1 1 (skew_tensor Inputs.bias_z))
              (spec_system_matrix 1 1 (skew_tensor Inputs.bias_z)) 0%Z 0%Z
     <> mat3_id 0%Z 0%Z.
Proof.
  assert (E : mat3_mul (gyro_inverse 1 1 (skew_tensor Inputs.bias_z))
                (spec_system_matrix 1 1 (skew_tensor Inputs.bias_z)) 0%Z 0%Z
              = 0).
  { destruct (gyro_inverse_entries 1 1 (skew_tensor Inputs.bias_z))
      as [I00 [_ [_ [I01 [_ [_ [I02 _]]]]]]].
    destruct (skew_tensor_entries Inputs.bias_z)
      as [T12 [T20 [T01 [T21 [T02 [T10 [T00 [T11 T22]]]]]]]].
    cbv zeta in I00, I01, I02.
    unfold mat3_mul, spec_system_matrix, mat3_id.
    rewrite I00, I01, I02, T12, T20, T01, T10, T00. simpl. field. }
  split; [exact E |]. split; [reflexivity |].
  rewrite E. unfold mat3_id. simpl. lra.
Qed.

Lemma gyro_inverse_exact_witness :
  mat3_mul (gyro_inverse 1 1 (skew_tensor Inputs.bias_z))
           (code_system_matrix 1 1 (skew_tensor Inputs.bias_z)) 0%Z 0%Z
  = mat3_id 0%Z 0%Z.
Proof.
  apply (gyro_inverse_exact 1 1 Inputs.bias_z 0%Z 0%Z); [lra | lia | lia].
Defined.

(** The gyrotropic term built with the bias (2, 0, 0) writes 1 as its
    third value, not the 2 that was supplied. *)
Lemma gyrotropic_dump_bias_counterexample :
  exists record,
    gyrotropic_dump_params
      (gyrotropic_ctor (Inputs.sigma_xx 1) Inputs.bias_2x 0 1 0) [] 0%Z
    = ([(0%Z, record)], 9%Z)
    /\ nth 2 record 0 = 1
    /\ nth 2 record 0 <> vec_x Inputs.bias_2x.
Proof.
  rewrite gyrotropic_dump_params_ctor. simpl.
  assert (Ea : vec_abs Inputs.bias_2x = 2).
  { unfold vec_abs. simpl.
    replace (2 * 2 + 0 * 0 + 0 * 0) with (2 * 2) by ring.
    apply sqrt_square. lra. }
  rewrite Ea. rewrite Rmax_left by lra.
  eexists. split; [reflexivity |]. simpl.
  split; [field | ].
  replace (2 / 2) with 1 by field. lra.
Qed.

Lemma W_x_ready (v s : R) (c : Meep.component) (k : nat)
  (d : lorentzian_data) :
  P d c k <> None -> Inputs.W_x v c k <> None ->
  gyro_ready (Inputs.sigma_xx s) (Inputs.W_x v) Inputs.one_point c k.
Proof.
  intros _ HW. destruct c; try (now elim HW).
  unfold gyro_ready. simpl.
  repeat split; try reflexivity; try discriminate; intros E; now elim E.
Qed.

(** From rest, with [omega_0 = 1], [gamma = 0], [dt = 1], sigma 1 and
    the field 1 on Ex: the Lorentzian term moves [P] to [4 pi^2], the
    gyrotropic term built with a zero bias leaves it at 0. *)
Lemma gyrotropic_zero_bias_counterexample :
  exists dl dg pl pg,
    lorentzian_update_P
      (gyro_base (gyrotropic_ctor (Inputs.sigma_xx 1) zero_bias 0 1 0)) 1
      (Inputs.W_x 1) (Inputs.W_x 1) Inputs.one_point
      (Some (init_internal_data (Inputs.sigma_xx 1) (Inputs.W_x 1)
               Inputs.one_point)) = Ok dl
    /\ gyrotropic_update_P
         (gyrotropic_ctor (Inputs.sigma_xx 1) zero_bias 0 1 0) 1
         (Inputs.W_x 1) (Inputs.W_x 1) Inputs.one_point
         (Some (init_internal_data (Inputs.sigma_xx 1) (Inputs.W_x 1)
                  Inputs.one_point)) = Ok dg
    /\ P dl Meep.Ex 0%nat = Some pl
    /\ P dg Meep.Ex 0%nat = Some pg
    /\ pl 0%Z = 4 * PI * PI
    /\ pg 0%Z = 0
    /\ pl 0%Z <> pg 0%Z.
Proof.
  destruct (lorentzian_isotropic_point
              (gyro_base (gyrotropic_ctor (Inputs.sigma_xx 1) zero_bias 0 1 0))
              1 (Inputs.W_x 1) (Inputs.W_x 1) Inputs.one_point
              (init_internal_data (Inputs.sigma_xx 1) (Inputs.W_x 1)
                 Inputs.one_point)
              Meep.Ex 0%nat zeros zeros (Inputs.const 1) (Inputs.const 1))
    as [dl [pl [ppl [El [El1 [_ Hl]]]]]];
    try reflexivity; try (simpl; auto; fail).
  { apply init_internal_data_wf. }
  { apply one_point_owned. }
  destruct (gyrotropic_zero_update
              (gyrotropic_ctor (Inputs.sigma_xx 1) zero_bias 0 1 0) 1
              (Inputs.W_x 1) Inputs.one_point
              (zero_bias_tensor (Inputs.sigma_xx 1) 0 1 0))
    with (W_prev := Inputs.W_x 1)
         (d := init_internal_data (Inputs.sigma_xx 1) (Inputs.W_x 1)
                 Inputs.one_point)
    as [dg [Eg Hg]].
  { unfold ub, g2pi. simpl. lra. }
  { apply one_point_owned. }
  { apply init_internal_data_wf. }
  { intros c k _ _. apply W_x_ready. }
  destruct (Hg Meep.Ex 0%nat zeros) as [_ [_ Hgv]];
    try reflexivity; try discriminate; try (simpl; auto; fail).
  destruct Hgv as [pg [Eg1 Hgv]]; [discriminate |].
  destruct (Hl 0%Z (or_introl eq_refl)) as [Hpl _].
  pose proof (Hgv 0%Z (or_introl eq_refl)) as Hpg.
  assert (Vl : pl 0%Z = 4 * PI * PI).
  { rewrite Hpl.
    unfold lorentzian_step, gamma1inv, gamma1, omega0dtsqr_denom,
      omega0dtsqr, omega2pi, g2pi, Inputs.const, zeros.
    simpl. field. }
  assert (Vg : pg 0%Z = 0).
  { rewrite Hpg. unfold zeros. ring. }
  exists dl, dg, pl, pg. repeat split; auto.
  rewrite Vl, Vg. pose proof PI_RGT_0. nra.
Qed.

Lemma gyrotropic_zero_bias_step_witness :
  exists d' p' pp',
    gyrotropic_update_P
      (gyrotropic_ctor (Inputs.sigma_xx 1) zero_bias 0 1 0) 1
      (Inputs.W_x 1) (Inputs.W_x 1) Inputs.one_point
      (Some (Inputs.data_x 1 0)) = Ok d'
    /\ P d' Meep.Ex 0%nat = Some p' /\ P_prev d' Meep.Ex 0%nat = Some pp'
    /\ p' 0%Z = 1 /\ pp' 0%Z = 1.
Proof.
  destruct (gyrotropic_zero_bias_step (Inputs.sigma_xx 1) 0 1 0 1
              (Inputs.W_x 1) (Inputs.W_x 1) Inputs.one_point
              (Inputs.data_x 1 0))
    as [d' [E Hv]].
  - apply data_x_wf.
  - simpl. lra.
  - apply one_point_owned.
  - intros c k _ _. apply W_x_ready.
  - destruct (Hv Meep.Ex 0%nat (Inputs.const 1)) as [p' [pp' [E1 [E2 Hpt]]]];
      try reflexivity; try discriminate; try (simpl; auto; fail).
    destruct (Hpt 0%Z (or_introl eq_refl)) as [Hp Hpp].
    exists d', p', pp'.
    split; [exact E |]. split; [exact E1 |]. split; [exact E2 |].
    rewrite Hp, Hpp. unfold Inputs.const. simpl. split; field.
Defined.

Lemma lorentzian_update_P_safe_witness :
  exists d',
    lorentzian_update_P
      (Inputs.lorentzian (Inputs.sigma_xx 1) 1 0.1) 0.01
      (Inputs.W_x 1) (Inputs.W_x 1) Inputs.one_point
      (Some (init_internal_data (Inputs.sigma_xx 1) (Inputs.W_x 1)
               Inputs.one_point)) = Ok d'
    /\ wf_data d' /\ ntot d' = 1%nat
    /\ P d' Meep.Ex 0%nat <> None /\ P d' Meep.Ey 0%nat = None.
Proof.
  destruct (lorentzian_update_P_safe
              (Inputs.lorentzian (Inputs.sigma_xx 1) 1 0.1) 0.01
              (Inputs.W_x 1) (Inputs.W_x 1) Inputs.one_point
              (init_internal_data (Inputs.sigma_xx 1) (Inputs.W_x 1)
                 Inputs.one_point)
              (init_internal_data_wf _ _ _))
    as [d' [E [Hwf [Hn Hal]]]].
  exists d'. split; [exact E |]. split; [exact Hwf |]. split; [exact Hn |].
  split.
  - intros E0. apply Hal in E0. discriminate.
  - apply Hal. reflexivity.
Defined.

Lemma lorentzian_unstable_real_pole_witness :
  (1 : R) <> 0 /\ 1 + 2 * PI * 0 * 1 / 2 <> 0 /\
  (lorentzian_unstable 0 0 1 = true <->
   unstable_c 0 1 < unstable_b 0 0 1 * unstable_b 0 0 1 /\
   exists z, 1 < Rabs z /\ pole_equation 0 0 1 z).
Proof.
  assert (Hdt : (1 : R) <> 0) by lra.
  assert (HD : 1 + 2 * PI * 0 * 1 / 2 <> 0) by lra.
  split; [exact Hdt |]. split; [exact HD |].
  exact (lorentzian_unstable_real_pole 0 0 1 Hdt HD).
Defined.

Lemma lorentzian_unstable_threshold_witness :
  0 <= 2 * PI * 0 * 1 /\
  (lorentzian_unstable 1 0 1 = true <->
   4 < (2 * PI * 1 * 1) * (2 * PI * 1 * 1)).
Proof.
  assert (Hg : 0 <= 2 * PI * 0 * 1) by lra.
  split; [exact Hg |].
  exact (lorentzian_unstable_threshold 1 0 1 Hg).
Defined.

Lemma lorentzian_unstable_misses_complex_poles_witness :
  -2 < 2 * PI * (- / (2 * PI)) * 1 < 0 /\
  unstable_b (/ (2 * PI)) (- / (2 * PI)) 1
    * unstable_b (/ (2 * PI)) (- / (2 * PI)) 1
    < unstable_c (- / (2 * PI)) 1 /\
  lorentzian_unstable (/ (2 * PI)) (- / (2 * PI)) 1 = false /\
  exists x y, complex_pole (/ (2 * PI)) (- / (2 * PI)) 1 x y
              /\ 1 < x * x + y * y.
Proof.
  assert (HPI : 2 * PI <> 0) by (pose proof PI_RGT_0; lra).
  assert (Eg : 2 * PI * (- / (2 * PI)) * 1 = -1) by (field; lra).
  assert (Ew : 2 * PI * (/ (2 * PI)) = 1) by (field; lra).
  assert (Eb : unstable_b (/ (2 * PI)) (- / (2 * PI)) 1 = 1).
  { unfold unstable_b. cbv zeta. simpl pi.
    replace (2 * PI * - / (2 * PI) * 1 / 2) with (-1 / 2)
      by (rewrite Eg; reflexivity).
    rewrite Ew. field. }
  assert (Ec : unstable_c (- / (2 * PI)) 1 = 3).
  { unfold unstable_c. cbv zeta. simpl pi.
    replace (2 * PI * - / (2 * PI) * 1 / 2) with (-1 / 2)
      by (rewrite Eg; reflexivity).
    field. }
  assert (H1 : -2 < 2 * PI * (- / (2 * PI)) * 1 < 0) by (rewrite Eg; lra).
  assert (H2 : unstable_b (/ (2 * PI)) (- / (2 * PI)) 1
               * unstable_b (/ (2 * PI)) (- / (2 * PI)) 1
               < unstable_c (- / (2 * PI)) 1) by (rewrite Eb, Ec; lra).
  split; [exact H1 |]. split; [exact H2 |].
  exact (lorentzian_unstable_misses_complex_poles
           (/ (2 * PI)) (- / (2 * PI)) 1 H1 H2).
Defined.

Lemma lorentzian_static_fixed_point_witness :
  exists d' p' ppa',
    lorentzian_update_P
      (Inputs.lorentzian (Inputs.sigma_xx 1) 1 0) 1
      (Inputs.W_x 1) (Inputs.W_x 1) Inputs.one_point
      (Some (Inputs.data_x 1 1)) = Ok d'
    /\ P d' Meep.Ex 0%nat = Some p' /\ P_prev d' Meep.Ex 0%nat = Some ppa'
    /\ p' 0%Z = Inputs.const 1 0%Z /\ ppa' 0%Z = Inputs.const 1 0%Z.
Proof.
  apply (lorentzian_static_fixed_point
           (Inputs.lorentzian (Inputs.sigma_xx 1) 1 0) 1
           (Inputs.W_x 1) (Inputs.W_x 1) Inputs.one_point
           (Inputs.data_x 1 1) Meep.Ex 0%nat
           (Inputs.const 1) (Inputs.const 1) (Inputs.const 1)
           (Inputs.const 1) 0%Z);
    try reflexivity; try (simpl; auto; fail).
  - apply data_x_wf.
  - apply one_point_owned.
  - unfold g2pi. simpl. lra.
  - unfold W_eff, forcing, offdiag_term, Inputs.const. simpl. lra.
Defined.

Lemma two_points_owned (c : Meep.component) :
  NoDup (owned Inputs.two_points c).
Proof. simpl. constructor; [intros [] | constructor]. Qed.

Lemma data_x2_wf (p pp : R) : wf_data (Inputs.data_x2 p pp).
Proof.
  intros c k. destruct c, k as [| k]; simpl; intros Hp; try discriminate;
    now elim Hp.
Qed.

(** A grid of two points of which the first is owned: the second keeps
    its polarisation. *)
Lemma lorentzian_update_P_frame_witness :
  exists d',
    lorentzian_update_P
      (Inputs.lorentzian (Inputs.sigma_xx 1) 1 0) 1
      (Inputs.W_x 1) (Inputs.W_x 1) Inputs.two_points
      (Some (Inputs.data_x2 1 0)) = Ok d'
    /\ ptr_at (P d' Meep.Ex 0%nat) 1%Z = 1
    /\ ptr_at (P_prev d' Meep.Ex 0%nat) 1%Z = 0.
Proof.
  destruct (lorentzian_update_P_frame
              (Inputs.lorentzian (Inputs.sigma_xx 1) 1 0) 1
              (Inputs.W_x 1) (Inputs.W_x 1) Inputs.two_points
              (Inputs.data_x2 1 0) (data_x2_wf 1 0) two_points_owned)
    as [d' [E Hf]].
  exists d'. split; [exact E |].
  destruct (Hf Meep.Ex 0%nat 1%Z) as [H1 H2].
  - simpl. lia.
  - simpl. intros [Hj | []]. discriminate.
  - split; [rewrite H1 | rewrite H2]; reflexivity.
Defined.

Lemma lorentzian_3x3_point_witness :
  exists d' p' ppa',
    lorentzian_update_P
      (Inputs.lorentzian (Inputs.sigma_x_row 1) 1 0) 1
      (Inputs.W_xyz 1) (Inputs.W_xyz 1) Inputs.one_point
      (Some (Inputs.data_x 0 0)) = Ok d'
    /\ P d' Meep.Ex 0%nat = Some p' /\ P_prev d' Meep.Ex 0%nat = Some ppa'
    /\ p' 0%Z = 12 * PI * PI /\ ppa' 0%Z = 0.
Proof.
  destruct (lorentzian_3x3_point
              (Inputs.lorentzian (Inputs.sigma_x_row 1) 1 0) 1
              (Inputs.W_xyz 1) (Inputs.W_xyz 1) Inputs.one_point
              (Inputs.data_x 0 0) Meep.Ex 0%nat
              (Inputs.const 0) (Inputs.const 0) (Inputs.const 1)
              (Inputs.const 1) (Inputs.const 1) (Inputs.const 1)
              (Inputs.const 1) (Inputs.const 1) 0%Z)
    as [d' [p' [ppa' [E [E1 [E2 [Hp Hpp]]]]]]];
    try reflexivity; try (simpl; auto; fail).
  - apply data_x_wf.
  - apply one_point_owned.
  - unfold Inputs.const. lra.
  - exists d', p', ppa'.
    split; [exact E |]. split; [exact E1 |]. split; [exact E2 |].
    split; [| exact Hpp].
    rewrite Hp.
    unfold gamma1inv, gamma1, omega0dtsqr_denom, omega0dtsqr, omega2pi, g2pi,
      OFFDIAG, Inputs.const.
    simpl. replace 0.25 with (/ 4) by lra. field.
Defined.

Lemma lorentzian_2x2_point_witness :
  exists d' p' ppa',
    lorentzian_update_P
      (Inputs.lorentzian (Inputs.sigma_x_row 1) 1 0) 1
      (Inputs.W_xy 1) (Inputs.W_xy 1) Inputs.one_point
      (Some (Inputs.data_x 0 0)) = Ok d'
    /\ P d' Meep.Ex 0%nat = Some p' /\ P_prev d' Meep.Ex 0%nat = Some ppa'
    /\ p' 0%Z = 8 * PI * PI /\ ppa' 0%Z = 0.
Proof.
  destruct (lorentzian_2x2_point
              (Inputs.lorentzian (Inputs.sigma_x_row 1) 1 0) 1
              (Inputs.W_xy 1) (Inputs.W_xy 1) Inputs.one_point
              (Inputs.data_x 0 0) Meep.Ex 0%nat
              (Inputs.const 0) (Inputs.const 0) (Inputs.const 1)
              (Inputs.const 1) (Inputs.const 1) (Inputs.const 1) 0%Z 1%Z)
    as [d' [p' [ppa' [E [E1 [E2 [Hp Hpp]]]]]]];
    try reflexivity; try (simpl; auto; fail).
  - apply data_x_wf.
  - apply one_point_owned.
  - unfold Inputs.const. lra.
  - exists d', p', ppa'.
    split; [exact E |]. split; [exact E1 |]. split; [exact E2 |].
    split; [| exact Hpp].
    rewrite Hp.
    unfold gamma1inv, gamma1, omega0dtsqr_denom, omega0dtsqr, omega2pi, g2pi,
      OFFDIAG, Inputs.const.
    simpl. replace 0.25 with (/ 4) by lra. field.
Defined.

(** Meep's electric components are listed once, and their D
    counterparts are all different. *)
Lemma electric_components_once : NoDup (FOR_FT_COMPONENTS (MeepHeader := Meep.header) Meep.E_stuff).
Proof.
  apply (nodupb_NoDup Meep.component_eq_dec). reflexivity.
Qed.

Lemma electric_targets_differ (ec ec' : Meep.component) :
  In ec (FOR_FT_COMPONENTS (MeepHeader := Meep.header) Meep.E_stuff) ->
  In ec' (FOR_FT_COMPONENTS (MeepHeader := Meep.header) Meep.E_stuff) ->
  field_type_component (subtract_target (H := Meep.header) Meep.E_stuff) ec
  = field_type_component (subtract_target (H := Meep.header) Meep.E_stuff) ec' -> ec = ec'.
Proof.
  simpl.
  intros [<- | [<- | [<- | [<- | [<- | []]]]]]
         [<- | [<- | [<- | [<- | [<- | []]]]]] E;
    try reflexivity; discriminate E.
Qed.

Lemma subtract_P_spec_witness :
  exists fmp' a',
    subtract_P (H := Meep.header) Meep.E_stuff (Inputs.F_Dx 5) (Some (Inputs.data_x 1 0))
    = Ok fmp'
    /\ fmp' Meep.Dx 0%nat = Some a'
    /\ a' 0%Z = 5 - 1 /\ a' 1%Z = 5.
Proof.
  destruct (subtract_P_spec (H := Meep.header) Meep.E_stuff (Inputs.F_Dx 5) (Inputs.data_x 1 0)
              electric_components_once electric_targets_differ)
    as [fmp' [E [Hv _]]].
  destruct (Hv Meep.Ex 0%nat (Inputs.const 1) (Inputs.const 5))
    as [a' [Ea [Hin Hout]]]; try reflexivity; try (simpl; auto; fail).
  exists fmp', a'. split; [exact E |]. split; [exact Ea |]. split.
  - rewrite Hin; [reflexivity | simpl; lia].
  - rewrite Hout; [reflexivity | simpl; lia].
Defined.

Lemma bias_z_length : vec_abs Inputs.bias_z = 1.
Proof.
  unfold vec_abs. simpl.
  replace (0 * 0 + 0 * 0 + 1 * 1) with 1 by ring. apply sqrt_1.
Qed.

Lemma gyrotropic_dump_rebuild_witness :
  1e-10 <= vec_abs Inputs.bias_z
  /\ exists id bx by_ bz a' o' g' flag,
    fst (gyrotropic_dump_params
           (gyrotropic_ctor (Inputs.sigma_xx 1) Inputs.bias_z 0 1 0) [] 0%Z)
    = [] ++ [(0%Z, [8; id; bx; by_; bz; a'; o'; g'; flag])]
    /\ forall i j,
       gyro_tensor (gyrotropic_ctor (Inputs.sigma_xx 1)
                      {| vec_x := bx; vec_y := by_; vec_z := bz |} a' o' g')
                   i j
       = gyro_tensor (gyrotropic_ctor (Inputs.sigma_xx 1) Inputs.bias_z 0 1 0)
                     i j.
Proof.
  assert (Hb : 1e-10 <= vec_abs Inputs.bias_z) by (rewrite bias_z_length; lra).
  split; [exact Hb |].
  destruct (gyrotropic_dump_rebuild (Inputs.sigma_xx 1) Inputs.bias_z 0 1 0
              [] 0%Z Hb)
    as [id [bx [by_ [bz [a' [o' [g' [flag [E [Ht _]]]]]]]]]].
  exists id, bx, by_, bz, a', o', g', flag. split; [exact E | exact Ht].
Defined.

Lemma gyrotropic_update_P_cylindrical_witness :
  exists f,
    gyrotropic_update_P
      (gyrotropic_ctor (Inputs.sigma_xx 1) Inputs.bias_z 0 1 0) 1
      (Inputs.W_r 1) (Inputs.W_r 1) Inputs.one_point
      (Some (Inputs.data_r 0 0)) = Fault f.
Proof.
  apply (gyrotropic_update_P_cylindrical
           (gyrotropic_ctor (Inputs.sigma_xx 1) Inputs.bias_z 0 1 0) 1
           (Inputs.W_r 1) (Inputs.W_r 1) Inputs.one_point
           (Inputs.data_r 0 0) Meep.Er 0%nat);
    try reflexivity; try discriminate; simpl; auto.
Defined.

Lemma data_xyz_wf (p pp : R) : wf_data (Inputs.data_xyz p pp).
Proof.
  intros c k. destruct c, k as [| k]; simpl; intros Hp; try discriminate;
    now elim Hp.
Qed.

Lemma W_xyz_ready (v s : R) (c : Meep.component) (k : nat)
  (d : lorentzian_data) :
  P d c k <> None -> Inputs.W_xyz v c k <> None ->
  gyro_ready (Inputs.sigma_diag s) (Inputs.W_xyz v) Inputs.one_point c k.
Proof.
  intros _ HW. destruct c; try (now elim HW);
    unfold gyro_ready; simpl;
    repeat split; try reflexivity; try discriminate.
Qed.

Lemma electric_triple :
  cartesian_triple Inputs.one_point Meep.Ex Meep.Ey Meep.Ez.
Proof.
  unfold cartesian_triple. simpl.
  repeat split; try reflexivity; discriminate.
Qed.

(** The term with the bias along z, [omega_0 = 1], no damping and
    [dt = 1], on a polarisation 1 and a field 1 along x, y and z. *)
Lemma gyrotropic_update_P_solves_witness :
  exists d' q0 q1 q2,
    gyrotropic_update_P
      (gyrotropic_ctor (Inputs.sigma_diag 1) Inputs.bias_z 0 1 0) 1
      (Inputs.W_xyz 1) (Inputs.W_xyz 1) Inputs.one_point
      (Some (Inputs.data_xyz 1 0)) = Ok d'
    /\ P d' Meep.Ex 0%nat = Some q0 /\ P d' Meep.Ey 0%nat = Some q1
    /\ P d' Meep.Ez 0%nat = Some q2.
Proof.
  destruct (gyrotropic_update_P_solves
              (gyrotropic_ctor (Inputs.sigma_diag 1) Inputs.bias_z 0 1 0)
              (vec_div Inputs.bias_z (Rmax (vec_abs Inputs.bias_z) 1e-10))
              1 (Inputs.W_xyz 1) (Inputs.W_xyz 1) Inputs.one_point
              (Inputs.data_xyz 1 0) Meep.Ex Meep.Ey Meep.Ez 0%nat
              (Inputs.const 1) (Inputs.const 1) (Inputs.const 1)
              (Inputs.const 1) (Inputs.const 1) (Inputs.const 1)
              (Inputs.const 1) (Inputs.const 1) (Inputs.const 1) 0%Z)
    as [d' [q0 [q1 [q2 [E [E0 [E1 [E2 _]]]]]]]];
    try reflexivity; try (simpl; auto 10; fail).
  - unfold ub, g2pi. simpl. lra.
  - apply data_xyz_wf.
  - apply one_point_owned.
  - intros c k _ _. apply W_xyz_ready.
  - apply electric_triple.
  - exists d', q0, q1, q2. auto.
Defined.

Lemma gyrotropic_update_P_prev_witness :
  exists d' pp',
    gyrotropic_update_P
      (gyrotropic_ctor (Inputs.sigma_diag 1) Inputs.bias_z 0 1 0) 1
      (Inputs.W_xyz 1) (Inputs.W_xyz 1) Inputs.one_point
      (Some (Inputs.data_xyz 1 0)) = Ok d'
    /\ P_prev d' Meep.Ex 0%nat = Some pp'
    /\ pp' 0%Z = 1 + PI.
Proof.
  destruct (gyrotropic_update_P_prev
              (gyrotropic_ctor (Inputs.sigma_diag 1) Inputs.bias_z 0 1 0)
              1 (Inputs.W_xyz 1) (Inputs.W_xyz 1) Inputs.one_point
              (Inputs.data_xyz 1 0) Meep.Ex 0%nat (Inputs.const 1))
    as [d' [pp' [E [EPP Hv]]]];
    try reflexivity; try discriminate; try (simpl; auto 10; fail).
  - apply data_xyz_wf.
  - apply one_point_owned.
  - intros c k _ _. apply W_xyz_ready.
  - exists d', pp'. split; [exact E |]. split; [exact EPP |].
    rewrite (Hv 0%Z (or_introl eq_refl)).
    destruct (skew_tensor_entries
                (vec_div Inputs.bias_z (Rmax (vec_abs Inputs.bias_z) 1e-10)))
      as [_ [_ [T01 [_ [T02 _]]]]].
    unfold ua, va, alpha2pi, omega2pi, g2pi, Inputs.const. simpl.
    rewrite T01, T02. simpl.
    rewrite bias_z_length, Rmax_left by lra.
    unfold Inputs.const. replace 0.5 with (/ 2) by lra. field.
Defined.

Lemma sigma_xx_fits :
  (2 * Z.of_nat (gv_ntot Inputs.one_point)
   * Z.of_nat (needed_entries (Inputs.sigma_xx 1) (Inputs.W_x 1)) < 2 ^ 31)%Z.
Proof. vm_compute. reflexivity. Qed.

Lemma init_internal_data_layout_witness :
  exists off,
    blob_P (init_internal_data_blob (Inputs.sigma_xx 1) (Inputs.W_x 1)
              Inputs.one_point 0%Z
              (new_internal_data (Inputs.sigma_xx 1) (Inputs.W_x 1)
                 Inputs.one_point)) Meep.Ex 1%nat = Some (0%Z, off)
    /\ (0 <= off)%Z
    /\ (off + 2 * 1
        <= new_internal_data (Inputs.sigma_xx 1) (Inputs.W_x 1)
             Inputs.one_point)%Z.
Proof.
  destruct (init_internal_data_layout (Inputs.sigma_xx 1) (Inputs.W_x 1)
              Inputs.one_point 0%Z sigma_xx_fits) as [V _].
  assert (Hc : In Meep.Ex FOR_COMPONENTS) by (simpl; auto).
  assert (Hk : In 1%nat DOCMP2) by (simpl; auto).
  destruct (V Meep.Ex 1%nat Hc Hk eq_refl) as [off [E [_ [B1 B2]]]].
  exists off. split; [exact E |]. split; [exact B1 | exact B2].
Defined.

Lemma fresh_blob_laid_out :
  laid_out (Inputs.sigma_xx 1) (Inputs.W_x 1) Inputs.one_point 0%Z
    (init_internal_data_blob (Inputs.sigma_xx 1) (Inputs.W_x 1)
       Inputs.one_point 0%Z
       (new_internal_data (Inputs.sigma_xx 1) (Inputs.W_x 1)
          Inputs.one_point)).
Proof. split; [reflexivity |]. split; [reflexivity |]. auto. Qed.

Lemma copy_internal_data_spec_witness :
  exists b',
    copy_internal_data 1%Z
      (Some (init_internal_data_blob (Inputs.sigma_xx 1) (Inputs.W_x 1)
               Inputs.one_point 0%Z
               (new_internal_data (Inputs.sigma_xx 1) (Inputs.W_x 1)
                  Inputs.one_point))) = Some b'
    /\ laid_out (Inputs.sigma_xx 1) (Inputs.W_x 1) Inputs.one_point 1%Z b'
    /\ blob_read b' (blob_P b' Meep.Ex 0%nat) 0%Z <> None.
Proof.
  destruct (copy_internal_data_spec (Inputs.sigma_xx 1) (Inputs.W_x 1)
              Inputs.one_point 0%Z 1%Z _ fresh_blob_laid_out sigma_xx_fits)
    as [_ [b' [E [L [_ Hr]]]]].
  exists b'. split; [exact E |]. split; [exact L |].
  assert (Hc : In Meep.Ex FOR_COMPONENTS) by (simpl; auto).
  assert (Hk : In 0%nat DOCMP2) by (simpl; auto).
  assert (Hj : (0 <= 0 < Z.of_nat (gv_ntot Inputs.one_point))%Z)
    by (simpl; lia).
  destruct (Hr Meep.Ex 0%nat 0%Z Hc Hk eq_refl Hj) as [x [y [R1 _]]].
  rewrite R1. discriminate.
Defined.

Lemma lorentzian_pole_is_mode_witness :
  exists d' p',
    lorentzian_update_P
      (Inputs.lorentzian (Inputs.sigma_xx 1) 1 0) 1
      (Inputs.W_x 0) (Inputs.W_x 0) Inputs.one_point
      (Some (Inputs.data_x (1 * 1) 1)) = Ok d'
    /\ P d' Meep.Ex 0%nat = Some p'
    /\ (p' 0%Z = 1 * 1 * 1 <-> pole_equation 1 0 1 1).
Proof.
  assert (Hc : In Meep.Ex FOR_COMPONENTS) by (simpl; auto).
  assert (Hk : In 0%nat DOCMP2) by (simpl; auto).
  assert (Hi : In 0%Z (owned Inputs.one_point Meep.Ex)) by (simpl; auto).
  assert (Hdt : (1 : R) <> 0) by lra.
  assert (HD : 1 + 2 * PI * 0 * 1 / 2 <> 0) by lra.
  exact (lorentzian_pole_is_mode
           (Inputs.lorentzian (Inputs.sigma_xx 1) 1 0) 1
           (Inputs.W_x 0) (Inputs.W_x 0) Inputs.one_point
           (Inputs.data_x (1 * 1) 1) Meep.Ex 0%nat
           (Inputs.const (1 * 1)) (Inputs.const 1) (Inputs.const 0)
           (Inputs.const 1) 0%Z 1 1
           (data_x_wf (1 * 1) 1) Hc Hk eq_refl eq_refl eq_refl eq_refl
           eq_refl (one_point_owned Meep.Ex) Hi eq_refl Hdt HD Hdt Hdt
           eq_refl eq_refl eq_refl).
Defined.

(** Both off-diagonal sigmas of Ex are there and non-trivial, but the
    field Ez is not: the second direction is masked and the point gets
    the 2-term value [8 pi^2], where the 3-term loop over a field 1 on
    Ez would have given [12 pi^2]. *)
Lemma two_sigmas_one_field_counterexample :
  let sus := Inputs.lorentzian (Inputs.sigma_x_row 1) 1 0 in
  trivial_sigma sus Meep.Ex Meep.dY = false
  /\ trivial_sigma sus Meep.Ex Meep.dZ = false
  /\ sigma sus Meep.Ex Meep.dY <> None
  /\ sigma sus Meep.Ex Meep.dZ <> None
  /\ od_s (candidate sus (Inputs.W_xy 1) Inputs.one_point Meep.Ex 0%nat 2)
     = None
  /\ exists d' p',
       lorentzian_update_P sus 1 (Inputs.W_xy 1) (Inputs.W_xy 1)
         Inputs.one_point (Some (Inputs.data_x 0 0)) = Ok d'
       /\ P d' Meep.Ex 0%nat = Some p'
       /\ p' 0%Z = 8 * PI * PI
       /\ p' 0%Z <> 12 * PI * PI.
Proof.
  intros sus.
  split; [reflexivity |]. split; [reflexivity |].
  split; [discriminate |]. split; [discriminate |].
  split; [reflexivity |].
  assert (Hc : In Meep.Ex FOR_COMPONENTS) by (simpl; auto).
  assert (Hk : In 0%nat DOCMP2) by (simpl; auto).
  destruct (lorentzian_active_point sus 1 (Inputs.W_xy 1) (Inputs.W_xy 1)
              Inputs.one_point (Inputs.data_x 0 0) Meep.Ex 0%nat
              (Inputs.const 0) (Inputs.const 0) (Inputs.const 1)
              (Inputs.const 1) (data_x_wf 0 0) Hc Hk
              eq_refl eq_refl eq_refl eq_refl (one_point_owned Meep.Ex))
    as [d' [p' [ppa' [E [E1 [_ Hv]]]]]].
  exists d', p'. split; [exact E |]. split; [exact E1 |].
  destruct (Hv 0%Z (or_introl eq_refl)) as [_ Hrun].
  destruct Hrun as [Hp _].
  { right. unfold Inputs.const. lra. }
  assert (Ev : p' 0%Z = 8 * PI * PI).
  { rewrite Hp.
    unfold lorentzian_step, W_eff, forcing, offdiag_term, gamma1inv, gamma1,
      omega0dtsqr_denom, omega0dtsqr, omega2pi, g2pi, OFFDIAG, Inputs.const.
    simpl. unfold Inputs.const. replace 0.25 with (/ 4) by lra. field. }
  split; [exact Ev |].
  rewrite Ev. pose proof PI_RGT_0. nra.
Qed.

Lemma lorentzian_branch_selection_witness :
  exists d' p' ppa',
    lorentzian_update_P
      (Inputs.lorentzian (Inputs.sigma_x_row 1) 1 0) 1
      (Inputs.W_xyz 1) (Inputs.W_xyz 1) Inputs.one_point
      (Some (Inputs.data_x 0 0)) = Ok d'
    /\ P d' Meep.Ex 0%nat = Some p' /\ P_prev d' Meep.Ex 0%nat = Some ppa'
    /\ p' 0%Z = 12 * PI * PI /\ ppa' 0%Z = 0.
Proof.
  assert (Hc : In Meep.Ex FOR_COMPONENTS) by (simpl; auto).
  assert (Hk : In 0%nat DOCMP2) by (simpl; auto).
  assert (Hi : In 0%Z (owned Inputs.one_point Meep.Ex)) by (simpl; auto).
  destruct (lorentzian_branch_selection
              (Inputs.lorentzian (Inputs.sigma_x_row 1) 1 0) 1
              (Inputs.W_xyz 1) (Inputs.W_xyz 1) Inputs.one_point
              (Inputs.data_x 0 0) Meep.Ex 0%nat
              (Inputs.const 0) (Inputs.const 0) (Inputs.const 1)
              (Inputs.const 1) 0%Z (data_x_wf 0 0) Hc Hk
              eq_refl eq_refl eq_refl eq_refl (one_point_owned Meep.Ex) Hi)
    as [d' [p' [ppa' [E [E1 [E2 [_ [_ H3]]]]]]]].
  destruct (H3 (Inputs.const 1) (Inputs.const 1) (Inputs.const 1)
              (Inputs.const 1) eq_refl eq_refl eq_refl eq_refl)
    as [[Hp Hpp] _].
  { unfold Inputs.const. lra. }
  exists d', p', ppa'.
  split; [exact E |]. split; [exact E1 |]. split; [exact E2 |].
  split; [| exact Hpp].
  rewrite Hp.
  unfold gamma1inv, gamma1, omega0dtsqr_denom, omega0dtsqr, omega2pi, g2pi,
    OFFDIAG, Inputs.const.
  simpl. replace 0.25 with (/ 4) by lra. field.
Defined.

Lemma sigma_xx_nonneg (c : Meep.component) (s : array) (i : Z) :
  sigma (Inputs.sigma_xx 1) c (component_direction c) = Some s ->
  In i (owned Inputs.one_point c) -> 0 <= s i.
Proof.
  destruct c; simpl; intros E _; try discriminate.
  injection E as <-. unfold Inputs.const. lra.
Qed.

Lemma sigma_diag_nonneg (c : Meep.component) (s : array) (i : Z) :
  sigma (Inputs.sigma_diag 1) c (component_direction c) = Some s ->
  In i (owned Inputs.one_point c) -> 0 <= s i.
Proof.
  destruct c; simpl; intros E _; try discriminate;
    injection E as <-; unfold Inputs.const; lra.
Qed.




End OnInputs.
